(** * fortigate-autoscale: the core AutoscaleHandler and CloudPlatform classes

    A shallow embedding of [core/autoscale-handler.js] and
    [core/cloud-platform.js], and what holds of their methods.

    JavaScript strings are sequences of UTF-16 code units; the regular
    expressions of the handler carry no [u] flag, so they work on code units.
    A string is therefore a [list N].  The regular expressions are embedded
    as syntax trees run by a backtracking matcher that follows the
    ECMAScript pattern semantics (leftmost match, greedy quantifiers,
    alternatives tried in order); [exec], [replace] and [JSON.stringify]
    follow the algorithms of the ECMAScript specification.

    The values that reach the handler are ips and urls: strings, or absent
    ([undefined], [null]).  A call ends normally or by throwing; an [async]
    method that throws is a promise that rejects, and the two are not told
    apart.  The state that outlives a call, the [lastIndex] of the two
    module-level RegExp objects and the store behind the platform, is
    passed in and out explicitly. *)

From Stdlib Require Import NArith Ascii String Lia.
From stdpp Require Import base option list gmap strings.

Set Default Proof Using "Type".

(** ** JavaScript strings *)

Abbreviation jsstring := (list N).

(** The code units of an ASCII literal. *)
Definition js (s : string) : jsstring :=
  (fun a => N_of_ascii a) <$> list_ascii_of_string s.

(** [s.startsWith(p)] and [s.includes(p)]. *)
Fixpoint startsWith (p s : jsstring) : bool :=
  match p, s with
  | [], _ => true
  | _ :: _, [] => false
  | a :: p', b :: s' => N.eqb a b && startsWith p' s'
  end.

Fixpoint includes (p s : jsstring) : bool :=
  startsWith p s ||
  match s with
  | [] => false
  | _ :: s' => includes p s'
  end.

(** ** Character classes of ECMAScript patterns *)

Definition inRange (lo hi c : N) : bool := N.leb lo c && N.leb c hi.

(** LineTerminator: LF, CR, LS, PS. *)
Definition isLineTerminator (c : N) : bool :=
  N.eqb c 10 || N.eqb c 13 || N.eqb c 8232 || N.eqb c 8233.

(** [\s]: WhiteSpace and LineTerminator code units. *)
Definition isWhiteSpace (c : N) : bool :=
  inRange 9 13 c || N.eqb c 32 || N.eqb c 160 || N.eqb c 5760 ||
  inRange 8192 8202 c || N.eqb c 8232 || N.eqb c 8233 || N.eqb c 8239 ||
  N.eqb c 8287 || N.eqb c 12288 || N.eqb c 65279.

(** [.] without the [s] flag: anything but a line terminator. *)
Definition isDot (c : N) : bool := negb (isLineTerminator c).

(** Word characters, for [\b]: [A-Za-z0-9_]. *)
Definition isWordChar (c : N) : bool :=
  inRange 97 122 c || inRange 65 90 c || inRange 48 57 c || N.eqb c 95.

(** ** Pattern syntax *)

Inductive regex : Type :=
| Eps                              (* the empty pattern *)
| Chr (c : N)                      (* a literal character *)
| Cls (p : N -> bool)              (* a character class, [.] or [\s] *)
| Seq (r1 r2 : regex)              (* r1r2 *)
| Alt (r1 r2 : regex)              (* r1|r2 *)
| Star (r : regex)                 (* r*, greedy *)
| Grp (n : nat) (r : regex)        (* the n-th capturing group (r) *)
| Bol                              (* ^ without the m flag *)
| WordB.                           (* \b *)

Definition Plus (r : regex) : regex := Seq r (Star r).      (* r+ *)
Definition Opt (r : regex) : regex := Alt r Eps.            (* r? *)
Definition Cat (rs : list regex) : regex := foldr Seq Eps rs.
Definition Lit (s : string) : regex := Cat (Chr <$> js s).

(** ** The backtracking matcher

    A matcher state is a position in the input: its index, the code unit
    before it (none at index 0), the input from it on, and the captures so
    far. *)

Record mstate : Type := MState {
  pos : nat;
  prev : option N;
  rest : jsstring;
  caps : list (option jsstring)
}.

Definition cont : Type := mstate -> option mstate.

Definition advance (st : mstate) : option (N * mstate) :=
  match rest st with
  | [] => None
  | x :: xs => Some (x, MState (S (pos st)) (Some x) xs (caps st))
  end.

Definition consumed (st st' : mstate) : jsstring :=
  take (pos st' - pos st) (rest st).

Definition isWordAt (o : option N) : bool :=
  match o with
  | Some c => isWordChar c
  | None => false
  end.

Definition atWordBoundary (st : mstate) : bool :=
  xorb (isWordAt (prev st)) (isWordAt (head (rest st))).

Definition orElse {A} (a b : option A) : option A :=
  match a with
  | Some x => Some x
  | None => b
  end.

(** The loop of a greedy [r*], where [m] runs one [r]: another round first,
    the continuation when that fails.  A round that consumes nothing is
    rejected, as in ECMAScript, so [length (rest st)] rounds are all a star
    can ever make; that is the fuel the matcher gives it. *)
Definition starLoop (m : cont -> mstate -> option mstate) (k : cont)
    : nat -> mstate -> option mstate :=
  fix loop (fuel : nat) (st : mstate) {struct fuel} : option mstate :=
    match fuel with
    | O => k st
    | S fuel' =>
        orElse
          (m (fun st' => if pos st <? pos st' then loop fuel' st' else None) st)
          (k st)
    end.

(** [matcher r k st] runs [r] at [st] and hands every end position, in
    priority order, to the continuation [k] until [k] accepts one.
    (ECMAScript also clears the captures of a group at each round of a
    star around it; no pattern of the handler has a group under a star.) *)
Fixpoint matcher (r : regex) (k : cont) (st : mstate) : option mstate :=
  match r with
  | Eps => k st
  | Chr c =>
      match advance st with
      | Some (x, st') => if N.eqb x c then k st' else None
      | None => None
      end
  | Cls p =>
      match advance st with
      | Some (x, st') => if p x then k st' else None
      | None => None
      end
  | Seq r1 r2 => matcher r1 (matcher r2 k) st
  | Alt r1 r2 => orElse (matcher r1 k st) (matcher r2 k st)
  | Star r' => starLoop (matcher r') k (length (rest st)) st
  | Grp n r' =>
      matcher r'
        (fun st' =>
           k (MState (pos st') (prev st') (rest st')
                (<[n := Some (consumed st st')]> (caps st')))) st
  | Bol => match prev st with None => k st | Some _ => None end
  | WordB => if atWordBoundary st then k st else None
  end.

(** ** RegExp objects and [exec] *)

(** What [exec] returns: the match array ([groups !! 0] is the whole match)
    and its [index]; [endIndex] is the position after the match. *)
Record match_result : Type := MatchResult {
  index : nat;
  endIndex : nat;
  groups : list (option jsstring)
}.

Definition matched (mr : match_result) : jsstring :=
  default [] (mjoin (groups mr !! 0)).

Definition group (i : nat) (mr : match_result) : option jsstring :=
  mjoin (groups mr !! i).

(** Try to match at index [idx], where the input from [idx] on is [s] and
    [p] is the code unit before. *)
Definition matchAt (r : regex) (ngroups : nat) (p : option N)
    (s : jsstring) (idx : nat) : option match_result :=
  let st := MState idx p s (replicate (S ngroups) None) in
  match matcher r Some st with
  | Some st' =>
      Some (MatchResult idx (pos st') (<[0 := Some (consumed st st')]> (caps st')))
  | None => None
  end.

(** The loop of RegExpBuiltinExec: the leftmost index that matches. *)
Fixpoint search (r : regex) (ngroups : nat) (p : option N)
    (s : jsstring) (idx : nat) : option match_result :=
  match matchAt r ngroups p s idx with
  | Some mr => Some mr
  | None =>
      match s with
      | [] => None
      | x :: xs => search r ngroups (Some x) xs (S idx)
      end
  end.

Record RegExp : Type := MkRegExp {
  source : regex;
  ngroups : nat;
  global : bool;
  lastIndex : nat
}.

Definition setLastIndex (i : nat) (rx : RegExp) : RegExp :=
  MkRegExp (source rx) (ngroups rx) (global rx) i.

(** [rx.exec(s)]: a regular expression without the [g] flag starts at 0 and
    leaves [lastIndex] alone; with it, the search starts at [lastIndex],
    which then becomes the end of the match, or 0 on failure. *)
Definition exec (rx : RegExp) (s : jsstring) : option match_result * RegExp :=
  if global rx then
    let i := lastIndex rx in
    if length s <? i then (None, setLastIndex 0 rx)
    else
      match search (source rx) (ngroups rx)
              (match i with O => None | S j => s !! j end) (drop i s) i with
      | Some mr => (Some mr, setLastIndex (endIndex mr) rx)
      | None => (None, setLastIndex 0 rx)
      end
  else (search (source rx) (ngroups rx) None s 0, rx).

(** [rx.test(s)] *)
Definition test (rx : RegExp) (s : jsstring) : bool :=
  match fst (exec rx s) with
  | Some _ => true
  | None => false
  end.

(** ** [String.prototype.replace] with a pattern and a replacement string *)

Definition isDigit (c : N) : bool := inRange 48 57 c.
Definition digitValue (c : N) : nat := N.to_nat (c - 48).

(** The capture [$n] of GetSubstitution: a group that did not take part
    gives the empty string; an index that is no group of the pattern gives
    nothing, and the text is kept as it is. *)
Definition captureRef (mr : match_result) (n : nat) : option jsstring :=
  if (1 <=? n) && (n <? length (groups mr))
  then Some (default [] (group n mr)) else None.

(** GetSubstitution(matched, str, position, captures, replacement): [$$]
    is a dollar sign, [$&] the match, [$`] the text before it, [$'] the text
    after it, [$n] and [$nn] a capture; a two-digit index that is no group
    is read as [$n] followed by a digit; any other [$] stands for itself. *)
Fixpoint getSubstitution (mr : match_result) (str repl : jsstring) : jsstring :=
  match repl with
  | [] => []
  | c :: t1 =>
      if negb (N.eqb c 36) then c :: getSubstitution mr str t1
      else
        match t1 with
        | [] => [36%N]
        | d1 :: t2 =>
            if N.eqb d1 36 then 36%N :: getSubstitution mr str t2
            else if N.eqb d1 38 then matched mr ++ getSubstitution mr str t2
            else if N.eqb d1 96 then
              take (index mr) str ++ getSubstitution mr str t2
            else if N.eqb d1 39 then
              drop (endIndex mr) str ++ getSubstitution mr str t2
            else if isDigit d1 then
              let one :=
                match captureRef mr (digitValue d1) with
                | Some cap => cap ++ getSubstitution mr str t2
                | None => 36%N :: d1 :: getSubstitution mr str t2
                end in
              match t2 with
              | d2 :: t3 =>
                  if isDigit d2 then
                    match
                      captureRef mr (10 * digitValue d1 + digitValue d2)
                    with
                    | Some cap => cap ++ getSubstitution mr str t3
                    | None => one
                    end
                  else one
              | [] => one
              end
            else 36%N :: getSubstitution mr str t1
        end
  end.

(** The matches that [replace] collects: one for a pattern without the [g]
    flag, all of them with it; after an empty match [lastIndex] moves on by
    one. *)
Fixpoint collect (fuel : nat) (rx : RegExp) (s : jsstring)
    : list match_result * RegExp :=
  match fuel with
  | O => ([], rx)
  | S fuel' =>
      match exec rx s with
      | (None, rx') => ([], rx')
      | (Some mr, rx') =>
          if global rx' then
            let rx'' :=
              match matched mr with
              | [] => setLastIndex (S (lastIndex rx')) rx'
              | _ :: _ => rx'
              end in
            let '(ms, rxf) := collect fuel' rx'' s in (mr :: ms, rxf)
          else ([mr], rx')
      end
  end.

Fixpoint assemble (results : list match_result) (s repl : jsstring)
    (nextPos : nat) : jsstring :=
  match results with
  | [] => drop nextPos s
  | mr :: ms =>
      if nextPos <=? index mr then
        take (index mr - nextPos) (drop nextPos s)
          ++ getSubstitution mr s repl ++ assemble ms s repl (endIndex mr)
      else assemble ms s repl nextPos
  end.

(** [s.replace(rx, repl)]: the new string, and [rx] with its [lastIndex]
    after the call.  Every round of the loop moves [lastIndex] forward, so
    [length s + 2] rounds end it. *)
Definition replace (s : jsstring) (rx : RegExp) (repl : jsstring)
    : jsstring * RegExp :=
  let rx0 := if global rx then setLastIndex 0 rx else rx in
  let '(results, rx') := collect (length s + 2) rx0 s in
  (assemble results s repl 0, rx').

(** ** The patterns of autoscale-handler.js *)

Definition ws : regex := Cls isWhiteSpace.
Definition dot : regex := Cls isDot.

(** The section pattern, piece by piece: [(?:^|\n)], [\s*], [config?],
    [\s*], [system?], [\s*], [auto-scale], [[\s\n]*], the capturing group 1
    around the greedy [(?:.|\n)*], and [\bend\b]. *)
Definition AUTOSCALE_SECTION_EXPR : RegExp :=
  MkRegExp
    (Cat [Alt Bol (Chr 10); Star ws; Lit "confi"; Opt (Chr 103); Star ws;
          Lit "syste"; Opt (Chr 109); Star ws; Lit "auto-scale";
          Star (Cls (fun c => isWhiteSpace c || N.eqb c 10));
          Grp 1 (Star (Alt dot (Chr 10))); WordB; Lit "end"; WordB])
    1 false 0.

(** The secret pattern, with the [g] flag: group 1 around [set\s+],
    [(?:psksecret|password)] and [\s+], followed by the greedy [.*]. *)
Definition SET_SECRET_EXPR : RegExp :=
  MkRegExp
    (Cat [Grp 1 (Cat [Lit "set"; Plus ws;
                      Alt (Lit "psksecret") (Lit "password"); Plus ws]);
          Star dot])
    1 true 0.

(** The field patterns [set\s+<key>\s+(.+)], for the three keys. *)
Definition setFieldExpr (key : string) : RegExp :=
  MkRegExp (Cat [Lit "set"; Plus ws; Lit key; Plus ws; Grp 1 (Plus dot)])
    1 false 0.

(** The placeholder pattern: the literal text [${CALLBACK_URL}]. *)
Definition CALLBACK_URL_EXPR : RegExp :=
  MkRegExp (Lit "${CALLBACK_URL}") 0 false 0.

(** ** Values, completions and JSON text *)

(** The arguments of the handler are ips and urls: strings, or absent. *)
Inductive jsval : Type :=
| JUndefined
| JNull
| JString (s : jsstring).

(** ToBoolean: only a non-empty string is truthy here. *)
Definition truthy (v : jsval) : bool :=
  match v with
  | JString (_ :: _) => true
  | _ => false
  end.

(** ToString, as in a template literal or for the argument of [exec]. *)
Definition toString (v : jsval) : jsstring :=
  match v with
  | JUndefined => js "undefined"
  | JNull => js "null"
  | JString s => s
  end.

Inductive jserror : Type :=
| Error (message : jsstring)
| ReferenceError (message : jsstring).

(** How a call ends, or how the promise of an [async] method settles. *)
Inductive completion (A : Type) : Type :=
| Normal (v : A)
| Throw (e : jserror).
Arguments Normal {A} v.
Arguments Throw {A} e.

#[export] Instance completion_ret : MRet completion := @Normal.
#[export] Instance completion_bind : MBind completion :=
  fun A B f c =>
    match c with
    | Normal v => f v
    | Throw e => Throw e
    end.

Definition hexDigit (n : N) : N :=
  (if n <? 10 then 48 + n else 87 + n)%N.

(** UnicodeEscape: [\uXXXX] with lower-case digits. *)
Definition unicodeEscape (c : N) : jsstring :=
  [92; 117; hexDigit (c / 4096 mod 16); hexDigit (c / 256 mod 16);
   hexDigit (c / 16 mod 16); hexDigit (c mod 16)]%N.

Definition isLeadingSurrogate (c : N) : bool := inRange 55296 56319 c.
Definition isTrailingSurrogate (c : N) : bool := inRange 56320 57343 c.

(** The inside of QuoteJSONString (ECMAScript 2019 and later): the two
    quoting escapes, the five short control escapes, [\uXXXX] for the other
    control characters and for surrogates that are not paired. *)
Fixpoint quoteJSONChars (s : jsstring) : jsstring :=
  match s with
  | [] => []
  | c :: t =>
      if N.eqb c 8 then js "\b" ++ quoteJSONChars t
      else if N.eqb c 9 then js "\t" ++ quoteJSONChars t
      else if N.eqb c 10 then js "\n" ++ quoteJSONChars t
      else if N.eqb c 12 then js "\f" ++ quoteJSONChars t
      else if N.eqb c 13 then js "\r" ++ quoteJSONChars t
      else if N.eqb c 34 then [92; 34]%N ++ quoteJSONChars t
      else if N.eqb c 92 then [92; 92]%N ++ quoteJSONChars t
      else if N.ltb c 32 then unicodeEscape c ++ quoteJSONChars t
      else if isLeadingSurrogate c then
        match t with
        | d :: t' =>
            if isTrailingSurrogate d then c :: d :: quoteJSONChars t'
            else unicodeEscape c ++ quoteJSONChars t
        | [] => unicodeEscape c
        end
      else if isTrailingSurrogate c then unicodeEscape c ++ quoteJSONChars t
      else c :: quoteJSONChars t
  end.

Definition quoteJSONString (s : jsstring) : jsstring :=
  [34%N] ++ quoteJSONChars s ++ [34%N].

(** SerializeJSONProperty: a property whose value is [undefined] is left
    out. *)
Definition serializeJSONProperty (v : jsval) : option jsstring :=
  match v with
  | JUndefined => None
  | JNull => Some (js "null")
  | JString s => Some (quoteJSONString s)
  end.

Fixpoint joinWith (sep : jsstring) (parts : list jsstring) : jsstring :=
  match parts with
  | [] => []
  | [x] => x
  | x :: xs => x ++ sep ++ joinWith sep xs
  end.

(** [JSON.stringify] of an object given by its properties, in order. *)
Definition JSON_stringify (props : list (string * jsval)) : jsstring :=
  js "{" ++
  joinWith (js ",")
    (omap (fun '(key, v) =>
             (fun t => quoteJSONString (js key) ++ js ":" ++ t)
               <$> serializeJSONProperty v) props)
  ++ js "}".

(** ** Reading JSON text

    The side of whoever receives a response: the grammar of JSON strings,
    and of objects whose values are strings or [null], written without
    white space.  That is all [JSON_stringify] writes; any other text is
    turned down. *)

Definition hexValue (c : N) : option N :=
  (if isDigit c then Some (c - 48)
   else if inRange 97 102 c then Some (c - 87)
   else if inRange 65 70 c then Some (c - 55)
   else None)%N.

Definition hex4 (h1 h2 h3 h4 : N) : option N :=
  a ← hexValue h1; b ← hexValue h2; c ← hexValue h3; d ← hexValue h4;
  Some (4096 * a + 256 * b + 16 * c + d)%N.

(** The character that a short escape stands for. *)
Definition unescape (e : N) : option N :=
  (if N.eqb e 34 then Some 34
   else if N.eqb e 92 then Some 92
   else if N.eqb e 47 then Some 47
   else if N.eqb e 98 then Some 8
   else if N.eqb e 102 then Some 12
   else if N.eqb e 110 then Some 10
   else if N.eqb e 114 then Some 13
   else if N.eqb e 116 then Some 9
   else None)%N.

(** The characters of a JSON string up to its closing quote, and the text
    behind the quote. *)
Fixpoint parseJSONChars (s : jsstring) : option (jsstring * jsstring) :=
  match s with
  | [] => None
  | c :: t =>
      if N.eqb c 34 then Some ([], t)
      else if N.eqb c 92 then
        match t with
        | [] => None
        | e :: t' =>
            if N.eqb e 117 then
              match t' with
              | h1 :: h2 :: h3 :: h4 :: t'' =>
                  u ← hex4 h1 h2 h3 h4;
                  '(v, r) ← parseJSONChars t'';
                  Some (u :: v, r)
              | _ => None
              end
            else
              x ← unescape e;
              '(v, r) ← parseJSONChars t';
              Some (x :: v, r)
        end
      else if N.ltb c 32 then None
      else '(v, r) ← parseJSONChars t; Some (c :: v, r)
  end.

Definition parseJSONString (s : jsstring) : option (jsstring * jsstring) :=
  match s with
  | c :: t => if N.eqb c 34 then parseJSONChars t else None
  | [] => None
  end.

Definition parseJSONValue (s : jsstring) : option (jsval * jsstring) :=
  if startsWith (js "null") s then Some (JNull, drop 4 s)
  else '(v, r) ← parseJSONString s; Some (JString v, r).

(** The members of an object, behind its opening brace. *)
Fixpoint parseJSONMembers (fuel : nat) (s : jsstring)
    : option (list (jsstring * jsval)) :=
  match fuel with
  | O => None
  | S fuel' =>
      '(key, r1) ← parseJSONString s;
      match r1 with
      | c :: r2 =>
          if N.eqb c 58 then
            '(v, r3) ← parseJSONValue r2;
            match r3 with
            | [d] => if N.eqb d 125 then Some [(key, v)] else None
            | d :: r4 =>
                if N.eqb d 44 then
                  members ← parseJSONMembers fuel' r4;
                  Some ((key, v) :: members)
                else None
            | [] => None
            end
          else None
      | [] => None
      end
  end.

(** [JSON.parse], on the texts described above: the properties of the
    object, in order. *)
Definition JSON_parse (s : jsstring) : option (list (jsstring * jsval)) :=
  match s with
  | c :: t =>
      if N.eqb c 123 then
        match t with
        | [d] => if N.eqb d 125 then Some [] else None
        | _ => parseJSONMembers (length t) t
        end
      else None
  | [] => None
  end.

(** ** CloudPlatform (cloud-platform.js)

    The abstract class as an interface: the methods the handler calls, over
    a platform state [St]; [Item] is what the settings store holds. *)

Definition notImplemented : jserror := Error (js "Not Implemented").

Record CloudPlatform (St Item : Type) : Type := MkCloudPlatform {
  init : St -> completion jsval * St;
  putMasterElectionVote : jsval -> jsval -> St -> completion jsval * St;
  getElectedMaster : St -> completion jsval * St;
  getSettingItem : jsstring -> St -> completion (option Item) * St;
  setSettingItem : jsstring -> Item -> St -> completion jsval * St
}.
Arguments init {St Item} _ _.
Arguments putMasterElectionVote {St Item} _ _ _ _.
Arguments getElectedMaster {St Item} _ _.
Arguments getSettingItem {St Item} _ _ _.
Arguments setSettingItem {St Item} _ _ _ _.

(** The class itself: every method awaits [throwNotImplementedException]. *)
Definition abstractCloudPlatform (St Item : Type) : CloudPlatform St Item :=
  {| init := fun st => (Throw notImplemented, st);
     putMasterElectionVote := fun _ _ st => (Throw notImplemented, st);
     getElectedMaster := fun st => (Throw notImplemented, st);
     getSettingItem := fun _ st => (Throw notImplemented, st);
     setSettingItem := fun _ _ st => (Throw notImplemented, st) |}.

(** ** AutoscaleHandler (autoscale-handler.js) *)

Definition jsLines (ls : list string) : jsstring := joinWith [10%N] (js <$> ls).

(** The text of the template literal of [getSlaveConfig], cut at its five
    substitutions. *)
Definition T_syncInterface : jsstring :=
  jsLines
    ["";
     "                        config system auto-scale";
     "                            set status enable";
     "                            set sync-interface "].

Definition T_masterIp : jsstring :=
  jsLines
    ["";
     "                            set role slave";
     "                            set master-ip "].

Definition T_callbackUrl : jsstring :=
  jsLines
    ["";
     "                            set callback-url "].

Definition T_pskSecret : jsstring :=
  jsLines
    ["";
     "                            set psksecret "].

Definition T_adminPort : jsstring :=
  jsLines
    ["";
     "                        end";
     "                        config system dns";
     "                            unset primary";
     "                            unset secondary";
     "                        end";
     "                        config system global";
     "                            set admin-console-timeout 300";
     "                        end";
     "                        config system global";
     "                            set admin-sport "].

Definition T_end : jsstring :=
  jsLines
    ["";
     "                        end";
     "                    "].

Definition slaveConfigText
    (syncInterface masterIp apiEndpoint pskSecret adminPort : jsstring)
    : jsstring :=
  T_syncInterface ++ syncInterface ++ T_masterIp ++ masterIp ++
  T_callbackUrl ++ apiEndpoint ++ T_pskSecret ++ pskSecret ++
  T_adminPort ++ adminPort ++ T_end.

(** The settings object that [saveSettings] builds. *)
Record GroupSettings (V : Type) : Type := MkGroupSettings {
  desiredCapacity : V;
  minSize : V;
  maxSize : V
}.
Arguments MkGroupSettings {V} _ _ _.
Arguments desiredCapacity {V} _.
Arguments minSize {V} _.
Arguments maxSize {V} _.

(** The two module-level RegExp objects live as long as the module; what
    can change in them is [lastIndex]. *)
Record module_state : Type := MkModuleState {
  sectionExpr : RegExp;
  secretExpr : RegExp
}.

Definition moduleLoaded (i j : nat) : module_state :=
  MkModuleState (setLastIndex i AUTOSCALE_SECTION_EXPR)
    (setLastIndex j SET_SECRET_EXPR).

(** [m && m[1]] *)
Definition firstGroup (m : option match_result) : jsval :=
  match m with
  | None => JNull
  | Some mr =>
      match group 1 mr with
      | Some s => JString s
      | None => JUndefined
      end
  end.

(** [/set\s+<key>\s+(.+)/.exec(autoScaleSection)], then [m && m[1]]. *)
Definition execField (key : string) (autoScaleSection : jsval) : jsval :=
  firstGroup (fst (exec (setFieldExpr key) (toString autoScaleSection))).

Section Handler.
Context {St V : Type}.

(** An instance: the two fields the constructor sets, and the method
    [throwNotImplementedException], which a subclass may override. *)
Record AutoscaleHandler : Type := MkAutoscaleHandler {
  platform : CloudPlatform St (GroupSettings V);
  _baseConfig : jsstring;
  throwNotImplementedException : completion jsval
}.

(** [new AutoscaleHandler(platform, baseConfig)] *)
Definition newAutoscaleHandler
    (platform : CloudPlatform St (GroupSettings V)) (baseConfig : jsstring)
    : AutoscaleHandler :=
  MkAutoscaleHandler platform baseConfig (Throw notImplemented).

Definition getMasterConfig (this : AutoscaleHandler) (callbackUrl : jsval)
    : completion jsstring :=
  Normal (fst (replace (_baseConfig this) CALLBACK_URL_EXPR
                 (toString callbackUrl))).

Definition autoScaleSectionOf (ms : module_state) (baseConfig : jsstring)
    : jsval * RegExp :=
  let '(autoScaleSectionMatch, rx) := exec (sectionExpr ms) baseConfig in
  (firstGroup autoScaleSectionMatch, rx).

(** The message of the error thrown on a missing value. *)
Definition invalidMessage
    (syncInterface apiEndpoint masterIp pskSecret : jsval) : jsstring :=
  let errorMessage := JUndefined in
  let errorMessage :=
    if truthy apiEndpoint then errorMessage
    else JString (js "Api endpoint is missing") in
  let errorMessage :=
    if truthy masterIp then errorMessage
    else JString (js "Master ip is missing") in
  let errorMessage :=
    if truthy pskSecret then errorMessage
    else JString (js "psksecret is missing") in
  js "Base config is invalid (" ++ toString errorMessage ++ js "): " ++
  JSON_stringify
    [("syncInterface", syncInterface);
     ("apiEndpoint", apiEndpoint);
     ("masterIp", masterIp);
     ("pskSecret",
       if truthy pskSecret then JString (js "string") else pskSecret)].

(** The value of [config.replace(SET_SECRET_EXPR, '$1 *')], which
    [getSlaveConfig] awaits and then drops. *)
Definition redactedView (config : jsstring) (ms : module_state) : jsstring :=
  fst (replace config (secretExpr ms) (js "$1 *")).

Definition getSlaveConfig (this : AutoscaleHandler)
    (masterIp callbackUrl : jsval) (ms : module_state)
    : completion jsstring * module_state :=
  let '(autoScaleSection, rx1) := autoScaleSectionOf ms (_baseConfig this) in
  let ms := MkModuleState rx1 (secretExpr ms) in
  let syncInterface := execField "sync-interface" autoScaleSection in
  let pskSecret := execField "psksecret" autoScaleSection in
  let adminPort := execField "admin-sport" autoScaleSection in
  let apiEndpoint := callbackUrl in
  let config :=
    slaveConfigText
      (toString (if truthy syncInterface then syncInterface
                 else JString (js "port1")))
      (toString masterIp) (toString apiEndpoint) (toString pskSecret)
      (toString (if truthy adminPort then adminPort
                 else JString (js "8443"))) in
  if negb (truthy pskSecret) || negb (truthy apiEndpoint)
     || negb (truthy masterIp)
  then
    (Throw (Error (invalidMessage syncInterface apiEndpoint masterIp
                     pskSecret)), ms)
  else
    let '(_, rx2) := replace config (secretExpr ms) (js "$1 *") in
    (Normal config, MkModuleState (sectionExpr ms) rx2).

(** The spec calls the error of [getSlaveConfig] InvalidBaseConfig; in
    the code it is an [Error] whose message starts as follows. *)
Definition isInvalidBaseConfig (e : jserror) : bool :=
  match e with
  | Error message => startsWith (js "Base config is invalid (") message
  | ReferenceError _ => false
  end.

Definition responseToHeartBeat (masterIp : jsval) : jsstring :=
  let response := [] in
  let response :=
    if truthy masterIp then response ++ [("master-ip", masterIp)]
    else response in
  JSON_stringify response.

Definition settingsKey : jsstring := js "auto-scaling-group".

Definition loadSettings (this : AutoscaleHandler) (st : St)
    : completion (option (GroupSettings V)) * St :=
  getSettingItem (platform this) settingsKey st.

Definition saveSettings (this : AutoscaleHandler)
    (desiredCapacity minSize maxSize : V) (st : St)
    : completion jsval * St :=
  let settingValues := MkGroupSettings desiredCapacity minSize maxSize in
  setSettingItem (platform this) settingsKey settingValues st.

(** Reading an identifier that no scope of the module declares: the
    global object decides, and a name it lacks is a ReferenceError.  The
    result comes with the names that were looked up. *)
Definition resolveGlobal (genv : gmap string jsval) (name : string)
    : completion jsval * list string :=
  (match genv !! name with
   | Some v => Normal v
   | None => Throw (ReferenceError (js name ++ js " is not defined"))
   end, [name]).

(** [a || b]: [b] is evaluated only when [a] completes with a falsy
    value. *)
Definition logicalOr (a : completion jsval)
    (b : completion jsval * list string) : completion jsval * list string :=
  match a with
  | Normal v => if truthy v then (Normal v, []) else b
  | Throw e => (Throw e, [])
  end.

(** [purgeMaster()]: how it ends, and which global names it read. *)
Definition purgeMaster (this : AutoscaleHandler) (genv : gmap string jsval)
    : completion jsval * list string :=
  logicalOr (throwNotImplementedException this) (resolveGlobal genv "asgName").

End Handler.
Arguments AutoscaleHandler : clear implicits.

(** A settings store that keeps its items in a finite map by key; a key
    that was never set has no item.  The other methods stay abstract. *)
Definition mapPlatform (Item : Type)
    : CloudPlatform (gmap jsstring Item) Item :=
  {| init := fun st => (Throw notImplemented, st);
     putMasterElectionVote := fun _ _ st => (Throw notImplemented, st);
     getElectedMaster := fun st => (Throw notImplemented, st);
     getSettingItem := fun key st => (Normal (st !! key), st);
     setSettingItem := fun key item st => (Normal JUndefined, <[key := item]> st) |}.

(** Plain substitution, for comparison with [getMasterConfig]: the first
    occurrence of [token] in [s] gives way to [text], taken as it is. *)
Fixpoint substituteFirst (token text s : jsstring) : jsstring :=
  if startsWith token s then text ++ drop (length token) s
  else
    match s with
    | [] => []
    | c :: s' => c :: substituteFirst token text s'
    end.

(** A line of the rendered config: the fields of a block stand 28 columns
    in, as in the template literal. *)
Definition configLine (text : string) : jsstring :=
  [10%N] ++ replicate 28 32%N ++ js text ++ [10%N].

(** ** The auto-scale section as the spec words it

    For comparison with [autoScaleSectionOf]: the lines between the first
    [config ... auto-scale] header line and the next line that is a bare
    [end]. *)

Fixpoint splitLines (line s : jsstring) : list jsstring :=
  match s with
  | [] => [reverse line]
  | c :: s' =>
      if N.eqb c 10 then reverse line :: splitLines [] s'
      else splitLines (c :: line) s'
  end.

Fixpoint trimStart (s : jsstring) : jsstring :=
  match s with
  | c :: s' => if isWhiteSpace c then trimStart s' else s
  | [] => []
  end.

Definition trim (s : jsstring) : jsstring :=
  reverse (trimStart (reverse (trimStart s))).

Definition endsWith (p s : jsstring) : bool :=
  startsWith (reverse p) (reverse s).

Definition isHeaderLine (l : jsstring) : bool :=
  startsWith (js "config") (trim l) && endsWith (js "auto-scale") (trim l).

Definition isBareEnd (l : jsstring) : bool :=
  bool_decide (trim l = js "end").

Fixpoint linesToEnd (ls : list jsstring) : option (list jsstring) :=
  match ls with
  | [] => None
  | l :: ls' => if isBareEnd l then Some [] else cons l <$> linesToEnd ls'
  end.

Fixpoint sectionLines (ls : list jsstring) : option (list jsstring) :=
  match ls with
  | [] => None
  | l :: ls' => if isHeaderLine l then linesToEnd ls' else sectionLines ls'
  end.

Definition specAutoScaleSection (baseConfig : jsstring)
    : option (list jsstring) :=
  sectionLines (splitLines [] baseConfig).

(** ** Base configs used as examples *)

(** A base config whose auto-scale section sets the interface and the
    secret. *)
Definition exampleBaseConfig : jsstring :=
  jsLines
    ["config system auto-scale";
     "    set status enable";
     "    set sync-interface port3";
     "    set role master";
     "    set callback-url ${CALLBACK_URL}";
     "    set psksecret abc123";
     "end";
     ""].

(** A base config that sets nothing but the secret. *)
Definition minimalBaseConfig : jsstring :=
  jsLines
    ["config system auto-scale";
     "    set psksecret abc123";
     "end";
     ""].

(** A base config whose auto-scale section has no secret, followed by a VPN
    section that has one of its own. *)
Definition vpnBaseConfig : jsstring :=
  jsLines
    ["config system auto-scale";
     "    set status enable";
     "    set sync-interface port3";
     "end";
     "config vpn ipsec phase1-interface";
     "    edit vpn1";
     "        set psksecret vpnsecret";
     "    next";
     "end";
     ""].

(** The example base config with CR LF at the end of its lines. *)
Definition crlfBaseConfig : jsstring :=
  joinWith [13; 10]%N
    (js <$> ["config system auto-scale";
             "    set status enable";
             "    set sync-interface port3";
             "    set psksecret abc123";
             "end";
             ""]).

(** A base config whose auto-scale section names no sync interface,
    followed by a section that names one. *)
Definition haBaseConfig : jsstring :=
  jsLines
    ["config system auto-scale";
     "    set status enable";
     "    set psksecret abc123";
     "end";
     "config system ha";
     "    set sync-interface port9";
     "end";
     ""].

(** A VPN section with a secret of its own. *)
Definition vpnSection : jsstring :=
  jsLines
    ["config vpn ipsec phase1-interface";
     "    edit vpn1";
     "        set psksecret vpnsecret";
     "    next";
     "end";
     ""].

(** The lines of an auto-scale section that sets the interface and the
    secret, from the first word behind the header to the line feed before
    the closing [end]. *)
Definition exampleSection : jsstring :=
  jsLines
    ["set status enable";
     "    set sync-interface port3";
     "    set role master";
     "    set callback-url ${CALLBACK_URL}";
     "    set psksecret abc123";
     ""].

(** What follows that [end]: the rest of its line and a section of global
    settings. *)
Definition globalSection : jsstring :=
  jsLines
    ["";
     "config system global";
     "    set admin-sport 4443";
     "end";
     ""].

(** A base config of three sections, the auto-scale section between the
    two others. *)
Definition sectionsBaseConfig : jsstring :=
  vpnSection ++ js "config system auto-scale" ++ ([10%N] ++ js "    ") ++
  exampleSection ++ js "end" ++ globalSection.

(** ** Election votes

    [putMasterElectionVote(ip, purgeMasterIp)] called by several instances
    of a group.  Each call runs against the platform state that the call
    before it left; callers that vote at the same time reach the platform
    in some order, and the list gives that order. *)

Section Votes.
Context {St Item : Type}.


End Votes.




(** ** What a pattern matches, as a relation

    [run r st st'] : the pattern [r] can take the matcher from [st] to
    [st'].  The matcher enumerates exactly these end states, in priority
    order. *)

Definition setCapture (n : nat) (v : jsstring) (st : mstate) : mstate :=
  MState (pos st) (prev st) (rest st) (<[n := Some v]> (caps st)).

Inductive run : regex -> mstate -> mstate -> Prop :=
| run_Eps st : run Eps st st
| run_Chr c st st' : advance st = Some (c, st') -> run (Chr c) st st'
| run_Cls p x st st' :
    advance st = Some (x, st') -> p x = true -> run (Cls p) st st'
| run_Seq r1 r2 st st1 st2 :
    run r1 st st1 -> run r2 st1 st2 -> run (Seq r1 r2) st st2
| run_Alt_l r1 r2 st st' : run r1 st st' -> run (Alt r1 r2) st st'
| run_Alt_r r1 r2 st st' : run r2 st st' -> run (Alt r1 r2) st st'
| run_Star_stop r st : run (Star r) st st
| run_Star_more r st st1 st2 :
    run r st st1 -> pos st < pos st1 -> run (Star r) st1 st2 ->
    run (Star r) st st2
| run_Grp n r st st' :
    run r st st' -> run (Grp n r) st (setCapture n (consumed st st') st')
| run_Bol st : prev st = None -> run Bol st st
| run_WordB st : atWordBoundary st = true -> run WordB st st.

(** The code unit before the position reached by reading [chars]. *)
Fixpoint prevAfter (chars : jsstring) (p : option N) : option N :=
  match chars with
  | [] => p
  | c :: chars' => prevAfter chars' (Some c)
  end.

(** A pattern without assertions looks at nothing but the input ahead. *)
Fixpoint assertionFree (r : regex) : bool :=
  match r with
  | Eps | Chr _ | Cls _ => true
  | Seq r1 r2 | Alt r1 r2 => assertionFree r1 && assertionFree r2
  | Star r' | Grp _ r' => assertionFree r'
  | Bol | WordB => false
  end.

(** Every capture of the state is a piece of [s]. *)
Definition capsWithin (s : jsstring) (st : mstate) : Prop :=
  forall n v, caps st !! n = Some (Some v) -> exists a b, s = a ++ v ++ b.

(** The same position with the input moved [d] places to the right and
    [post] added behind it. *)
Definition shifted (d : nat) (post : jsstring) (st t : mstate) : Prop :=
  pos t = pos st + d /\ rest t = rest st ++ post /\ caps t = caps st.

(** ** The methods of AutoscaleHandler that a subclass fills in

    Each awaits [throwNotImplementedException] first; what it returns
    behind that is reached only in a subclass that overrides the method.
    The values passed in (ips, ids, instances, events, capacities) are of a
    type [V] of which the methods use ToBoolean alone. *)

Section Placeholders.
Context {St V : Type}.
Variable toBoolean : V -> bool.
Implicit Types (this : AutoscaleHandler St V).

(** [a && b] *)
Definition logicalAnd (a b : V) : V := if toBoolean a then b else a.

(** [v || b], with [v] what the awaited call gave. *)
Definition awaitedOr (v : jsval) (b : V) : jsval + V :=
  if truthy v then inl v else inr b.

Definition handle this : completion jsval :=
  throwNotImplementedException this ≫= fun _ => Normal JUndefined.

(** [init()] of the handler, under another name than the [init] of the
    platform that it awaits. *)
Definition initHandler this (st : St) : completion jsval * St :=
  let '(r, st') := init (platform this) st in
  (r ≫= fun _ => Normal JUndefined, st').

Definition getConfig this (ip : V) : completion V :=
  throwNotImplementedException this ≫= fun _ => Normal ip.

Definition checkMasterElection this : completion jsval :=
  throwNotImplementedException this.

Definition completeMasterElection this (ip : V) : completion V :=
  throwNotImplementedException this ≫= fun _ => Normal ip.

Definition completeMasterInstance this (instanceId : V) : completion V :=
  throwNotImplementedException this ≫= fun _ => Normal instanceId.

Definition getFazIp this : completion jsval :=
  throwNotImplementedException this ≫= fun _ => Normal JNull.

(** [return null || event] *)
Definition handleNicAttachment this (event : V) : completion V :=
  throwNotImplementedException this ≫= fun _ => Normal event.

Definition handleNicDetachment this (event : V) : completion V :=
  throwNotImplementedException this ≫= fun _ => Normal event.

(** [return null || desiredCapacity && minSize && maxSize] *)
Definition updateCapacity this (desiredCapacity minSize maxSize : V)
    : completion V :=
  throwNotImplementedException this ≫= fun _ =>
  Normal (logicalAnd (logicalAnd desiredCapacity minSize) maxSize).

Definition resetMasterElection this : completion jsval :=
  throwNotImplementedException this ≫= fun _ => Normal JUndefined.

Definition addInstanceToMonitor this (instance nextHeartBeatTime : V)
    : completion (jsval + V) :=
  throwNotImplementedException this ≫= fun v =>
  Normal (awaitedOr v (logicalAnd instance nextHeartBeatTime)).

Definition removeInstanceFromMonitor this (instance : V)
    : completion (jsval + V) :=
  throwNotImplementedException this ≫= fun v => Normal (awaitedOr v instance).

Definition deregisterMasterInstance this (instance : V)
    : completion (jsval + V) :=
  throwNotImplementedException this ≫= fun v => Normal (awaitedOr v instance).

Definition terminateInstanceInAutoScalingGroup this (instance : V)
    : completion (jsval + V) :=
  throwNotImplementedException this ≫= fun v => Normal (awaitedOr v instance).

End Placeholders.

(** ** The class CloudPlatform, method by method *)

Module CloudPlatformClass.

(** An instance of the class or of a subclass, as far as the methods of the
    class itself go: they call [throwNotImplementedException] and use
    nothing else of [this]. *)
Record instance : Type := MkInstance {
  throwNotImplementedException : completion jsval
}.

(** [new CloudPlatform()] *)
Definition newCloudPlatform : instance := MkInstance (Throw notImplemented).

Section Methods.
Context {A : Type}.
Implicit Types (this : instance).

(** The body of the async methods,
    [await this.throwNotImplementedException();]: the error of that call,
    or [undefined] behind it.  No body reads a parameter, so the default
    values of some of them play no part. *)
Definition awaitThrow this : completion jsval :=
  throwNotImplementedException this ≫= fun _ => Normal JUndefined.

Definition init this : completion jsval := awaitThrow this.
Definition putMasterElectionVote this (ip purgeMasterIp : A) := awaitThrow this.
Definition getElectedMaster this := awaitThrow this.
Definition getLifecycleItems this (instanceId : A) := awaitThrow this.
Definition updateLifecycleItem this (item : A) := awaitThrow this.
Definition cleanUpDbLifeCycleActions this (items : A) := awaitThrow this.
Definition getCallbackEndpointUrl this (fromContext : A) := awaitThrow this.
Definition findInstanceIdByIp this (ip : A) := awaitThrow this.

(** [extractRequestInfo(request)]: not async; [{}] behind the call. *)
Definition extractRequestInfo this (request : A)
    : completion (list (string * jsval)) :=
  throwNotImplementedException this ≫= fun _ => Normal [].

Definition protectInstanceFromScaleIn this (item protect : A) :=
  awaitThrow this.
Definition listAllInstances this (parameters : A) := awaitThrow this.
Definition describeInstance this (parameters : A) := awaitThrow this.
Definition getInstanceHealthCheck this (instance heartBeatInterval : A) :=
  awaitThrow this.
Definition updateInstanceHealthCheck this
    (healthCheckObject heartBeatInterval checkPointTime : A) :=
  awaitThrow this.
Definition deleteInstanceHealthCheck this (instanceId : A) := awaitThrow this.
Definition deleteInstances this (parameters : A) := awaitThrow this.
Definition createNetworkInterface this (parameters : A) := awaitThrow this.
Definition deleteNetworkInterface this (parameters : A) := awaitThrow this.
Definition describeNetworkInterface this (parameters : A) := awaitThrow this.
Definition attachNetworkInterface this (instance nic : A) := awaitThrow this.
Definition detachNetworkInterface this (instance nic : A) := awaitThrow this.
Definition getNicAttachmentRecord this (instanceId : A) := awaitThrow this.
Definition updateNicAttachmentRecord this
    (instanceId nicId state conditionState : A) :=
  awaitThrow this.
Definition deleteNicAttachmentRecord this (instanceId conditionState : A) :=
  awaitThrow this.
Definition getSettingItem this (key : A) := awaitThrow this.
Definition setSettingItem this (key jsonValue : A) := awaitThrow this.

(** [getPlatformLogger()]: not async, the same call and nothing behind
    it. *)
Definition getPlatformLogger this : completion jsval := awaitThrow this.

End Methods.
End CloudPlatformClass.

(** ** Positions, occurrences and field lines

    What the statements about the patterns are written with. *)

(** The state reached from [st] by reading [a]. *)
Fixpoint after (st : mstate) (a : jsstring) : mstate :=
  match a with
  | [] => st
  | x :: a' =>
      after (MState (S (pos st)) (Some x) (tail (rest st)) (caps st)) a'
  end.

(** A pattern that reads one code unit, of the class [P]. *)
Definition single (P : N -> bool) (r : regex) : Prop :=
  forall k st,
    matcher r k st =
    match advance st with
    | Some (x, st') => if P x then k st' else None
    | None => None
    end.

(** What follows the header in the section pattern: group 1 and the
    closing [end]. *)
Definition sectionTail : regex :=
  Seq (Grp 1 (Star (Alt dot (Chr 10))))
    (Seq WordB (Seq (Lit "end") (Seq WordB Eps))).

(** All the indices at which [p] occurs in [s], in ascending order: the
    first is [s.indexOf(p)], the last [s.lastIndexOf(p)]. *)
Fixpoint indicesFrom (p s : jsstring) (i : nat) : list nat :=
  (if startsWith p s then [i] else []) ++
  match s with
  | [] => []
  | _ :: s' => indicesFrom p s' (S i)
  end.

Definition indicesOf (p s : jsstring) : list nat := indicesFrom p s 0.

(** [v] is the value of a [set <key> <value>] line of [text]: it stands
    behind [set], white space, the key and white space, is not empty, has
    no line terminator in it and runs to the end of its line. *)
Definition valueOfLine (key : string) (v text : jsstring) : Prop :=
  exists a w1 w2 b,
    text = a ++ js "set" ++ w1 ++ js key ++ w2 ++ v ++ b /\
    w1 <> [] /\ w2 <> [] /\
    Forall (fun c => isWhiteSpace c = true) (w1 ++ w2) /\
    v <> [] /\ Forall (fun c => isDot c = true) v /\
    (forall c, head b = Some c -> isDot c = false).

(** The line [set <key> <value>] stands in [section], with one blank
    between its words and a line feed behind the value, and it is where
    the key first occurs in [section]. *)
Definition firstFieldLine (key value : string) (section : jsstring) : Prop :=
  exists above below,
    section =
      above ++ js "set " ++ js key ++ js " " ++ js value ++ [10%N] ++ below /\
    head (indicesOf (js key) section) = Some (length (above ++ js "set ")).

(** The properties that [JSON_stringify] writes: all but the undefined
    ones. *)
Definition written (props : list (string * jsval)) : list (jsstring * jsval) :=
  omap (fun '(key, v) =>
          match v with
          | JUndefined => None
          | _ => Some (js key, v)
          end) props.

(** One of them, as it is written. *)
Definition memberText (m : jsstring * jsval) : jsstring :=
  quoteJSONString (fst m) ++ js ":" ++
  default [] (serializeJSONProperty (snd m)).

(** * Theorems *)

(** ** The matcher against the relation *)

Lemma advance_inv st x st' :
  advance st = Some (x, st') ->
  rest st = x :: rest st' /\ pos st' = S (pos st) /\ prev st' = Some x /\
  caps st' = caps st.
Proof.
  unfold advance. destruct (rest st) as [|y ys]; [done|].
  intros [= <- <-]. done.
Qed.

Lemma matcher_sound r k st res :
  matcher r k st = Some res -> exists st', run r st st' /\ k st' = Some res.
Proof.
  revert k st res.
  induction r as [|c|p|r1 IH1 r2 IH2|r1 IH1 r2 IH2|r IH|n r IH| |];
    intros k st res H; simpl in H.
  - eauto using run.
  - destruct (advance st) as [[x st']|] eqn:E; [|done].
    destruct (N.eqb_spec x c) as [->|]; [|done]. eauto using run.
  - destruct (advance st) as [[x st']|] eqn:E; [|done].
    destruct (p x) eqn:Hp; [|done]. eauto using run.
  - apply IH1 in H as (st1 & H1 & H).
    apply IH2 in H as (st2 & H2 & H). eauto using run.
  - unfold orElse in H. destruct (matcher r1 k st) eqn:E.
    + injection H as ->. apply IH1 in E as (st' & ? & ?). eauto using run.
    + apply IH2 in H as (st' & ? & ?). eauto using run.
  - revert H. generalize (length (rest st)) as fuel. intros fuel.
    revert st. induction fuel as [|fuel IHf]; intros st H; simpl in H.
    + eauto using run.
    + unfold orElse in H.
      match type of H with
      | match ?m with _ => _ end = _ => destruct m eqn:E
      end.
      * injection H as ->. apply IH in E as (st1 & H1 & E).
        destruct (Nat.ltb_spec (pos st) (pos st1)); [|done].
        apply IHf in E as (st2 & H2 & E). eauto using run.
      * eauto using run.
  - apply IH in H as (st' & H1 & H). eexists. split; [|exact H].
    apply (run_Grp n r st st' H1).
  - destruct (prev st) eqn:E; [done|]. eauto using run.
  - destruct (atWordBoundary st) eqn:E; [|done]. eauto using run.
Qed.

Lemma run_caps_length r st st' :
  run r st st' -> length (caps st') = length (caps st).
Proof.
  induction 1 as [ |c st st' E|p x st st' E _| | | | | |n r st st' _ IH| | ];
    try done; try congruence.
  - by apply advance_inv in E as (_ & _ & _ & ->).
  - by apply advance_inv in E as (_ & _ & _ & ->).
  - simpl. by rewrite length_insert.
Qed.

Lemma run_pos_le r st st' : run r st st' -> pos st <= pos st'.
Proof.
  induction 1 as [ |c st st' E|p x st st' E _| | | | | | | | ];
    simpl; try lia.
  - apply advance_inv in E as (_ & -> & _). lia.
  - apply advance_inv in E as (_ & -> & _). lia.
Qed.

Lemma run_Seq_inv r1 r2 st st' :
  run (Seq r1 r2) st st' -> exists st1, run r1 st st1 /\ run r2 st1 st'.
Proof. inversion 1; subst; eauto. Qed.

Lemma run_Eps_inv st st' : run Eps st st' -> st' = st.
Proof. by inversion 1. Qed.

(** A group around [r+] captures at least one code unit. *)
Lemma run_Grp_Plus_captures n p st st' :
  n < length (caps st) ->
  run (Grp n (Plus (Cls p))) st st' ->
  exists x v, caps st' !! n = Some (Some (x :: v)) /\ p x = true.
Proof.
  intros Hn H. inversion H as [ | | | | | | | |n' r' st0 st1 H1| | ]; subst.
  pose proof (run_caps_length _ _ _ H1) as Hlen.
  apply run_Seq_inv in H1 as (m & Hm & Hstar).
  apply run_pos_le in Hstar.
  inversion Hm as [ | |p' x st0 m' E Hp| | | | | | | | ]; subst.
  apply advance_inv in E as (Hrest & Hpos & _).
  unfold consumed. rewrite Hrest.
  destruct (pos st1 - pos st) as [|d] eqn:Hd; [exfalso; lia|].
  simpl. exists x, (take d (rest m)). split; [|done].
  apply list_lookup_insert_eq. lia.
Qed.

Lemma search_Some r n p s idx mr :
  search r n p s idx = Some mr ->
  exists p' s' idx', matchAt r n p' s' idx' = Some mr.
Proof.
  revert p idx. induction s as [|x s IH]; intros p idx; simpl.
  - destruct (matchAt r n p [] idx) eqn:E; [|done]. intros [= <-]. eauto.
  - destruct (matchAt r n p (x :: s) idx) eqn:E; [intros [= <-]; eauto|].
    apply IH.
Qed.

Lemma matchAt_Some r n p s idx mr :
  matchAt r n p s idx = Some mr ->
  exists st',
    run r (MState idx p s (replicate (S n) None)) st' /\
    index mr = idx /\ endIndex mr = pos st' /\
    groups mr =
      <[0 := Some (consumed (MState idx p s (replicate (S n) None)) st')]>
        (caps st').
Proof.
  unfold matchAt.
  destruct (matcher r Some _) as [st'|] eqn:E; [|done]. intros [= <-].
  apply matcher_sound in E as (st2 & Hrun & [= ->]). eauto.
Qed.

(** What a field pattern captures is never empty: [(.+)] takes at least one
    code unit, none of them a line terminator at its start. *)
Lemma setFieldExpr_captures key s mr :
  fst (exec (setFieldExpr key) s) = Some mr ->
  exists x v, group 1 mr = Some (x :: v) /\ isDot x = true.
Proof.
  unfold exec. simpl. intros H.
  apply search_Some in H as (p & s' & idx & H).
  apply matchAt_Some in H as (st' & Hrun & _ & _ & Hg).
  change (source (setFieldExpr key))
    with (Seq (Lit "set") (Seq (Plus ws) (Seq (Lit key) (Seq (Plus ws)
            (Seq (Grp 1 (Plus dot)) Eps))))) in Hrun.
  apply run_Seq_inv in Hrun as (s1 & H1 & Hrun).
  apply run_Seq_inv in Hrun as (s2 & H2 & Hrun).
  apply run_Seq_inv in Hrun as (s3 & H3 & Hrun).
  apply run_Seq_inv in Hrun as (s4 & H4 & Hrun).
  apply run_Seq_inv in Hrun as (s5 & H5 & Hrun).
  apply run_Eps_inv in Hrun as ->.
  assert (length (caps s4) = 2) as Hlen.
  { rewrite (run_caps_length _ _ _ H4), (run_caps_length _ _ _ H3),
      (run_caps_length _ _ _ H2), (run_caps_length _ _ _ H1). done. }
  apply run_Grp_Plus_captures in H5 as (x & v & Hc & Hx); [|lia].
  exists x, v. split; [|done].
  unfold group. rewrite Hg, list_lookup_insert_ne by done. by rewrite Hc.
Qed.

Lemma execField_cases key section :
  execField key section = JNull \/
  exists x v, execField key section = JString (x :: v) /\ isDot x = true.
Proof.
  unfold execField.
  destruct (fst (exec (setFieldExpr key) (toString section))) as [mr|] eqn:E.
  - right. apply setFieldExpr_captures in E as (x & v & Hg & Hx).
    exists x, v. simpl. by rewrite Hg.
  - by left.
Qed.

(** A field is truthy exactly when its pattern matched. *)
Lemma truthy_execField key section :
  truthy (execField key section) =
  test (setFieldExpr key) (toString section).
Proof.
  unfold execField, test.
  destruct (fst (exec (setFieldExpr key) (toString section))) as [mr|] eqn:E;
    [|done].
  apply setFieldExpr_captures in E as (x & v & Hg & _). simpl.
  by rewrite Hg.
Qed.

(** ** The matcher finds what the relation allows *)

Lemma run_conserve r st st' :
  run r st st' -> pos st' + length (rest st') = pos st + length (rest st).
Proof.
  induction 1 as [ |c st st' E|p x st st' E _| | | | | | | | ];
    simpl; try lia.
  - apply advance_inv in E as (-> & -> & _). simpl. lia.
  - apply advance_inv in E as (-> & -> & _). simpl. lia.
Qed.

Lemma starLoop_round r k fuel st st1 :
  (forall k' res', k' st1 = Some res' -> is_Some (matcher r k' st)) ->
  pos st < pos st1 ->
  is_Some (starLoop (matcher r) k fuel st1) ->
  is_Some (starLoop (matcher r) k (S fuel) st).
Proof.
  intros Hr Hlt [res' Hloop]. simpl.
  destruct (Hr (fun st' =>
                  if pos st <? pos st'
                  then starLoop (matcher r) k fuel st' else None) res')
    as [res'' ->].
  - destruct (Nat.ltb_spec (pos st) (pos st1)); [done|lia].
  - by eexists.
Qed.

(** Whatever end state the relation allows and the continuation accepts,
    the matcher comes back with a result: that one or one of higher
    priority.  For a star this holds with any fuel from [length (rest st)]
    on. *)
Lemma matcher_complete_fuel r st st' :
  run r st st' ->
  forall k res, k st' = Some res ->
    is_Some (matcher r k st) /\
    (forall r0, r = Star r0 ->
       forall fuel, length (rest st) <= fuel ->
         is_Some (starLoop (matcher r0) k fuel st)).
Proof.
  induction 1 as [st|c st st' E|p x st st' E Hp
                  |r1 r2 st st1 st2 H1 IH1 H2 IH2
                  |r1 r2 st st' H IH|r1 r2 st st' H IH
                  |r st|r st st1 st2 H1 IH1 Hlt H2 IH2
                  |n r st st' H IH|st Hb|st Hb];
    intros k res Hk; (split; [|try done]); simpl.
  - eauto.
  - rewrite E, N.eqb_refl. eauto.
  - rewrite E, Hp. eauto.
  - destruct (IH2 k res Hk) as [[res2 E2] _].
    by destruct (IH1 (matcher r2 k) res2 E2) as [? _].
  - destruct (IH k res Hk) as [[res1 ->] _]. by eexists.
  - destruct (IH k res Hk) as [[res1 E1] _].
    destruct (matcher r1 k st); [by eexists|]. simpl. by eexists.
  - destruct (length (rest st)) as [|fuel]; simpl; [eauto|].
    destruct (matcher r _ st); [by eexists|]. simpl. eauto.
  - intros r0 [= <-] [|fuel] _; simpl; [eauto|].
    destruct (matcher r _ st); [by eexists|]. simpl. eauto.
  - pose proof (run_conserve _ _ _ H1) as Hc.
    destruct (length (rest st)) as [|fuel] eqn:El; [lia|].
    apply (starLoop_round r k fuel st st1); [|done|].
    + intros k' res' Hk'. by destruct (IH1 k' res' Hk').
    + destruct (IH2 k res Hk) as [_ Hs]. apply (Hs r eq_refl). lia.
  - intros r0 [= <-] fuel Hfuel.
    pose proof (run_conserve _ _ _ H1) as Hc.
    destruct fuel as [|fuel]; [lia|].
    apply (starLoop_round r k fuel st st1); [|done|].
    + intros k' res' Hk'. by destruct (IH1 k' res' Hk').
    + destruct (IH2 k res Hk) as [_ Hs]. apply (Hs r eq_refl). lia.
  - apply (IH _ res). exact Hk.
  - rewrite Hb. eauto.
  - rewrite Hb. eauto.
Qed.

Lemma matcher_complete r st st' k res :
  run r st st' -> k st' = Some res -> is_Some (matcher r k st).
Proof.
  intros H Hk. by destruct (matcher_complete_fuel r st st' H k res Hk).
Qed.

(** [search] finds a match as soon as some position has one. *)
Lemma search_complete r n pre : forall p s idx,
  is_Some (matchAt r n (prevAfter pre p) s (idx + length pre)) ->
  is_Some (search r n p (pre ++ s) idx).
Proof.
  induction pre as [|x pre IH]; intros p s idx H; simpl in *.
  - rewrite Nat.add_0_r in H. destruct H as [mr H].
    destruct s; simpl; rewrite H; by eexists.
  - destruct (matchAt r n p (x :: pre ++ s) idx); [by eexists|].
    apply IH. by rewrite Nat.add_succ_r in H.
Qed.

Lemma search_Some_suffix r n p s idx mr :
  search r n p s idx = Some mr ->
  exists pre s',
    s = pre ++ s' /\
    matchAt r n (prevAfter pre p) s' (idx + length pre) = Some mr.
Proof.
  revert p idx. induction s as [|x s IH]; intros p idx; simpl.
  - destruct (matchAt r n p [] idx) eqn:E; [|done]. intros [= <-].
    exists [], []. by rewrite Nat.add_0_r.
  - destruct (matchAt r n p (x :: s) idx) eqn:E.
    + intros [= <-]. exists [], (x :: s). by rewrite Nat.add_0_r.
    + intros (pre & s' & -> & H)%IH. exists (x :: pre), s'.
      split; [done|]. simpl. by rewrite Nat.add_succ_r.
Qed.

(** ** Patterns without assertions match inside a longer text *)

Lemma run_shifted r st st' d post t :
  assertionFree r = true ->
  run r st st' -> shifted d post st t ->
  exists t', run r t t' /\ shifted d post st' t'.
Proof.
  intros Haf H. revert t.
  induction H as [st|c st st' E|p x st st' E Hp
                  |r1 r2 st st1 st2 H1 IH1 H2 IH2
                  |r1 r2 st st' H IH|r1 r2 st st' H IH
                  |r st|r st st1 st2 H1 IH1 Hlt H2 IH2
                  |n r st st' H IH|st Hb|st Hb];
    intros t Ht; simpl in Haf; try done.
  - eauto using run.
  - apply advance_inv in E as (Hr & Hp' & _ & Hc).
    destruct Ht as (Ht1 & Ht2 & Ht3).
    exists (MState (S (pos t)) (Some c) (rest st' ++ post) (caps t)).
    split.
    + apply run_Chr. unfold advance. by rewrite Ht2, Hr.
    + unfold shifted. simpl. rewrite Hp', Ht1, Ht3, Hc. done.
  - apply advance_inv in E as (Hr & Hp' & _ & Hc).
    destruct Ht as (Ht1 & Ht2 & Ht3).
    exists (MState (S (pos t)) (Some x) (rest st' ++ post) (caps t)).
    split.
    + apply (run_Cls p x); [|done]. unfold advance. by rewrite Ht2, Hr.
    + unfold shifted. simpl. rewrite Hp', Ht1, Ht3, Hc. done.
  - apply andb_prop in Haf as [Ha1 Ha2].
    destruct (IH1 Ha1 t Ht) as (t1 & Hr1 & Ht1).
    destruct (IH2 Ha2 t1 Ht1) as (t2 & Hr2 & Ht2). eauto using run.
  - apply andb_prop in Haf as [Ha1 Ha2].
    destruct (IH Ha1 t Ht) as (t' & ? & ?). eauto using run.
  - apply andb_prop in Haf as [Ha1 Ha2].
    destruct (IH Ha2 t Ht) as (t' & ? & ?). eauto using run.
  - eauto using run.
  - destruct (IH1 Haf t Ht) as (t1 & Hr1 & Ht1).
    destruct (IH2 Haf t1 Ht1) as (t2 & Hr2 & Ht2).
    exists t2. split; [|done].
    apply (run_Star_more r t t1 t2); [done| |done].
    destruct Ht as (-> & _), Ht1 as (-> & _). lia.
  - destruct (IH Haf t Ht) as (t' & Hr & Ht').
    exists (setCapture n (consumed t t') t'). split; [by apply run_Grp|].
    destruct Ht as (Hp1 & Hr1 & Hc1), Ht' as (Hp2 & Hr2 & Hc2).
    unfold shifted, setCapture, consumed. simpl.
    rewrite Hp1, Hp2, Hr1, Hc2. split; [done|]. split; [done|].
    do 2 f_equal.
    replace (pos st' + d - (pos st + d)) with (pos st' - pos st) by lia.
    apply take_app_le.
    pose proof (run_conserve _ _ _ H). pose proof (run_pos_le _ _ _ H). lia.
Qed.

(** A pattern without assertions and without the [g] flag that matches
    somewhere in [s] matches somewhere in every text around [s]. *)
Lemma test_substring rx pre s post :
  global rx = false -> assertionFree (source rx) = true ->
  test rx s = true -> test rx (pre ++ s ++ post) = true.
Proof.
  intros Hg Haf. unfold test, exec. rewrite Hg. simpl.
  destruct (search _ _ None s 0) as [mr|] eqn:E; [intros _|done].
  apply search_Some_suffix in E as (pre1 & s' & -> & E).
  apply matchAt_Some in E as (st' & Hrun & _).
  set (t := MState (length (pre ++ pre1)) (prevAfter (pre ++ pre1) None)
              (s' ++ post) (replicate (S (ngroups rx)) None)).
  destruct (run_shifted _ _ _ (length pre) post t Haf Hrun)
    as (t' & Hrun' & _).
  { unfold shifted, t. simpl. rewrite length_app. split; [lia|done]. }
  destruct (matcher_complete _ _ _ Some t' Hrun' eq_refl) as [res Hres].
  destruct (search_complete (source rx) (ngroups rx) (pre ++ pre1) None
              (s' ++ post) 0) as [mr' Hmr].
  { unfold matchAt. rewrite Nat.add_0_l. fold t. rewrite Hres. by eexists. }
  rewrite <- !(assoc_L (++)) in Hmr |- *. by rewrite Hmr.
Qed.

(** ** Captures are pieces of the input *)

Lemma run_rest_suffix r st st' : run r st st' -> rest st' `suffix_of` rest st.
Proof.
  induction 1 as [ |c st st' E|p x st st' E _| | | | | | | | ]; try done.
  - apply advance_inv in E as (-> & _). by apply suffix_cons_r.
  - apply advance_inv in E as (-> & _). by apply suffix_cons_r.
  - by etrans.
  - by etrans.
Qed.

Lemma run_capsWithin s r st st' :
  run r st st' -> rest st `suffix_of` s -> capsWithin s st ->
  capsWithin s st'.
Proof.
  induction 1 as [ |c st st' E|p x st st' E _
                   |r1 r2 st st1 st2 H1 IH1 H2 IH2| |
                   | |r st st1 st2 H1 IH1 Hlt H2 IH2
                   |n r st st' H IH| | ];
    intros Hs Hc; try done; try by auto.
  - apply advance_inv in E as (_ & _ & _ & E). unfold capsWithin.
    by rewrite E.
  - apply advance_inv in E as (_ & _ & _ & E). unfold capsWithin.
    by rewrite E.
  - apply IH2; [|by auto]. etrans; [|exact Hs]. by eapply run_rest_suffix.
  - apply IH2; [|by auto]. etrans; [|exact Hs]. by eapply run_rest_suffix.
  - intros m v. simpl. destruct (decide (n = m)) as [<-|Hne].
    + intros Hl. destruct (decide (n < length (caps st'))) as [Hlt|Hge].
      * rewrite list_lookup_insert_eq in Hl by done. injection Hl as <-.
        destruct Hs as [a ->]. unfold consumed.
        exists a, (drop (pos st' - pos st) (rest st)).
        by rewrite take_drop.
      * rewrite list_insert_ge in Hl by lia. by apply (IH Hs Hc n v).
    + rewrite list_lookup_insert_ne by done. by apply IH.
Qed.

(** What [m && m[1]] gives for a pattern without the [g] flag is a piece of
    the text that was searched. *)
Lemma firstGroup_within rx s sec :
  global rx = false ->
  firstGroup (fst (exec rx s)) = JString sec ->
  exists pre post, s = pre ++ sec ++ post.
Proof.
  intros Hg. unfold exec. rewrite Hg. simpl.
  destruct (search _ _ None s 0) as [mr|] eqn:E; [|done]. simpl.
  apply search_Some_suffix in E as (pre1 & s' & -> & E).
  apply matchAt_Some in E as (st' & Hrun & _ & _ & Hgr).
  unfold group. rewrite Hgr, list_lookup_insert_ne by done.
  destruct (caps st' !! 1) as [[v|]|] eqn:El; simpl; try done.
  intros [= <-].
  apply (run_capsWithin (pre1 ++ s') _ _ _ Hrun) in El; [done| |].
  - by apply suffix_app_r.
  - intros n w. cbn [caps]. intros Hl.
    apply lookup_replicate in Hl as [? _]. done.
Qed.

(** A field pattern that finds nothing in the whole base config finds
    nothing in the section either. *)
Lemma test_section key i j baseConfig :
  test (setFieldExpr key) baseConfig = false ->
  test (setFieldExpr key)
    (toString (fst (autoScaleSectionOf (moduleLoaded i j) baseConfig)))
  = false.
Proof.
  intros Hbase. unfold autoScaleSectionOf.
  destruct (exec (sectionExpr (moduleLoaded i j)) baseConfig)
    as [m rx] eqn:E. simpl.
  destruct (firstGroup m) as [| |sec] eqn:Hm; [by vm_compute..|].
  assert (m = fst (exec (sectionExpr (moduleLoaded i j)) baseConfig)) as ->
    by by rewrite E.
  apply firstGroup_within in Hm as (pre & post & ->); [|done].
  simpl. destruct (test (setFieldExpr key) sec) eqn:Ht; [|done].
  rewrite (test_substring (setFieldExpr key) pre sec post) in Hbase; try done.
  simpl. unfold Lit, Cat. clear.
  induction (js key) as [|c l IH]; [done|]. simpl. exact IH.
Qed.

(** ** The loop of [replace] ends within its fuel *)

Lemma matchAt_bounds r n p s idx mr :
  matchAt r n p s idx = Some mr ->
  index mr = idx /\ idx <= endIndex mr <= idx + length s /\
  (matched mr = [] <-> endIndex mr = index mr).
Proof.
  intros (st' & Hrun & Hi & He & Hg)%matchAt_Some.
  pose proof (run_pos_le _ _ _ Hrun) as Hle.
  pose proof (run_conserve _ _ _ Hrun) as Hc.
  pose proof (run_caps_length _ _ _ Hrun) as Hl.
  simpl in Hle, Hc, Hl. rewrite length_replicate in Hl.
  split; [done|]. split; [lia|].
  unfold matched. rewrite Hg, list_lookup_insert_eq by lia. simpl.
  unfold consumed. simpl. rewrite Hi, He.
  destruct s as [|x s]; simpl in *.
  - rewrite take_nil. split; [lia|done].
  - destruct (pos st' - idx) as [|d] eqn:Ed; simpl; split; try done; lia.
Qed.

Lemma search_bounds r n p s idx mr :
  search r n p s idx = Some mr ->
  idx <= index mr /\ index mr <= endIndex mr <= idx + length s /\
  (matched mr = [] <-> endIndex mr = index mr).
Proof.
  intros (pre & s' & -> & H)%search_Some_suffix.
  apply matchAt_bounds in H as (Hi & He & Hm).
  rewrite length_app. split; [lia|]. split; [lia|done].
Qed.

(** With the [g] flag, a match lies at or behind [lastIndex] and inside the
    text, and [lastIndex] moves to its end. *)
Lemma exec_global_Some rx s mr rx' :
  global rx = true ->
  exec rx s = (Some mr, rx') ->
  lastIndex rx <= index mr /\ index mr <= endIndex mr <= length s /\
  (matched mr = [] <-> endIndex mr = index mr) /\
  rx' = setLastIndex (endIndex mr) rx.
Proof.
  intros Hg. unfold exec. rewrite Hg.
  destruct (Nat.ltb_spec (length s) (lastIndex rx)) as [|Hle]; [done|].
  destruct (search _ _ _ _ _) as [mr'|] eqn:E; [|done].
  intros [= -> <-]. apply search_bounds in E as (H1 & H2 & H3).
  rewrite length_drop in H2. split; [lia|]. split; [lia|]. by split.
Qed.

Lemma exec_global_beyond rx s :
  global rx = true -> length s < lastIndex rx ->
  exec rx s = (None, setLastIndex 0 rx).
Proof.
  intros Hg Hlt. unfold exec. rewrite Hg.
  by destruct (Nat.ltb_spec (length s) (lastIndex rx)); [|lia].
Qed.

Lemma collect_S fuel rx s :
  collect (S fuel) rx s =
  match exec rx s with
  | (None, rx') => ([], rx')
  | (Some mr, rx') =>
      if global rx' then
        let rx'' :=
          match matched mr with
          | [] => setLastIndex (S (lastIndex rx')) rx'
          | _ :: _ => rx'
          end in
        let '(ms, rxf) := collect fuel rx'' s in (mr :: ms, rxf)
      else ([mr], rx')
  end.
Proof. done. Qed.

(** Every round moves [lastIndex] on, so the loop is over after at most
    [length s + 2 - lastIndex] rounds: fuel beyond that changes nothing. *)
Lemma collect_fuel_enough s fuel : forall rx,
  global rx = true ->
  1 <= fuel -> length s + 2 - lastIndex rx <= fuel ->
  collect (S fuel) rx s = collect fuel rx s.
Proof.
  induction fuel as [|fuel IH]; intros rx Hg Hpos Hfuel; [lia|].
  rewrite (collect_S (S fuel) rx s), (collect_S fuel rx s).
  destruct (exec rx s) as [[mr|] rx'] eqn:E; [|done].
  apply exec_global_Some in E as (H1 & H2 & H3 & ->); [|done].
  cbn [global setLastIndex]. rewrite Hg. cbv zeta.
  rewrite IH; [done| | |].
  - by destruct (matched mr).
  - lia.
  - destruct (matched mr) as [|x m] eqn:Em; simpl.
    + lia.
    + assert (endIndex mr <> index mr) by (rewrite <- H3; done). lia.
Qed.

Lemma replace_fuel_enough s rx k :
  global rx = true ->
  collect (length s + 2 + k) (setLastIndex 0 rx) s =
  collect (length s + 2) (setLastIndex 0 rx) s.
Proof.
  intros Hg. induction k as [|k IH]; [by rewrite Nat.add_0_r|].
  rewrite Nat.add_succ_r, collect_fuel_enough; [done|done|lia|simpl; lia].
Qed.

(** ** [replace]: its first substitution, and literal patterns *)

Lemma includes_app_l n a b : includes n a = true -> includes n (a ++ b) = true.
Proof.
  assert (forall a b, startsWith n a = true -> startsWith n (a ++ b) = true)
    as Hsw.
  { clear. induction n as [|c n IH]; intros [|x a] b; simpl; try done.
    intros [-> H]%andb_prop. by rewrite (IH _ _ H). }
  induction a as [|x a IH]; simpl.
  - rewrite orb_false_r. destruct n; [|done]. intros _. by destruct b.
  - intros [H|H]%orb_prop.
    + change (startsWith n ((x :: a) ++ b) || includes n (a ++ b) = true).
      by rewrite (Hsw (x :: a) b H).
    + rewrite (IH H). apply orb_true_r.
Qed.

(** With the [g] flag, the text up to the first match is kept and the match
    gives way to its substitution; when no match starts right behind it,
    the next code unit of the text follows. *)
Lemma replace_first s rx repl mr c behind :
  global rx = true ->
  fst (exec (setLastIndex 0 rx) s) = Some mr ->
  matched mr <> [] ->
  drop (endIndex mr) s = c :: behind ->
  matchAt (source rx) (ngroups rx) (s !! pred (endIndex mr)) (c :: behind)
    (endIndex mr) = None ->
  exists tail,
    fst (replace s rx repl) =
    take (index mr) s ++ getSubstitution mr s repl ++ c :: tail.
Proof.
  intros Hg He Hm Hdrop Hnone. unfold replace. rewrite Hg.
  replace (length s + 2) with (S (S (length s))) by lia.
  rewrite collect_S.
  destruct (exec (setLastIndex 0 rx) s) as [o rx1] eqn:E1.
  simpl in He. subst o.
  apply exec_global_Some in E1 as (_ & Hb & Hmt & ->); [|done].
  cbn [global setLastIndex]. rewrite Hg.
  destruct (matched mr) as [|x m] eqn:Em; [done|]. cbv zeta.
  destruct (collect (S (length s)) _ s) as [ms rxf] eqn:E2.
  cbn [fst assemble]. rewrite Nat.sub_0_r, drop_0. cbn [Nat.leb].
  do 2 f_equal.
  rewrite collect_S in E2.
  destruct (exec _ s) as [[mr2|] rx2] eqn:E3.
  - revert E3. unfold exec. cbn [global setLastIndex lastIndex source ngroups].
    rewrite Hg.
    destruct (Nat.ltb_spec (length s) (endIndex mr)) as [|_]; [done|].
    rewrite Hdrop.
    assert (endIndex mr <> 0) as Hne.
    { intros H0. assert (endIndex mr = index mr) as Heq by lia.
      apply Hmt in Heq. congruence. }
    destruct (endIndex mr) as [|e] eqn:Ee; [done|].
    cbn [search]. simpl in Hnone. rewrite Hnone.
    destruct (search _ _ _ behind (S (S e))) as [mr2'|] eqn:Es; [|done].
    intros [= -> <-]. apply search_bounds in Es as (Hi & _).
    cbn [global setLastIndex] in E2. rewrite Hg in E2.
    destruct (collect _ _ s) as [ms' rxf']. injection E2 as <- <-.
    cbn [assemble].
    destruct (Nat.leb_spec (S e) (index mr2)) as [_|]; [|lia].
    rewrite Hdrop.
    destruct (index mr2 - S e) as [|d] eqn:Ed; [lia|]. simpl. by eexists.
  - injection E2 as <- <-. simpl. rewrite Hdrop. by eexists.
Qed.

Lemma getSubstitution_plain mr str repl :
  36%N ∉ repl -> getSubstitution mr str repl = repl.
Proof.
  induction repl as [|c repl IH]; [done|].
  intros [Hc Hr]%not_elem_of_cons. simpl.
  destruct (N.eqb_spec c 36) as [->|_]; [done|]. simpl. by rewrite IH.
Qed.

Lemma matcher_literal chars k st :
  matcher (Cat (Chr <$> chars)) k st =
  if startsWith chars (rest st)
  then k (MState (pos st + length chars)
            (prevAfter chars (prev st))
            (drop (length chars) (rest st)) (caps st))
  else None.
Proof.
  revert st. induction chars as [|c chars IH]; intros [i p s cs]; simpl.
  - by rewrite Nat.add_0_r.
  - unfold advance. simpl. destruct s as [|x s]; [done|].
    rewrite (N.eqb_sym c x). destruct (N.eqb x c) eqn:E; [|done].
    apply N.eqb_eq in E. subst x. simpl. rewrite IH. simpl.
    destruct (startsWith chars s); [|done].
    by rewrite Nat.add_succ_r.
Qed.

Lemma startsWith_take chars s :
  startsWith chars s = true -> take (length chars) s = chars.
Proof.
  revert s. induction chars as [|c chars IH]; intros [|x s]; simpl; try done.
  intros [E H]%andb_prop. apply N.eqb_eq in E. subst x. by rewrite IH.
Qed.

Lemma matchAt_literal chars n p s idx :
  matchAt (Cat (Chr <$> chars)) n p s idx =
  if startsWith chars s
  then Some (MatchResult idx (idx + length chars)
               (Some chars :: replicate n None))
  else None.
Proof.
  unfold matchAt. rewrite matcher_literal. simpl.
  destruct (startsWith chars s) eqn:E; [|done].
  unfold consumed. simpl.
  replace (idx + length chars - idx) with (length chars) by lia.
  by rewrite startsWith_take.
Qed.

(** [replace] with a literal pattern and a text without [$] is plain
    substitution of the first occurrence. *)
Lemma replace_literal chars n s text :
  36%N ∉ text ->
  fst (replace s (MkRegExp (Cat (Chr <$> chars)) n false 0) text) =
  substituteFirst chars text s.
Proof.
  intros Htext. unfold replace. simpl.
  replace (length s + 2) with (S (length s + 1)) by lia.
  cbn [collect]. unfold exec. simpl.
  assert (forall p idx pre,
    idx = length pre ->
    assemble
      (match search (Cat (Chr <$> chars)) n p s idx with
       | Some mr => ([mr], MkRegExp (Cat (Chr <$> chars)) n false 0)
       | None => ([], MkRegExp (Cat (Chr <$> chars)) n false 0)
       end).1 (pre ++ s) text 0 = pre ++ substituteFirst chars text s) as H.
  { induction s as [|x s IH]; intros p idx pre ->.
    - simpl. rewrite matchAt_literal.
      destruct chars as [|c chars]; simpl.
      + rewrite Nat.sub_0_r, Nat.add_0_r, !app_nil_r.
        rewrite drop_0, firstn_all, drop_all.
        by rewrite getSubstitution_plain, !app_nil_r.
      + done.
    - cbn [search substituteFirst]. rewrite matchAt_literal.
      destruct (startsWith chars (x :: s)) eqn:E.
      + simpl. rewrite Nat.sub_0_r, getSubstitution_plain by done.
        rewrite drop_0, take_app_length, drop_app_add'; done.
      + specialize (IH (Some x) (S (length pre)) (pre ++ [x])).
        rewrite <- !(assoc_L (++)) in IH. simpl in IH. rewrite IH; [done|].
        rewrite length_app. simpl. lia. }
  destruct (search _ _ _ _ _) as [mr|] eqn:E.
  - specialize (H None 0 [] eq_refl). rewrite E in H. done.
  - specialize (H None 0 [] eq_refl). rewrite E in H. done.
Qed.

(** ** JSON text read back *)

Lemma hexValue_hexDigit d : (d < 16)%N -> hexValue (hexDigit d) = Some d.
Proof.
  intros Hd.
  assert (d ∈ N.of_nat <$> seq 0 16) as Hin.
  { apply list_elem_of_fmap. exists (N.to_nat d).
    split; [by rewrite N2Nat.id|]. apply list_elem_of_In, in_seq. lia. }
  simpl in Hin. repeat (apply elem_of_cons in Hin as [->|Hin]; [done|]).
  by apply elem_of_nil in Hin.
Qed.

Lemma hex4_unicodeEscape c :
  (c < 65536)%N ->
  hex4 (hexDigit (c / 4096 mod 16)) (hexDigit (c / 256 mod 16))
    (hexDigit (c / 16 mod 16)) (hexDigit (c mod 16)) = Some c.
Proof.
  intros Hc. unfold hex4.
  rewrite !hexValue_hexDigit by (by apply N.mod_lt). simpl. f_equal.
  pose proof (N.Div0.div_mod c 16) as E1.
  pose proof (N.Div0.div_mod (c / 16) 16) as E2.
  pose proof (N.Div0.div_mod (c / 256) 16) as E3.
  rewrite N.Div0.div_div in E2. rewrite N.Div0.div_div in E3.
  change (16 * 16)%N with 256%N in E2. change (256 * 16)%N with 4096%N in E3.
  assert (c / 4096 < 16)%N as Hq
    by (apply N.Div0.div_lt_upper_bound; lia).
  rewrite (N.mod_small (c / 4096) 16 Hq). lia.
Qed.

Lemma parse_unicodeEscape c t v r :
  (c < 65536)%N ->
  parseJSONChars t = Some (v, r) ->
  parseJSONChars (unicodeEscape c ++ t) = Some (c :: v, r).
Proof.
  intros Hc Ht. unfold unicodeEscape.
  cbn [app parseJSONChars N.eqb Pos.eqb N.ltb N.compare Pos.compare
       Pos.compare_cont].
  rewrite (hex4_unicodeEscape c Hc). simpl. by rewrite Ht.
Qed.

Lemma inRange_spec lo hi c :
  inRange lo hi c = true <-> (lo <= c /\ c <= hi)%N.
Proof. unfold inRange. by rewrite andb_true_iff, !N.leb_le. Qed.

Lemma surrogate_below c :
  isLeadingSurrogate c || isTrailingSurrogate c = true -> (c < 65536)%N.
Proof.
  unfold isLeadingSurrogate, isTrailingSurrogate.
  rewrite orb_true_iff, !inRange_spec. lia.
Qed.

Lemma parse_plain c t v r :
  N.eqb c 34 = false -> N.eqb c 92 = false -> N.ltb c 32 = false ->
  parseJSONChars t = Some (v, r) ->
  parseJSONChars (c :: t) = Some (c :: v, r).
Proof. intros H1 H2 H3 Ht. simpl. by rewrite H1, H2, H3, Ht. Qed.

(** A string that [quoteJSONString] wrote reads back as it was. *)
Lemma parseJSONChars_quote n : forall s r,
  length s <= n ->
  parseJSONChars (quoteJSONChars s ++ 34%N :: r) = Some (s, r).
Proof.
  induction n as [|n IH]; intros [|c t] r Hn; simpl in Hn; try done;
    try lia.
  assert (forall t', length t' <= n ->
            parseJSONChars (quoteJSONChars t' ++ 34%N :: r) = Some (t', r))
    as IH' by (intros; by apply IH).
  assert (length t <= n) as Ht by lia.
  cbn [quoteJSONChars].
  repeat
    match goal with
    | |- context [if N.eqb c ?k then _ else _] =>
        destruct (N.eqb_spec c k) as [->|?];
        [rewrite <- (assoc_L (++)); simpl; by rewrite (IH' t Ht)|]
    end.
  destruct (N.ltb c 32) eqn:Hlt.
  { rewrite <- (assoc_L (++)). apply parse_unicodeEscape; [|by apply IH'].
    apply N.ltb_lt in Hlt. lia. }
  assert (N.eqb c 34 = false) as H34 by by apply N.eqb_neq.
  assert (N.eqb c 92 = false) as H92 by by apply N.eqb_neq.
  destruct (isLeadingSurrogate c) eqn:Hlead.
  { assert (c < 65536)%N as Hc by (apply surrogate_below; by rewrite Hlead).
    destruct t as [|d t'].
    - cbn [app]. apply (parse_unicodeEscape c (34%N :: r) [] r Hc). done.
    - destruct (isTrailingSurrogate d) eqn:Htrail.
      + cbn [app]. apply parse_plain; try done. apply parse_plain.
        * apply inRange_spec in Htrail. apply N.eqb_neq. lia.
        * apply inRange_spec in Htrail. apply N.eqb_neq. lia.
        * apply inRange_spec in Htrail. apply N.ltb_ge. lia.
        * apply IH'. simpl in Ht. lia.
      + rewrite <- (assoc_L (++)). apply parse_unicodeEscape; [done|].
        by apply IH'. }
  destruct (isTrailingSurrogate c) eqn:Htrail.
  { rewrite <- (assoc_L (++)). apply parse_unicodeEscape; [|by apply IH'].
    apply surrogate_below. rewrite Htrail. apply orb_true_r. }
  cbn [app]. apply parse_plain; try done. by apply IH'.
Qed.

Lemma parseJSONString_quote s r :
  parseJSONString (quoteJSONString s ++ r) = Some (s, r).
Proof.
  unfold quoteJSONString. simpl. rewrite <- (assoc_L (++)).
  by apply (parseJSONChars_quote (length s)).
Qed.

(** An object with one string property reads back as that property. *)
Lemma JSON_parse_single key s :
  JSON_parse
    ([123%N] ++ quoteJSONString key ++ [58%N] ++ quoteJSONString s ++ [125%N])
  = Some [(key, JString s)].
Proof.
  unfold JSON_parse. cbn [app]. rewrite N.eqb_refl.
  set (t := quoteJSONString key ++ _).
  assert (parseJSONMembers (length t) t = Some [(key, JString s)]) as Hm.
  { assert (exists n, length t = S n) as [n ->].
    { unfold t, quoteJSONString. simpl. by eexists. }
    unfold t. cbn [parseJSONMembers].
    rewrite parseJSONString_quote. cbn [mbind option_bind app].
    rewrite N.eqb_refl. unfold parseJSONValue.
    change (startsWith (js "null") (quoteJSONString s ++ [125%N]))
      with false. cbv iota.
    rewrite parseJSONString_quote. cbn [mbind option_bind].
    by rewrite N.eqb_refl. }
  rewrite <- Hm. unfold t, quoteJSONString. cbn [app].
  by destruct (quoteJSONChars key ++ _).
Qed.

(** ** getSlaveConfig *)

Lemma startsWith_app p t : startsWith p (p ++ t) = true.
Proof. induction p as [|c p IH]; [done|]. simpl. by rewrite N.eqb_refl. Qed.

Section SlaveConfig.
Context {St V : Type}.
Implicit Types (this : AutoscaleHandler St V) (masterIp callbackUrl : jsval).

(** The section is found with a pattern that has no [g] flag: its
    [lastIndex] plays no part. *)
Lemma autoScaleSectionOf_lastIndex i j baseConfig :
  fst (autoScaleSectionOf (moduleLoaded i j) baseConfig) =
  fst (autoScaleSectionOf (moduleLoaded 0 0) baseConfig).
Proof. done. Qed.

(** What the caller of [getSlaveConfig] gets, without the bookkeeping of
    the RegExp objects. *)
Lemma getSlaveConfig_fst this masterIp callbackUrl i j :
  fst (getSlaveConfig this masterIp callbackUrl (moduleLoaded i j)) =
  let autoScaleSection :=
    fst (autoScaleSectionOf (moduleLoaded 0 0) (_baseConfig this)) in
  let syncInterface := execField "sync-interface" autoScaleSection in
  let pskSecret := execField "psksecret" autoScaleSection in
  let adminPort := execField "admin-sport" autoScaleSection in
  if truthy pskSecret && truthy callbackUrl && truthy masterIp
  then
    Normal
      (slaveConfigText
         (toString (if truthy syncInterface then syncInterface
                    else JString (js "port1")))
         (toString masterIp) (toString callbackUrl) (toString pskSecret)
         (toString (if truthy adminPort then adminPort
                    else JString (js "8443"))))
  else
    Throw (Error (invalidMessage syncInterface callbackUrl masterIp
                    pskSecret)).
Proof.
  unfold getSlaveConfig, autoScaleSectionOf. simpl.
  destruct (truthy (execField "psksecret" _)), (truthy callbackUrl),
    (truthy masterIp); simpl; try done.
  by destruct (replace _ _ _).
Qed.

(** C2.  [getSlaveConfig] throws the InvalidBaseConfig error exactly when
    [masterIp] is absent or empty, [callbackUrl] is absent or empty, or
    the psksecret pattern finds nothing in the section, as it must when it
    finds nothing in the base config at all; otherwise it returns the
    rendered config. *)
Theorem getSlaveConfig_validation this masterIp callbackUrl i j :
  let autoScaleSection :=
    fst (autoScaleSectionOf (moduleLoaded i j) (_baseConfig this)) in
  let result :=
    fst (getSlaveConfig this masterIp callbackUrl (moduleLoaded i j)) in
  let invalid :=
    exists e, result = Throw e /\ isInvalidBaseConfig e = true in
  (if truthy masterIp && truthy callbackUrl
      && test (setFieldExpr "psksecret") (toString autoScaleSection)
   then
     exists syncInterface pskSecret adminPort,
       result =
         Normal (slaveConfigText syncInterface (toString masterIp)
                   (toString callbackUrl) pskSecret adminPort) /\
       execField "psksecret" autoScaleSection = JString pskSecret
   else invalid) /\
  (test (setFieldExpr "psksecret") (_baseConfig this) = false -> invalid).
Proof.
  intros autoScaleSection result invalid.
  assert (if truthy masterIp && truthy callbackUrl
             && test (setFieldExpr "psksecret") (toString autoScaleSection)
          then
            exists syncInterface pskSecret adminPort,
              result =
                Normal (slaveConfigText syncInterface (toString masterIp)
                          (toString callbackUrl) pskSecret adminPort) /\
              execField "psksecret" autoScaleSection = JString pskSecret
          else invalid) as Hmain.
  { subst invalid result autoScaleSection.
    rewrite getSlaveConfig_fst, (autoScaleSectionOf_lastIndex i j). cbv zeta.
    set (sec := fst (autoScaleSectionOf _ _)).
    rewrite <- (truthy_execField "psksecret" sec).
    destruct (execField_cases "psksecret" sec) as [E|(x & v & E & _)];
      rewrite E; cbn [truthy].
    - rewrite !andb_false_r. cbn [andb]. eexists. split; [done|].
      apply startsWith_app.
    - destruct (truthy masterIp), (truthy callbackUrl); cbn [andb];
        try (eexists; split; [done|apply startsWith_app]).
      eauto 10. }
  split; [exact Hmain|]. intros Hbase.
  subst autoScaleSection. rewrite (test_section _ i j _ Hbase) in Hmain.
  by rewrite andb_false_r in Hmain.
Qed.

(** C7.  Two calls with the same base config and the same arguments end
    the same way, whatever the handlers' other fields are and whatever
    [lastIndex] earlier calls left in the module's RegExp objects. *)
Theorem getSlaveConfig_deterministic this1 this2 masterIp callbackUrl
    i1 j1 i2 j2 :
  _baseConfig this1 = _baseConfig this2 ->
  fst (getSlaveConfig this1 masterIp callbackUrl (moduleLoaded i1 j1)) =
  fst (getSlaveConfig this2 masterIp callbackUrl (moduleLoaded i2 j2)).
Proof. intros E. by rewrite !getSlaveConfig_fst, E. Qed.

End SlaveConfig.

(** A base config without any secret: the call ends with the error. *)
Lemma getSlaveConfig_validation_witness :
  let this : AutoscaleHandler unit unit :=
    newAutoscaleHandler (abstractCloudPlatform _ _)
      (jsLines ["config system auto-scale"; "    set status enable"; "end"])
  in
  test (setFieldExpr "psksecret") (_baseConfig this) = false /\
  exists e,
    fst (getSlaveConfig this (JString (js "10.0.0.5"))
           (JString (js "https://cb")) (moduleLoaded 0 0)) = Throw e /\
    isInvalidBaseConfig e = true.
Proof.
  intros this. split; [by vm_compute|].
  apply (getSlaveConfig_validation this (JString (js "10.0.0.5"))
           (JString (js "https://cb")) 0 0).
  by vm_compute.
Defined.

(** Two handlers that share the base config and nothing else, called with
    the module's RegExp objects in different states. *)
Lemma getSlaveConfig_deterministic_witness :
  let this1 : AutoscaleHandler unit unit :=
    newAutoscaleHandler (abstractCloudPlatform _ _) exampleBaseConfig in
  let this2 : AutoscaleHandler unit unit :=
    MkAutoscaleHandler (abstractCloudPlatform _ _) exampleBaseConfig
      (Normal JUndefined) in
  _baseConfig this1 = _baseConfig this2 /\
  fst (getSlaveConfig this1 (JString (js "10.0.0.5"))
         (JString (js "https://cb")) (moduleLoaded 0 0)) =
  fst (getSlaveConfig this2 (JString (js "10.0.0.5"))
         (JString (js "https://cb")) (moduleLoaded 3 7)).
Proof.
  intros this1 this2. split; [reflexivity|].
  apply (getSlaveConfig_deterministic this1 this2). reflexivity.
Defined.

(** C1.  The section pattern is greedy: its group runs to the last [end] of
    the text, not to the [end] that closes the auto-scale section.  On
    [vpnBaseConfig] the section between the header and the next bare [end]
    has no secret; the group takes in the VPN section behind it, and
    [getSlaveConfig] renders the VPN secret as the psksecret of the
    cluster. *)
Theorem getSlaveConfig_reads_past_section :
  let this : AutoscaleHandler unit unit :=
    newAutoscaleHandler (abstractCloudPlatform _ _) vpnBaseConfig in
  specAutoScaleSection vpnBaseConfig =
    Some [js "    set status enable"; js "    set sync-interface port3"] /\
  fst (autoScaleSectionOf (moduleLoaded 0 0) vpnBaseConfig) =
    JString
      (jsLines
         ["set status enable";
          "    set sync-interface port3";
          "end";
          "config vpn ipsec phase1-interface";
          "    edit vpn1";
          "        set psksecret vpnsecret";
          "    next";
          ""]) /\
  exists config,
    fst (getSlaveConfig this (JString (js "10.0.0.5"))
           (JString (js "https://cb")) (moduleLoaded 0 0)) = Normal config /\
    includes (configLine "set psksecret vpnsecret") config = true.
Proof.
  split; [by vm_compute|]. split; [by vm_compute|].
  eexists. split; [by vm_compute|]. by vm_compute.
Qed.

(** C4.  The default for the sync interface is lost to the same greedy
    group.  The auto-scale section of [haBaseConfig] has no
    [set sync-interface] line; the group takes in the section behind it,
    the field pattern finds the line of that section, and [getSlaveConfig]
    renders [port9] where the default [port1] is due.  The admin port,
    which no line of the base config sets, is the default. *)
Theorem getSlaveConfig_interface_past_section :
  let this : AutoscaleHandler unit unit :=
    newAutoscaleHandler (abstractCloudPlatform _ _) haBaseConfig in
  specAutoScaleSection haBaseConfig =
    Some [js "    set status enable"; js "    set psksecret abc123"] /\
  execField "sync-interface"
    (fst (autoScaleSectionOf (moduleLoaded 0 0) haBaseConfig)) =
    JString (js "port9") /\
  exists config,
    fst (getSlaveConfig this (JString (js "10.0.0.5"))
           (JString (js "https://cb")) (moduleLoaded 0 0)) = Normal config /\
    includes (configLine "set sync-interface port9") config = true /\
    includes (configLine "set sync-interface port1") config = false /\
    includes (configLine "set admin-sport 8443") config = true.
Proof.
  split; [by vm_compute|]. split; [by vm_compute|].
  eexists. split; [by vm_compute|]. by vm_compute.
Qed.

(** ** getMasterConfig *)

(** C5.  The callback url is handed to [replace] as a replacement string,
    in which [$&] stands for the matched text: a url with [$&] in it comes
    out with the placeholder put back in that place. *)
Theorem getMasterConfig_dollar_pattern :
  let this : AutoscaleHandler unit unit :=
    newAutoscaleHandler (abstractCloudPlatform _ _)
      (js "set callback-url ${CALLBACK_URL}") in
  getMasterConfig this (JString (js "https://cb/?a=$&b=1")) =
    Normal (js "set callback-url https://cb/?a=${CALLBACK_URL}b=1") /\
  getMasterConfig this (JString (js "https://cb/?a=$&b=1")) <>
    Normal (js "set callback-url https://cb/?a=$&b=1").
Proof. split; [by vm_compute|]. vm_compute. discriminate. Qed.

Section MasterConfig.
Context {St V : Type}.
Implicit Types (this : AutoscaleHandler St V).

(** With a callback url that has no [$] in it, [getMasterConfig] puts the
    url in the place of the first placeholder and keeps every other code
    unit of the base config. *)
Lemma getMasterConfig_plain this callbackUrl :
  36%N ∉ toString callbackUrl ->
  getMasterConfig this callbackUrl =
  Normal (substituteFirst (js "${CALLBACK_URL}") (toString callbackUrl)
            (_baseConfig this)).
Proof.
  intros H. unfold getMasterConfig. f_equal.
  by apply (replace_literal (js "${CALLBACK_URL}") 0).
Qed.

End MasterConfig.

Lemma substituteFirst_first token text pre post :
  (forall i, i < length pre ->
             startsWith token (drop i (pre ++ token ++ post)) = false) ->
  substituteFirst token text (pre ++ token ++ post) = pre ++ text ++ post.
Proof.
  induction pre as [|c pre IH]; intros H.
  - simpl. destruct token as [|t token].
    + by destruct post.
    + cbn [app substituteFirst].
      change (t :: token ++ post) with ((t :: token) ++ post).
      rewrite startsWith_app. by rewrite drop_app_length.
  - pose proof (H 0 ltac:(simpl; lia)) as H0. rewrite drop_0 in H0.
    cbn [app substituteFirst] in *. rewrite H0.
    f_equal. apply IH. intros i Hi. apply (H (S i)). simpl. lia.
Qed.

(** ** responseToHeartBeat *)

(** C6.  The heartbeat response is JSON text that reads back as an object
    with the one key [master-ip], mapped to the master ip, when there is a
    master ip, and as the empty object when there is none. *)
Theorem responseToHeartBeat_master_ip masterIp :
  JSON_parse (responseToHeartBeat masterIp) =
  Some (if truthy masterIp then [(js "master-ip", masterIp)] else []).
Proof.
  destruct masterIp as [| |[|c s]]; try done.
  apply (JSON_parse_single (js "master-ip") (c :: s)).
Qed.

(** ** purgeMaster *)

Section PurgeMaster.
Context {St V : Type}.

(** C9.  On an instance of the class itself [purgeMaster] ends with the
    error 'Not Implemented', whatever the global object holds: the call on
    the left of [||] throws, and [asgName] on its right is never looked
    up, so no ReferenceError can come of it. *)
Theorem purgeMaster_not_implemented
    (platform : CloudPlatform St (GroupSettings V)) (baseConfig : jsstring)
    (genv : gmap string jsval) :
  purgeMaster (newAutoscaleHandler platform baseConfig) genv =
  (Throw (Error (js "Not Implemented")), []).
Proof. unfold purgeMaster, newAutoscaleHandler, logicalOr. reflexivity. Qed.

(** The read of [asgName] is there all the same: once a subclass makes
    [throwNotImplementedException] return, it is what ends the call. *)
Lemma purgeMaster_overridden (this : AutoscaleHandler St V)
    (genv : gmap string jsval) :
  throwNotImplementedException this = Normal JUndefined ->
  genv !! "asgName" = None ->
  purgeMaster this genv =
  (Throw (ReferenceError (js "asgName is not defined")), ["asgName"]).
Proof.
  intros H1 H2. unfold purgeMaster, logicalOr, resolveGlobal.
  by rewrite H1, H2.
Qed.

End PurgeMaster.

(** ** loadSettings and saveSettings *)

Section Settings.
Context {St V : Type}.
Variable this : AutoscaleHandler St V.

(** The settings store of the platform: a read of a key gives the item
    that was last written under it. *)
Hypothesis get_after_set : forall key item st st' r,
  setSettingItem (platform this) key item st = (Normal r, st') ->
  fst (getSettingItem (platform this) key st') = Normal (Some item).

(** C10.  Over such a settings store, [loadSettings] after [saveSettings]
    gives the object that was saved, with its three fields and nothing
    else: the two methods use the same key. *)
Theorem loadSettings_saveSettings desiredCapacity minSize maxSize st st' r :
  saveSettings this desiredCapacity minSize maxSize st = (Normal r, st') ->
  fst (loadSettings this st') =
  Normal (Some (MkGroupSettings desiredCapacity minSize maxSize)).
Proof using get_after_set.
  unfold saveSettings, loadSettings. intros Hsave.
  by apply (get_after_set settingsKey _ st st' r).
Qed.

End Settings.

Lemma mapPlatform_get_after_set {Item} key (item : Item) s s' r :
  setSettingItem (mapPlatform Item) key item s = (Normal r, s') ->
  fst (getSettingItem (mapPlatform Item) key s') = Normal (Some item).
Proof. intros [= _ <-]. simpl. by rewrite lookup_insert_eq. Qed.

(** Saving 2, 1 and 4 in the map store and loading them again. *)
Lemma loadSettings_saveSettings_witness :
  let this : AutoscaleHandler (gmap jsstring (GroupSettings nat)) nat :=
    newAutoscaleHandler (mapPlatform _) exampleBaseConfig in
  fst (loadSettings this (snd (saveSettings this 2 1 4 ∅))) =
  Normal (Some (MkGroupSettings 2 1 4)).
Proof.
  intros this.
  apply (loadSettings_saveSettings this) with (st := ∅) (r := JUndefined).
  - intros key item s s' r'. apply mapPlatform_get_after_set.
  - reflexivity.
Defined.

(** ** putMasterElectionVote *)





(** * More of the two classes

    What the two patterns of [getSlaveConfig] find and what they cannot
    find, the error it throws, what it leaves in the RegExp objects, the
    example of a section with an interface and a secret, [getMasterConfig]
    on base configs with no placeholder or several, and the methods that a
    subclass is to fill in. *)

(** ** What a run reads *)

Lemma run_rest r st st' : run r st st' -> rest st = consumed st st' ++ rest st'.
Proof.
  intros H. pose proof (run_rest_suffix _ _ _ H) as [a Ha].
  pose proof (run_conserve _ _ _ H) as Hc.
  unfold consumed. rewrite Ha in Hc |- *. rewrite length_app in Hc.
  replace (pos st' - pos st) with (length a) by lia.
  by rewrite take_app_length.
Qed.

Lemma consumed_length r st st' :
  run r st st' -> pos st' = pos st + length (consumed st st').
Proof.
  intros H. pose proof (run_rest _ _ _ H) as Hr.
  pose proof (run_conserve _ _ _ H) as Hc.
  rewrite Hr, length_app in Hc. lia.
Qed.

Lemma consumed_refl st : consumed st st = [].
Proof. unfold consumed. by rewrite Nat.sub_diag. Qed.

Lemma consumed_trans r1 r2 st st1 st2 :
  run r1 st st1 -> run r2 st1 st2 ->
  consumed st st2 = consumed st st1 ++ consumed st1 st2.
Proof.
  intros H1 H2.
  pose proof (run_rest _ _ _ H1) as E1. pose proof (run_rest _ _ _ H2) as E2.
  pose proof (consumed_length _ _ _ H1) as L1.
  pose proof (consumed_length _ _ _ H2) as L2.
  unfold consumed at 1. rewrite E1, E2, (assoc_L (++)).
  replace (pos st2 - pos st)
    with (length (consumed st st1 ++ consumed st1 st2))
    by (rewrite length_app; lia).
  by rewrite take_app_length.
Qed.

Lemma consumed_advance st x st' :
  advance st = Some (x, st') -> consumed st st' = [x].
Proof.
  intros (Hr & Hp & _)%advance_inv. unfold consumed. rewrite Hr, Hp.
  replace (S (pos st) - pos st) with 1 by lia. done.
Qed.

Lemma prevAfter_app a b p : prevAfter (a ++ b) p = prevAfter b (prevAfter a p).
Proof. revert p. induction a as [|x a IH]; intros p; [done|]. apply IH. Qed.

Lemma prevAfter_last a p :
  prevAfter a p = match last a with Some x => Some x | None => p end.
Proof.
  revert p. induction a as [|x a IH]; intros p; [done|].
  simpl. rewrite IH, last_cons. by destruct (last a).
Qed.

Lemma run_prev r st st' :
  run r st st' -> prev st' = prevAfter (consumed st st') (prev st).
Proof.
  induction 1 as [st|c st st' E|p x st st' E _
                  |r1 r2 st st1 st2 H1 IH1 H2 IH2| |
                  |r st|r st st1 st2 H1 IH1 Hlt H2 IH2
                  |n r st st' H IH|st _|st _];
    rewrite ?consumed_refl; try done.
  - rewrite (consumed_advance _ _ _ E).
    by apply advance_inv in E as (_ & _ & -> & _).
  - rewrite (consumed_advance _ _ _ E).
    by apply advance_inv in E as (_ & _ & -> & _).
  - by rewrite (consumed_trans _ _ _ _ _ H1 H2), prevAfter_app, <- IH1.
  - by rewrite (consumed_trans _ _ _ _ _ H1 H2), prevAfter_app, <- IH1.
Qed.

Lemma run_Lit chars st st' :
  run (Cat (Chr <$> chars)) st st' -> consumed st st' = chars.
Proof.
  revert st. induction chars as [|c chars IH]; intros st H.
  - apply run_Eps_inv in H as ->. apply consumed_refl.
  - simpl in H. apply run_Seq_inv in H as (st1 & H1 & H2).
    rewrite (consumed_trans _ _ _ _ _ H1 H2), (IH _ H2).
    inversion H1 as [ |c' st0 st0' E| | | | | | | | | ]; subst.
    by rewrite (consumed_advance _ _ _ E).
Qed.

Lemma run_Cls_inv p st st' :
  run (Cls p) st st' -> exists x, consumed st st' = [x] /\ p x = true.
Proof.
  inversion 1 as [ | |p' x st0 st0' E Hp| | | | | | | | ]; subst.
  exists x. by rewrite (consumed_advance _ _ _ E).
Qed.

Lemma run_Chr_inv c st st' : run (Chr c) st st' -> consumed st st' = [c].
Proof.
  inversion 1 as [ |c' st0 st0' E| | | | | | | | | ]; subst.
  by rewrite (consumed_advance _ _ _ E).
Qed.

Lemma run_Star_Forall (P : N -> Prop) r :
  (forall a b, run r a b -> Forall P (consumed a b)) ->
  forall st st', run (Star r) st st' -> Forall P (consumed st st').
Proof.
  intros Hr st st' H. remember (Star r) as R eqn:ER.
  induction H as [ | | | | | |r0 st|r0 st st1 st2 H1 _ Hlt H2 IH2| | | ];
    try done; injection ER as ->.
  - by rewrite consumed_refl.
  - rewrite (consumed_trans _ _ _ _ _ H1 H2). apply Forall_app.
    split; [by apply Hr|by apply IH2].
Qed.

Lemma run_Star_Cls p st st' :
  run (Star (Cls p)) st st' -> Forall (fun x => p x = true) (consumed st st').
Proof.
  apply run_Star_Forall. intros a b (x & -> & Hx)%run_Cls_inv.
  by apply Forall_singleton.
Qed.

Lemma run_Plus_Cls p st st' :
  run (Plus (Cls p)) st st' ->
  consumed st st' <> [] /\ Forall (fun x => p x = true) (consumed st st').
Proof.
  intros (st1 & H1 & H2)%run_Seq_inv.
  rewrite (consumed_trans _ _ _ _ _ H1 H2).
  apply run_Cls_inv in H1 as (x & -> & Hx). split; [done|].
  apply Forall_cons. split; [done|]. by apply run_Star_Cls.
Qed.

Lemma run_Opt_Chr c st st' :
  run (Opt (Chr c)) st st' -> consumed st st' = [] \/ consumed st st' = [c].
Proof.
  inversion 1 as [ | | | |r1 r2 st0 st0' H1|r1 r2 st0 st0' H1| | | | | ]; subst.
  - right. by apply run_Chr_inv.
  - left. apply run_Eps_inv in H1 as ->. apply consumed_refl.
Qed.

(** ** Greedy stars *)

Lemma after_spec a : forall st b,
  rest st = a ++ b ->
  pos (after st a) = pos st + length a /\
  prev (after st a) = prevAfter a (prev st) /\
  rest (after st a) = b /\
  caps (after st a) = caps st.
Proof.
  induction a as [|x a IH]; intros [i p s cs] b Hr; simpl in Hr; subst s.
  - simpl. by rewrite Nat.add_0_r.
  - cbn [after pos prev rest caps tail].
    destruct (IH (MState (S i) (Some x) (a ++ b) cs) b eq_refl)
      as (-> & -> & -> & ->). simpl. split; [lia|done].
Qed.

Lemma after_eq st a b :
  rest st = a ++ b ->
  after st a =
  MState (pos st + length a) (prevAfter a (prev st)) b (caps st).
Proof.
  intros Hr. destruct (after_spec a st b Hr) as (H1 & H2 & H3 & H4).
  destruct (after st a) as [i p s cs]. simpl in *. by subst.
Qed.

Lemma consumed_after st a b : rest st = a ++ b -> consumed st (after st a) = a.
Proof.
  intros Hr. destruct (after_spec a st b Hr) as (Hp & _). unfold consumed.
  rewrite Hp, Hr. replace (pos st + length a - pos st) with (length a) by lia.
  by rewrite take_app_length.
Qed.

Lemma single_Cls p : single p (Cls p).
Proof. by intros k st. Qed.

Lemma single_any : single (fun c => isDot c || N.eqb c 10) (Alt dot (Chr 10)).
Proof.
  intros k st. simpl. destruct (advance st) as [[x st']|]; [|done].
  destruct (N.eqb_spec x 10) as [->|Hx]; [done|].
  rewrite orb_false_r. destruct (isDot x); [|done]. by destruct (k st').
Qed.

Lemma starLoop_None P r k : single P r -> forall fuel st,
  starLoop (matcher r) k fuel st = None -> length (rest st) <= fuel ->
  forall a b, rest st = a ++ b -> Forall (fun x => P x = true) a ->
    k (after st a) = None.
Proof.
  intros Hs. induction fuel as [|fuel IH]; intros [i p s cs] H Hl a b Hr Ha;
    simpl in Hl, Hr.
  - destruct s; [|simpl in Hl; lia]. by destruct a.
  - cbn [starLoop] in H. rewrite Hs in H. unfold advance in H.
    cbn [rest pos prev caps] in H.
    destruct a as [|x a]; cbn [after].
    { destruct s as [|y s]; [done|]. destruct (P y); [|done].
      unfold orElse in H. by destruct (if _ <? _ then _ else _). }
    simpl in Hr. subst s. apply Forall_cons in Ha as [Hx Ha]. rewrite Hx in H.
    cbn [rest pos prev caps tail] in H |- *.
    destruct (Nat.ltb_spec i (S i)) as [_|]; [|lia].
    unfold orElse in H.
    match type of H with
    | match ?m with _ => _ end = None => destruct m eqn:E; [done|]
    end.
    apply (IH _ E) with (b := b); [simpl in *; lia|done|done].
Qed.

(** A greedy star of such a pattern hands its continuation the longest
    run of the class first, then the shorter ones: what comes back belongs
    to the longest run that the continuation accepts. *)
Lemma starLoop_greedy P r k : single P r -> forall fuel st res,
  starLoop (matcher r) k fuel st = Some res -> length (rest st) <= fuel ->
  exists a b,
    rest st = a ++ b /\ Forall (fun x => P x = true) a /\
    k (after st a) = Some res /\
    forall a' b', rest st = a' ++ b' -> length a < length a' ->
      Forall (fun x => P x = true) a' -> k (after st a') = None.
Proof.
  intros Hs. induction fuel as [|fuel IH]; intros [i p s cs] res H Hl;
    simpl in Hl.
  - destruct s; [|simpl in Hl; lia]. exists [], []. repeat split; try done.
    intros [|] ? ? ?; simpl in *; [lia|done].
  - cbn [starLoop] in H. rewrite Hs in H. unfold advance in H.
    cbn [rest pos prev caps] in H.
    destruct s as [|x s].
    { exists [], []. repeat split; try done.
      intros [|] ? ? ?; simpl in *; [lia|done]. }
    destruct (P x) eqn:Hx.
    + cbn [pos] in H. destruct (Nat.ltb_spec i (S i)) as [_|]; [|lia].
      match type of H with
      | orElse ?m _ = Some _ => destruct m eqn:E
      end.
      * injection H as ->.
        apply IH in E as (a & b & Hr & Ha & Hk & Hmax); [|simpl in *; lia].
        simpl in Hr. exists (x :: a), b. subst s. repeat split; try done.
        { by apply Forall_cons. }
        intros [|y a'] b' Hr' Hlen Ha'; simpl in *; [lia|].
        injection Hr' as <- Hr'. apply Forall_cons in Ha' as [_ Ha'].
        apply (Hmax a' b'); [done|lia|done].
      * simpl in H. exists [], (x :: s). repeat split; try done.
        intros [|y a'] b' Hr' Hlen Ha'; simpl in *; [lia|].
        injection Hr' as <- Hr'. apply Forall_cons in Ha' as [_ Ha'].
        apply (starLoop_None P r k Hs fuel _ E) with (b := b');
          [simpl in *; lia|done|done].
    + simpl in H. exists [], (x :: s). repeat split; try done.
      intros [|y a'] b' Hr' Hlen Ha'; simpl in *; [lia|].
      injection Hr' as <- Hr'. apply Forall_cons in Ha' as [Hy _]. congruence.
Qed.

(** And the longest run is what comes back when the continuation accepts
    it. *)
Lemma starLoop_take P r k : single P r -> forall a fuel st b res,
  rest st = a ++ b -> Forall (fun x => P x = true) a ->
  (forall c, head b = Some c -> P c = false) ->
  length (rest st) <= fuel ->
  k (after st a) = Some res ->
  starLoop (matcher r) k fuel st = Some res.
Proof.
  intros Hs. induction a as [|x a IH]; intros fuel [i p s cs] b res Hr Ha Hb
    Hl Hk; simpl in Hr, Hl; subst s.
  - simpl in Hk. destruct fuel as [|fuel]; [done|].
    cbn [starLoop]. rewrite Hs. unfold advance. cbn [rest].
    destruct b as [|c b]; [by rewrite Hk|].
    rewrite (Hb c eq_refl). by rewrite Hk.
  - destruct fuel as [|fuel]; [simpl in Hl; lia|].
    apply Forall_cons in Ha as [Hx Ha].
    cbn [starLoop]. rewrite Hs. unfold advance. cbn [rest pos prev caps].
    rewrite Hx. destruct (Nat.ltb_spec i (S i)) as [_|]; [|lia].
    rewrite (IH fuel (MState (S i) (Some x) (a ++ b) cs) b res); try done.
    simpl in *. lia.
Qed.

Lemma matcher_Star_take P r k st a b res :
  single P r ->
  rest st = a ++ b -> Forall (fun x => P x = true) a ->
  (forall c, head b = Some c -> P c = false) ->
  k (after st a) = Some res ->
  matcher (Star r) k st = Some res.
Proof.
  intros Hs Hr Ha Hb Hk. simpl.
  by apply (starLoop_take P r k Hs a _ st b res).
Qed.

Lemma matcher_Plus_take P r k st a b res :
  single P r ->
  rest st = a ++ b -> a <> [] -> Forall (fun x => P x = true) a ->
  (forall c, head b = Some c -> P c = false) ->
  k (after st a) = Some res ->
  matcher (Plus r) k st = Some res.
Proof.
  intros Hs Hr Hne Ha Hb Hk. destruct a as [|x a]; [done|].
  apply Forall_cons in Ha as [Hx Ha]. destruct st as [i p s cs].
  simpl in Hr. subst s.
  change (matcher (Plus r) k ?st)
    with (matcher r (matcher (Star r) k) st).
  rewrite Hs. unfold advance. cbn [rest pos prev caps]. rewrite Hx.
  by apply (matcher_Star_take P r k _ a b res).
Qed.

Lemma matcher_Lit_take chars k st b res :
  rest st = chars ++ b ->
  k (after st chars) = Some res ->
  matcher (Cat (Chr <$> chars)) k st = Some res.
Proof.
  intros Hr Hk. rewrite matcher_literal, Hr, startsWith_app.
  rewrite drop_app_length. rewrite (after_eq st chars b Hr) in Hk. done.
Qed.

(** ** Runs that read a given text *)

Lemma after_cons st x a b :
  rest st = x :: a ++ b ->
  advance st = Some (x, MState (S (pos st)) (Some x) (a ++ b) (caps st)) /\
  after st (x :: a) = after (MState (S (pos st)) (Some x) (a ++ b) (caps st)) a.
Proof.
  intros Hr. unfold advance. cbn [after]. by rewrite Hr.
Qed.

Lemma run_Chr_intro c st b :
  rest st = c :: b -> run (Chr c) st (after st [c]).
Proof.
  intros Hr. destruct (after_cons st c [] b Hr) as [Ha ->]. by apply run_Chr.
Qed.

Lemma run_Lit_intro chars : forall st b,
  rest st = chars ++ b -> run (Cat (Chr <$> chars)) st (after st chars).
Proof.
  induction chars as [|c chars IH]; intros st b Hr.
  - apply run_Eps.
  - destruct (after_cons st c chars b Hr) as [Ha ->].
    apply (run_Seq _ _ _ _ _ (run_Chr _ _ _ Ha)). by apply (IH _ b).
Qed.

Lemma run_Star_intro (P : N -> bool) r :
  (forall st x st', advance st = Some (x, st') -> P x = true -> run r st st') ->
  forall a st b,
    rest st = a ++ b -> Forall (fun x => P x = true) a ->
    run (Star r) st (after st a).
Proof.
  intros Hr. induction a as [|x a IH]; intros st b Hst Ha.
  - apply run_Star_stop.
  - apply Forall_cons in Ha as [Hx Ha].
    destruct (after_cons st x a b Hst) as [Hadv ->].
    apply (run_Star_more _ _ _ _ (Hr _ _ _ Hadv Hx)); [simpl; lia|].
    by apply (IH _ b).
Qed.

Lemma run_Star_ws a st b :
  rest st = a ++ b -> Forall (fun x => isWhiteSpace x = true) a ->
  run (Star ws) st (after st a).
Proof.
  apply (run_Star_intro isWhiteSpace). intros s x s' H Hx.
  by apply (run_Cls isWhiteSpace x).
Qed.

Lemma run_Star_wsnl a st b :
  rest st = a ++ b -> Forall (fun x => isWhiteSpace x = true) a ->
  run (Star (Cls (fun c => isWhiteSpace c || N.eqb c 10))) st (after st a).
Proof.
  intros Hr Ha.
  apply (run_Star_intro (fun c => isWhiteSpace c || N.eqb c 10) _) with (b := b);
    [|done|].
  - intros s x s' H Hx. by apply (run_Cls _ x).
  - apply (Forall_impl _ _ _ Ha). by intros c ->.
Qed.

Lemma run_Star_any a st b :
  rest st = a ++ b -> Forall (fun x => isDot x || N.eqb x 10 = true) a ->
  run (Star (Alt dot (Chr 10))) st (after st a).
Proof.
  apply (run_Star_intro (fun c => isDot c || N.eqb c 10)). intros s x s' H Hx.
  destruct (isDot x) eqn:Hd.
  - apply run_Alt_l. by apply (run_Cls isDot x).
  - apply run_Alt_r. simpl in Hx. apply N.eqb_eq in Hx as ->. by apply run_Chr.
Qed.

(** ** Occurrences *)

Lemma includes_middle p a b : includes p (a ++ p ++ b) = true.
Proof.
  induction a as [|x a IH].
  - simpl. destruct (p ++ b) eqn:E; simpl; rewrite <- E, startsWith_app; done.
  - cbn [app includes]. rewrite IH. apply orb_true_r.
Qed.

Lemma indicesFrom_elem p a : forall b i,
  i + length a ∈ indicesFrom p (a ++ p ++ b) i.
Proof.
  induction a as [|x a IH]; intros b i.
  - rewrite Nat.add_0_r. cbn [app].
    destruct (p ++ b) as [|y l] eqn:E; cbn [indicesFrom]; rewrite <- E;
      rewrite startsWith_app; apply elem_of_app; left; by apply list_elem_of_singleton.
  - cbn [app indicesFrom]. apply elem_of_app. right.
    replace (i + length (x :: a)) with (S i + length a) by (simpl; lia).
    apply IH.
Qed.

Lemma indicesOf_elem p a b : length a ∈ indicesOf p (a ++ p ++ b).
Proof. apply (indicesFrom_elem p a b 0). Qed.

Lemma indicesFrom_ge p s : forall i n, n ∈ indicesFrom p s i -> i <= n.
Proof.
  induction s as [|x s IH]; intros i n; cbn [indicesFrom].
  - rewrite app_nil_r. destruct (startsWith p []); [|by intros ?%elem_of_nil].
    intros ->%list_elem_of_singleton. lia.
  - intros [H|H]%elem_of_app.
    + destruct (startsWith p (x :: s)); [|by apply elem_of_nil in H].
      apply list_elem_of_singleton in H as ->. lia.
    + apply IH in H. lia.
Qed.

Lemma indicesFrom_head_le p s : forall i m n,
  head (indicesFrom p s i) = Some m -> n ∈ indicesFrom p s i -> m <= n.
Proof.
  induction s as [|x s IH]; intros i m n; cbn [indicesFrom].
  - rewrite app_nil_r. destruct (startsWith p []); [|done].
    intros [= <-] ->%list_elem_of_singleton. lia.
  - destruct (startsWith p (x :: s)).
    + intros [= <-] [->%list_elem_of_singleton|H]%elem_of_app; [lia|].
      apply indicesFrom_ge in H. lia.
    + cbn [app]. apply IH.
Qed.

Lemma indicesFrom_last_ge p s : forall i m n,
  last (indicesFrom p s i) = Some m -> n ∈ indicesFrom p s i -> n <= m.
Proof.
  induction s as [|x s IH]; intros i m n; cbn [indicesFrom].
  - rewrite app_nil_r. destruct (startsWith p []); [|done].
    intros [= <-] ->%list_elem_of_singleton. lia.
  - rewrite last_app.
    destruct (last (indicesFrom p s (S i))) as [m'|] eqn:El.
    + intros [= <-] [H|H]%elem_of_app.
      * assert (n = i) as ->.
        { destruct (startsWith p (x :: s)); [|by apply elem_of_nil in H].
          by apply list_elem_of_singleton in H. }
        assert (m' ∈ indicesFrom p s (S i)) as Hm
          by by apply last_Some_elem_of.
        apply indicesFrom_ge in Hm. lia.
      * by apply (IH (S i)).
    + apply last_None in El. rewrite El, app_nil_r.
      destruct (startsWith p (x :: s)); [|done].
      intros [= <-] ->%list_elem_of_singleton. lia.
Qed.

(** Two occurrences of [end] do not overlap. *)
Lemma end_apart k post' post :
  js "end" ++ post' = k ++ js "end" ++ post -> k <> [] ->
  exists more, k = js "end" ++ more /\ post' = more ++ js "end" ++ post.
Proof.
  destruct k as [|a [|b [|c k]]]; try done; intros [= ]; try done.
  subst. intros _. by exists k.
Qed.

Lemma ws_run_prefix (w3 sec w body : jsstring) :
  w3 ++ sec = w ++ body ->
  Forall (fun c => isWhiteSpace c = true) w3 ->
  (forall c, head body = Some c -> isWhiteSpace c = false) ->
  exists k, w = w3 ++ k /\ sec = k ++ body.
Proof.
  intros E H3 Hb. apply app_eq_inv in E as [(k & -> & ->)|(k & -> & ->)].
  - destruct k as [|c k].
    + exists []. by rewrite !app_nil_r.
    + apply Forall_app in H3 as [_ [Hc _]%Forall_cons].
      by rewrite (Hb c eq_refl) in Hc.
  - by exists k.
Qed.

(** An occurrence that starts and ends inside a piece of the text is an
    occurrence in that piece. *)
Lemma occurs_inside {A} (a u b v p post : list A) :
  a ++ u ++ b = v ++ p ++ post ->
  length a <= length v -> length v + length p <= length a + length u ->
  exists l r, u = l ++ p ++ r.
Proof.
  intros E H1 H2.
  apply app_eq_inv in E as [(k & Hk1 & Hk2)|(k & Hk1 & Hk2)].
  - assert (k = []) as ->.
    { destruct k; [done|]. rewrite Hk1, length_app in H1. simpl in H1. lia. }
    rewrite app_nil_r in Hk1. simpl in Hk2. subst v.
    apply app_eq_inv in Hk2 as [(r & Hr1 & Hr2)|(r & Hr1 & Hr2)].
    + assert (r = []) as ->.
      { destruct r; [done|]. rewrite Hr1, length_app in H2. simpl in H2. lia. }
      rewrite app_nil_r in Hr1. exists [], []. by rewrite app_nil_r.
    + exists [], r. by rewrite Hr1.
  - rewrite (assoc_L (++)) in Hk2.
    apply app_eq_inv in Hk2 as [(r & Hr1 & Hr2)|(r & Hr1 & Hr2)].
    + exists k, r. by rewrite Hr1, <- (assoc_L (++)).
    + assert (r = []) as ->.
      { destruct r as [|y r]; [done|].
        assert (length (k ++ p) = length (u ++ y :: r)) as Hl
          by by rewrite Hr1.
        rewrite Hk1 in H2. repeat rewrite length_app in Hl.
        repeat rewrite length_app in H2. simpl in Hl. lia. }
      rewrite app_nil_r in Hr1. exists k, []. by rewrite app_nil_r, <- Hr1.
Qed.

(** ** The section pattern, piece by piece *)

(** What [exec] found, for a pattern without the [g] flag: the matcher
    accepted at the index of the match and at no index before it was
    asked in vain about the match itself. *)
Lemma exec_matcher rx s mr :
  global rx = false ->
  fst (exec rx s) = Some mr ->
  exists pre1 s' st',
    s = pre1 ++ s' /\
    matcher (source rx) Some
      (MState (length pre1) (prevAfter pre1 None) s'
         (replicate (S (ngroups rx)) None)) = Some st' /\
    group 1 mr = mjoin (caps st' !! 1).
Proof.
  intros Hg. unfold exec. rewrite Hg. simpl. intros E.
  apply search_Some_suffix in E as (pre1 & s' & -> & E).
  unfold matchAt in E. simpl in E.
  destruct (matcher _ Some _) as [st'|] eqn:Em; [|done].
  injection E as <-. exists pre1, s', st'. split; [done|]. split; [done|].
  unfold group. simpl. by rewrite list_lookup_insert_ne.
Qed.

Lemma is_Some_matchAt r n p s idx st' :
  run r (MState idx p s (replicate (S n) None)) st' ->
  is_Some (matchAt r n p s idx).
Proof.
  intros Hrun. unfold matchAt.
  destruct (matcher_complete _ _ _ Some st' Hrun eq_refl) as [res ->].
  by eexists.
Qed.

Ltac split_seq H st Hr :=
  match type of H with
  | matcher (Seq ?r1 ?r2) ?k ?s = Some ?res =>
      change (matcher r1 (matcher r2 k) s = Some res) in H;
      apply matcher_sound in H as (st & Hr & H)
  end.

(** [\bend\b] at a position. *)
Lemma matcher_endKeyword k st :
  matcher (Seq WordB (Seq (Lit "end") (Seq WordB Eps))) k st =
  if negb (isWordAt (prev st)) && startsWith (js "end") (rest st)
     && negb (isWordAt (head (drop 3 (rest st))))
  then k (MState (pos st + 3) (Some 100%N) (drop 3 (rest st)) (caps st))
  else None.
Proof.
  change (matcher (Seq WordB (Seq (Lit "end") (Seq WordB Eps))) k st)
    with (if atWordBoundary st
          then matcher (Cat (Chr <$> js "end"))
                 (fun st' => if atWordBoundary st' then k st' else None) st
          else None).
  rewrite matcher_literal. unfold atWordBoundary.
  destruct (startsWith (js "end") (rest st)) eqn:E.
  - cbn [rest prev pos caps]. 
    change (prevAfter (js "end") (prev st)) with (Some 100%N).
    change (length (js "end")) with 3.
    assert (head (rest st) = Some 101%N) as ->.
    { pose proof (startsWith_take (js "end") _ E) as Ht.
      change (length (js "end")) with 3 in Ht.
      by rewrite <- (take_drop 3 (rest st)), Ht. }
    change (isWordAt (Some 101%N)) with true.
    change (isWordAt (Some 100%N)) with true.
    rewrite xorb_true_r, andb_true_r. cbn [xorb].
    by destruct (isWordAt (prev st)), (isWordAt (head (drop 3 (rest st)))).
  - rewrite andb_false_r. cbn [andb].
    by destruct (xorb _ _).
Qed.

Lemma isWhiteSpace_nl c :
  isWhiteSpace c || N.eqb c 10 = true -> isWhiteSpace c = true.
Proof.
  destruct (isWhiteSpace c) eqn:E; [done|]. simpl.
  intros ->%N.eqb_eq. done.
Qed.

(** The header of the section pattern, up to the words [auto-scale]. *)
Lemma section_header i j base mr :
  fst (exec (sectionExpr (moduleLoaded i j)) base) = Some mr ->
  exists pre w0 g w1 m w2 s9 st',
    base = pre ++ w0 ++ js "confi" ++ g ++ w1 ++ js "syste" ++ m ++ w2 ++
           js "auto-scale" ++ rest s9 /\
    (pre = [] \/ last pre = Some 10%N) /\
    Forall (fun c => isWhiteSpace c = true) (w0 ++ w1 ++ w2) /\
    (g = [] \/ g = js "g") /\ (m = [] \/ m = js "m") /\
    prev s9 = Some 101%N /\ length (caps s9) = 2 /\
    matcher
      (Seq (Star (Cls (fun c => isWhiteSpace c || N.eqb c 10))) sectionTail)
      Some s9 = Some st' /\
    group 1 mr = mjoin (caps st' !! 1).
Proof.
  intros H. apply exec_matcher in H as (pre1 & s' & st' & -> & H & Hg); [|done].
  cbn [moduleLoaded sectionExpr source ngroups setLastIndex] in H.
  set (st0 := MState _ _ _ _) in H.
  change (source AUTOSCALE_SECTION_EXPR) with
    (Seq (Alt Bol (Chr 10)) (Seq (Star ws) (Seq (Lit "confi")
     (Seq (Opt (Chr 103)) (Seq (Star ws) (Seq (Lit "syste")
     (Seq (Opt (Chr 109)) (Seq (Star ws) (Seq (Lit "auto-scale")
     (Seq (Star (Cls (fun c => isWhiteSpace c || N.eqb c 10)))
        sectionTail)))))))))) in H.
  split_seq H s1 H1. split_seq H s2 H2. split_seq H s3 H3.
  split_seq H s4 H4. split_seq H s5 H5. split_seq H s6 H6.
  split_seq H s7 H7. split_seq H s8 H8. split_seq H s9 H9.
  pose proof (run_rest _ _ _ H1) as R1. pose proof (run_rest _ _ _ H2) as R2.
  pose proof (run_rest _ _ _ H3) as R3. pose proof (run_rest _ _ _ H4) as R4.
  pose proof (run_rest _ _ _ H5) as R5. pose proof (run_rest _ _ _ H6) as R6.
  pose proof (run_rest _ _ _ H7) as R7. pose proof (run_rest _ _ _ H8) as R8.
  pose proof (run_rest _ _ _ H9) as R9.
  rewrite (run_Lit _ _ _ H3) in R3. rewrite (run_Lit _ _ _ H6) in R6.
  rewrite (run_Lit _ _ _ H9) in R9.
  pose proof (run_Star_Cls _ _ _ H2) as W0.
  pose proof (run_Star_Cls _ _ _ H5) as W1.
  pose proof (run_Star_Cls _ _ _ H8) as W2.
  pose proof (run_Opt_Chr _ _ _ H4) as G. pose proof (run_Opt_Chr _ _ _ H7) as M.
  exists (pre1 ++ consumed st0 s1), (consumed s1 s2), (consumed s3 s4),
    (consumed s4 s5), (consumed s6 s7), (consumed s7 s8), s9, st'.
  split.
  { rewrite <- !(assoc_L (++)). f_equal.
    change s' with (rest st0).
    rewrite R1, R2, R3, R4, R5, R6, R7, R8, R9.
    by rewrite <- ?(assoc_L (++)). }
  split.
  { inversion H1 as [ | | | |r1 r2 a b' Hb|r1 r2 a b' Hc| | | | | ]; subst.
    - inversion Hb as [ | | | | | | | | |a Hp| ]; subst.
      rewrite consumed_refl, app_nil_r. left.
      unfold st0 in Hp. cbn [prev] in Hp. rewrite prevAfter_last in Hp.
      destruct (last pre1) eqn:El; [done|]. by apply last_None in El.
    - right. rewrite (run_Chr_inv _ _ _ Hc). by rewrite last_snoc. }
  split; [by rewrite !Forall_app|]. split; [done|]. split; [done|].
  split.
  { rewrite (run_prev _ _ _ H9), (run_Lit _ _ _ H9). done. }
  split; [|done].
  rewrite (run_caps_length _ _ _ H9),
    (run_caps_length _ _ _ H8), (run_caps_length _ _ _ H7),
    (run_caps_length _ _ _ H6), (run_caps_length _ _ _ H5),
    (run_caps_length _ _ _ H4), (run_caps_length _ _ _ H3),
    (run_caps_length _ _ _ H2), (run_caps_length _ _ _ H1). done.
Qed.

(** Behind the header: the white space that [[\s\n]*] takes, the text
    that group 1 takes and the [end] that closes it.  Both stars are
    greedy: no longer run of white space, and no [end] further on, would
    have let the rest of the pattern match. *)
Lemma section_tail s9 st' :
  matcher
    (Seq (Star (Cls (fun c => isWhiteSpace c || N.eqb c 10))) sectionTail)
    Some s9 = Some st' ->
  exists w3 sec post,
    rest s9 = w3 ++ sec ++ js "end" ++ post /\
    Forall (fun c => isWhiteSpace c = true) w3 /\
    Forall (fun c => isDot c || N.eqb c 10 = true) sec /\
    caps st' = <[1 := Some sec]> (caps s9) /\
    isWordAt (prevAfter (w3 ++ sec) (prev s9)) = false /\
    isWordAt (head post) = false /\
    (forall more post',
       post = more ++ js "end" ++ post' ->
       Forall (fun c => isDot c || N.eqb c 10 = true) more ->
       isWordAt (last (js "end" ++ more)) = true \/
       isWordAt (head post') = true) /\
    (forall a' b',
       rest s9 = a' ++ b' -> length w3 < length a' ->
       Forall (fun c => isWhiteSpace c = true) a' ->
       matcher sectionTail Some (after s9 a') = None).
Proof.
  intros H.
  change (starLoop (matcher (Cls (fun c => isWhiteSpace c || N.eqb c 10)))
            (matcher sectionTail Some) (length (rest s9)) s9 = Some st') in H.
  apply (starLoop_greedy _ _ _ (single_Cls _)) in H
    as (w3 & b3 & Hr3 & Hw3 & H & Hmax3); [|done].
  pose proof (Forall_impl _ _ _ Hw3 isWhiteSpace_nl) as Hw3'.
  set (s10 := after s9 w3) in *.
  destruct (after_spec w3 s9 b3 Hr3) as (_ & Hp10 & Hr10 & Hc10).
  fold s10 in Hp10, Hr10, Hc10.
  change (starLoop (matcher (Alt dot (Chr 10)))
            (fun st' =>
               matcher (Seq WordB (Seq (Lit "end") (Seq WordB Eps))) Some
                 (MState (pos st') (prev st') (rest st')
                    (<[1 := Some (consumed s10 st')]> (caps st'))))
            (length (rest s10)) s10 = Some st') in H.
  apply (starLoop_greedy _ _ _ single_any) in H
    as (sec & b & Hr & Hsec & Hk & Hmax); [|done].
  destruct (after_spec sec s10 b Hr) as (Hapos & Haprev & Harest & Hacaps).
  rewrite matcher_endKeyword in Hk. cbn [pos prev rest caps] in Hk.
  rewrite Harest, Haprev in Hk.
  destruct (negb (isWordAt (prevAfter sec (prev s10)))) eqn:Hw1; [|done].
  destruct (startsWith (js "end") b) eqn:Hend; [|done].
  destruct (negb (isWordAt (head (drop 3 b)))) eqn:Hw2; [|done].
  cbn [andb] in Hk. injection Hk as <-.
  apply negb_true_iff in Hw1, Hw2.
  assert (b = js "end" ++ drop 3 b) as Hb.
  { pose proof (startsWith_take (js "end") _ Hend) as Ht.
    change (length (js "end")) with 3 in Ht.
    by rewrite <- (take_drop 3 b) at 1; rewrite Ht. }
  set (post := drop 3 b) in *. clearbody post.
  rewrite Hb in Hr, Harest. clear Hend Hb.
  exists w3, sec, post.
  split; [by rewrite Hr3, <- Hr10, Hr|]. split; [done|]. split; [done|].
  split.
  { cbn [caps]. by rewrite (consumed_after s10 sec _ Hr), Hacaps, Hc10. }
  split; [by rewrite prevAfter_app, <- Hp10|]. split; [done|].
  split.
  - intros more post' -> Hmore.
    assert (rest s10 = (sec ++ js "end" ++ more) ++ js "end" ++ post') as Hr'.
    { rewrite Hr. by rewrite <- !(assoc_L (++)). }
    specialize (Hmax (sec ++ js "end" ++ more) (js "end" ++ post') Hr').
    destruct (after_spec _ s10 _ Hr') as (_ & Haprev' & Harest' & _).
    rewrite matcher_endKeyword in Hmax. cbn [pos prev rest caps] in Hmax.
    rewrite Harest', Haprev' in Hmax.
    change (startsWith (js "end") (js "end" ++ post')) with true in Hmax.
    change (drop 3 (js "end" ++ post')) with post' in Hmax.
    rewrite prevAfter_last, last_app in Hmax.
    destruct (last (js "end" ++ more)) as [c|] eqn:El.
    2:{ apply last_None in El. done. }
    destruct (isWordAt (Some c)) eqn:Hc; [by left|].
    destruct (isWordAt (head post')) eqn:Hp; [by right|].
    cbn [negb andb] in Hmax. exfalso.
    discriminate Hmax.
    + rewrite !length_app. simpl. lia.
    + rewrite !Forall_app. split; [done|]. split; [|done].
      by repeat constructor.
  - intros a' b' Ha' Hlen Hws. apply (Hmax3 a' b'); [done|done|].
    apply (Forall_impl _ _ _ Hws). by intros c ->.
Qed.

(** The match of the section pattern, read off the matcher. *)
Lemma section_match i j base mr :
  fst (exec (sectionExpr (moduleLoaded i j)) base) = Some mr ->
  exists pre w0 g w1 m w2 w3 sec post,
    group 1 mr = Some sec /\
    base = pre ++ w0 ++ js "confi" ++ g ++ w1 ++ js "syste" ++ m ++ w2 ++
           js "auto-scale" ++ w3 ++ sec ++ js "end" ++ post /\
    (pre = [] \/ last pre = Some 10%N) /\
    Forall (fun c => isWhiteSpace c = true) (w0 ++ w1 ++ w2 ++ w3) /\
    (g = [] \/ g = js "g") /\ (m = [] \/ m = js "m") /\
    Forall (fun c => isDot c || N.eqb c 10 = true) sec /\
    isWordAt (last (js "auto-scale" ++ w3 ++ sec)) = false /\
    isWordAt (head post) = false /\
    forall more post',
      post = more ++ js "end" ++ post' ->
      Forall (fun c => isDot c || N.eqb c 10 = true) more ->
      isWordAt (last (js "end" ++ more)) = true \/
      isWordAt (head post') = true.
Proof.
  intros (pre & w0 & g & w1 & m & w2 & s9 & st' & Hb & Hpre & Hw & Hg & Hm
          & Hp9 & Hl9 & H & Hgr)%section_header.
  apply section_tail in H
    as (w3 & sec & post & Hr & Hw3 & Hsec & Hc & Hw1 & Hw2 & Hmax & _).
  exists pre, w0, g, w1, m, w2, w3, sec, post.
  split.
  { rewrite Hgr, Hc, list_lookup_insert_eq by lia. done. }
  split; [by rewrite Hb, Hr|].
  split; [done|].
  split.
  { apply Forall_app in Hw as [? [? ?]%Forall_app].
    repeat (apply Forall_app; split; try done). }
  split; [done|]. split; [done|]. split; [done|].
  split; [|done].
  rewrite Hp9, prevAfter_last in Hw1. rewrite last_app.
  destruct (last (w3 ++ sec)) eqn:El; [done|]. by vm_compute in Hw1.
Qed.

(** The tail of the section pattern matches wherever a text without CR,
    LS or PS is followed by a whole word [end]. *)
Lemma sectionTail_run st body post :
  rest st = body ++ js "end" ++ post ->
  Forall (fun c => isDot c || N.eqb c 10 = true) body ->
  isWordAt (prevAfter body (prev st)) = false ->
  isWordAt (head post) = false ->
  exists st', run sectionTail st st'.
Proof.
  intros Hr Hbody Hw1 Hw2.
  destruct (after_spec body st _ Hr) as (_ & Hp1 & Hr1 & _).
  set (s1 := after st body) in *.
  set (s2 := setCapture 1 (consumed st s1) s1).
  assert (rest s2 = js "end" ++ post) as Hr2 by done.
  destruct (after_spec (js "end") s2 post Hr2) as (_ & Hp3 & Hr3 & _).
  set (s3 := after s2 (js "end")) in *.
  exists s3. unfold sectionTail.
  apply (run_Seq _ _ _ s2).
  { apply run_Grp. by apply (run_Star_any body st (js "end" ++ post)). }
  apply (run_Seq _ _ _ s2).
  { apply run_WordB. unfold atWordBoundary. rewrite Hr2.
    change (prev s2) with (prev s1). by rewrite Hp1, Hw1. }
  apply (run_Seq _ _ _ s3).
  { by apply (run_Lit_intro (js "end") s2 post). }
  apply (run_Seq _ _ _ s3); [|apply run_Eps].
  apply run_WordB. unfold atWordBoundary. by rewrite Hr3, Hp3, Hw2.
Qed.

Lemma sectionTail_complete st body post :
  rest st = body ++ js "end" ++ post ->
  Forall (fun c => isDot c || N.eqb c 10 = true) body ->
  isWordAt (prevAfter body (prev st)) = false ->
  isWordAt (head post) = false ->
  is_Some (matcher sectionTail Some st).
Proof.
  intros Hr Hbody Hw1 Hw2.
  destruct (sectionTail_run st body post Hr Hbody Hw1 Hw2) as [st' Hrun].
  by apply (matcher_complete _ _ _ Some st' Hrun).
Qed.

(** The header [config system auto-scale] at the start of a line, white
    space, a text and a whole word [end]: the section pattern matches. *)
Lemma section_run st nl w body post :
  rest st = nl ++ js "config system auto-scale" ++ w ++ body ++ js "end" ++ post ->
  (nl = [] /\ prev st = None \/ nl = [10%N]) ->
  Forall (fun c => isWhiteSpace c = true) w ->
  Forall (fun c => isDot c || N.eqb c 10 = true) body ->
  isWordAt (last (js "e" ++ w ++ body)) = false ->
  isWordAt (head post) = false ->
  exists st', run (source AUTOSCALE_SECTION_EXPR) st st'.
Proof.
  intros Hr Hnl Hw Hbody Hw1 Hw2.
  change (js "config system auto-scale")
    with (js "confi" ++ [103%N] ++ [32%N] ++ js "syste" ++ [109%N] ++ [32%N]
          ++ js "auto-scale") in Hr.
  rewrite <- !(assoc_L (++)) in Hr.
  set (s1 := after st nl).
  destruct (after_spec nl st _ Hr) as (_ & _ & R1 & _). fold s1 in R1.
  set (s3 := after s1 (js "confi")).
  destruct (after_spec (js "confi") s1 _ R1) as (_ & _ & R3 & _). fold s3 in R3.
  set (s4 := after s3 [103%N]).
  destruct (after_spec [103%N] s3 _ R3) as (_ & _ & R4 & _). fold s4 in R4.
  set (s5 := after s4 [32%N]).
  destruct (after_spec [32%N] s4 _ R4) as (_ & _ & R5 & _). fold s5 in R5.
  set (s6 := after s5 (js "syste")).
  destruct (after_spec (js "syste") s5 _ R5) as (_ & _ & R6 & _). fold s6 in R6.
  set (s7 := after s6 [109%N]).
  destruct (after_spec [109%N] s6 _ R6) as (_ & _ & R7 & _). fold s7 in R7.
  set (s8 := after s7 [32%N]).
  destruct (after_spec [32%N] s7 _ R7) as (_ & _ & R8 & _). fold s8 in R8.
  set (s9 := after s8 (js "auto-scale")).
  destruct (after_spec (js "auto-scale") s8 _ R8) as (_ & P9 & R9 & _).
  fold s9 in R9, P9.
  set (s10 := after s9 w).
  destruct (after_spec w s9 _ R9) as (_ & P10 & R10 & _). fold s10 in R10, P10.
  destruct (sectionTail_run s10 body post R10 Hbody) as [st' Htail];
    [|done|].
  { rewrite P10, P9, <- prevAfter_app, prevAfter_last.
    rewrite last_app in Hw1.
    by destruct (last (w ++ body)). }
  exists st'.
  change (source AUTOSCALE_SECTION_EXPR) with
    (Seq (Alt Bol (Chr 10)) (Seq (Star ws) (Seq (Lit "confi")
     (Seq (Opt (Chr 103)) (Seq (Star ws) (Seq (Lit "syste")
     (Seq (Opt (Chr 109)) (Seq (Star ws) (Seq (Lit "auto-scale")
     (Seq (Star (Cls (fun c => isWhiteSpace c || N.eqb c 10)))
        sectionTail)))))))))).
  apply (run_Seq _ _ _ s1).
  { destruct Hnl as [[-> Hp]| ->].
    - apply run_Alt_l. by apply run_Bol.
    - apply run_Alt_r. by apply (run_Chr_intro 10 st _ Hr). }
  apply (run_Seq _ _ _ s1); [apply run_Star_stop|].
  apply (run_Seq _ _ _ s3); [by apply (run_Lit_intro (js "confi") s1 _ R1)|].
  apply (run_Seq _ _ _ s4).
  { apply run_Alt_l. by apply (run_Chr_intro 103 s3 _ R3). }
  apply (run_Seq _ _ _ s5).
  { apply (run_Star_ws [32%N] s4 _ R4). by repeat constructor. }
  apply (run_Seq _ _ _ s6); [by apply (run_Lit_intro (js "syste") s5 _ R5)|].
  apply (run_Seq _ _ _ s7).
  { apply run_Alt_l. by apply (run_Chr_intro 109 s6 _ R6). }
  apply (run_Seq _ _ _ s8).
  { apply (run_Star_ws [32%N] s7 _ R7). by repeat constructor. }
  apply (run_Seq _ _ _ s9);
    [by apply (run_Lit_intro (js "auto-scale") s8 _ R8)|].
  apply (run_Seq _ _ _ s10); [by apply (run_Star_wsnl w s9 _ R9)|].
  done.
Qed.

Lemma firstGroup_section i j base :
  fst (autoScaleSectionOf (moduleLoaded i j) base) =
  firstGroup (fst (exec (sectionExpr (moduleLoaded i j)) base)).
Proof. unfold autoScaleSectionOf. by destruct (exec _ _). Qed.

(** The section is a string or [null], never [undefined]: group 1 takes
    part in every match. *)
Lemma autoScaleSection_cases i j base :
  fst (autoScaleSectionOf (moduleLoaded i j) base) = JNull \/
  exists sec mr,
    fst (autoScaleSectionOf (moduleLoaded i j) base) = JString sec /\
    fst (exec (sectionExpr (moduleLoaded i j)) base) = Some mr /\
    group 1 mr = Some sec.
Proof.
  rewrite firstGroup_section.
  destruct (fst (exec _ base)) as [mr|] eqn:E; [|by left]. right.
  destruct (section_match _ _ _ _ E)
    as (pre & w0 & g & w1 & m & w2 & w3 & sec & post & Hg & _).
  exists sec, mr. simpl. by rewrite Hg.
Qed.

Lemma autoScaleSection_match i j base sec :
  fst (autoScaleSectionOf (moduleLoaded i j) base) = JString sec ->
  exists mr,
    fst (exec (sectionExpr (moduleLoaded i j)) base) = Some mr /\
    group 1 mr = Some sec.
Proof.
  intros H. destruct (autoScaleSection_cases i j base)
    as [E|(sec' & mr & E & Hm & Hg)]; [congruence|].
  rewrite E in H. injection H as ->. eauto.
Qed.

(** A section never takes in a code unit that [(?:.|\n)] does not read:
    when one stands behind the header, the white space and a text [t]
    without [end] in it, nothing matches. *)
Lemma section_none_before_break i j pre w t c rest' :
  indicesOf (js "auto-scale")
    (pre ++ js "auto-scale" ++ w ++ t ++ [c] ++ rest') = [length pre] ->
  Forall (fun x => isWhiteSpace x = true) w ->
  (exists x, head t = Some x /\ isWhiteSpace x = false) ->
  includes (js "end") t = false ->
  isDot c || N.eqb c 10 = false ->
  fst (autoScaleSectionOf (moduleLoaded i j)
         (pre ++ js "auto-scale" ++ w ++ t ++ [c] ++ rest')) = JNull.
Proof.
  intros Hone Hw (x & Hx & Hxw) Hend Hc.
  set (base := pre ++ js "auto-scale" ++ w ++ t ++ [c] ++ rest') in *.
  destruct (autoScaleSection_cases i j base)
    as [E|(sec0 & mr & _ & Hm & _)]; [done|]. exfalso.
  destruct (section_match _ _ _ _ Hm)
    as (P & w0 & g & w1 & m & w2 & w3 & sec & post & _ & Hb & _ & Hws & _
        & _ & Hsec & _).
  apply Forall_app in Hws as [_ [_ [_ Hw3]%Forall_app]%Forall_app].
  (* where [auto-scale] is *)
  set (Q := P ++ w0 ++ js "confi" ++ g ++ w1 ++ js "syste" ++ m ++ w2).
  assert (base = Q ++ js "auto-scale" ++ w3 ++ sec ++ js "end" ++ post) as HQ
    by (rewrite Hb; unfold Q; by rewrite <- !(assoc_L (++))).
  assert (length Q ∈ indicesOf (js "auto-scale") base) as Hin
    by (rewrite HQ; apply indicesOf_elem).
  rewrite Hone in Hin. apply list_elem_of_singleton in Hin.
  unfold base in HQ. apply app_inj_1 in HQ as [_ HQ]; [|done].
  apply app_inv_head in HQ.
  set (R := w ++ t ++ [c] ++ rest') in *.
  assert (R = w3 ++ sec ++ js "end" ++ post) as HR by done.
  assert (R = w ++ t ++ [c] ++ rest') as HR' by done.
  clearbody R. clear HQ Hin Hb Hone Hm.
  destruct t as [|x' t]; [done|]. injection Hx as ->.
  assert (length w3 <= length w) as H1.
  { destruct (decide (length w3 <= length w)) as [|Hn]; [done|]. exfalso.
    assert (R !! length w = Some x) as Hl1.
    { rewrite HR', lookup_app_r by lia. by rewrite Nat.sub_diag. }
    rewrite HR, lookup_app_l in Hl1 by lia.
    by rewrite (Forall_lookup_1 _ _ _ _ Hw3 Hl1) in Hxw. }
  assert (length w <= length (w3 ++ sec)) as H2.
  { destruct (decide (length w <= length (w3 ++ sec))) as [|Hn]; [done|].
    exfalso.
    assert (R !! length (w3 ++ sec) = Some 101%N) as Hl1.
    { rewrite HR, (assoc_L (++)), lookup_app_r by lia.
      by rewrite Nat.sub_diag. }
    rewrite HR', lookup_app_l in Hl1 by lia.
    by pose proof (Forall_lookup_1 _ _ _ _ Hw Hl1). }
  assert (length (w3 ++ sec) + 3 <= length w + length (x :: t)) as H3.
  { destruct (decide (length (w3 ++ sec) + 3 <= length w + length (x :: t)))
      as [|Hn]; [done|]. exfalso.
    assert (R !! (length w + length (x :: t)) = Some c) as Hl1.
    { rewrite HR', (assoc_L (++)), lookup_app_r
        by (rewrite length_app; lia).
      rewrite length_app.
      by replace (length w + length (x :: t) - _) with 0 by lia. }
    rewrite HR, lookup_app_r in Hl1 by lia.
    rewrite length_app in Hn, H2.
    destruct (decide (length w + length (x :: t) - length w3 < length sec))
      as [Hlt|Hge].
    - rewrite lookup_app_l in Hl1 by done.
      by rewrite (Forall_lookup_1 _ _ _ _ Hsec Hl1) in Hc.
    - rewrite lookup_app_r in Hl1 by lia.
      rewrite lookup_app_l in Hl1 by (change (length (js "end")) with 3; lia).
      destruct (length w + length (x :: t) - length w3 - length sec)
        as [|[|[|d]]]; simpl in Hl1; try done;
        injection Hl1 as <-; done. }
  destruct (occurs_inside w (x :: t) ([c] ++ rest') (w3 ++ sec) (js "end") post)
    as (l & r & Hocc); [|done|done|].
  { by rewrite <- HR', HR, <- !(assoc_L (++)). }
  by rewrite Hocc, includes_middle in Hend.
Qed.

(** ** The field patterns, piece by piece *)

(** The match of a field pattern, read off the matcher. *)
Lemma field_match key s mr :
  fst (exec (setFieldExpr key) s) = Some mr ->
  exists a w1 w2 v b,
    group 1 mr = Some v /\
    s = a ++ js "set" ++ w1 ++ js key ++ w2 ++ v ++ b /\
    w1 <> [] /\ w2 <> [] /\
    Forall (fun c => isWhiteSpace c = true) (w1 ++ w2) /\
    v <> [] /\ Forall (fun c => isDot c = true) v /\
    (forall c, head b = Some c -> isDot c = false).
Proof.
  intros H. apply exec_matcher in H as (pre1 & s' & st' & -> & H & Hg); [|done].
  set (st0 := MState _ _ _ _) in H.
  change (source (setFieldExpr key)) with
    (Seq (Lit "set") (Seq (Plus ws) (Seq (Lit key) (Seq (Plus ws)
       (Seq (Grp 1 (Plus dot)) Eps))))) in H.
  split_seq H s1 H1. split_seq H s2 H2. split_seq H s3 H3. split_seq H s4 H4.
  change (matcher dot
            (matcher (Star dot)
               (fun st' =>
                  Some (MState (pos st') (prev st') (rest st')
                          (<[1 := Some (consumed s4 st')]> (caps st')))))
            s4 = Some st') in H.
  apply matcher_sound in H as (s5 & H5 & H).
  change (starLoop (matcher (Cls isDot))
            (fun st' =>
               Some (MState (pos st') (prev st') (rest st')
                       (<[1 := Some (consumed s4 st')]> (caps st'))))
            (length (rest s5)) s5 = Some st') in H.
  apply (starLoop_greedy _ _ _ (single_Cls isDot)) in H
    as (a & b & Hr & Ha & Hk & Hmax); [|done].
  injection Hk as <-. cbn [caps] in Hg.
  destruct (after_spec a s5 b Hr) as (Hapos & _ & _ & Hacaps).
  pose proof (run_rest _ _ _ H1) as R1. pose proof (run_rest _ _ _ H2) as R2.
  pose proof (run_rest _ _ _ H3) as R3. pose proof (run_rest _ _ _ H4) as R4.
  pose proof (run_rest _ _ _ H5) as R5.
  rewrite (run_Lit _ _ _ H1) in R1. rewrite (run_Lit _ _ _ H3) in R3.
  destruct (run_Plus_Cls _ _ _ H2) as [N2 W2].
  destruct (run_Plus_Cls _ _ _ H4) as [N4 W4].
  pose proof (consumed_length _ _ _ H5) as L5.
  pose proof (run_caps_length _ _ _ H5) as C5.
  apply run_Cls_inv in H5 as (x & E5 & Hx). rewrite E5 in R5, L5.
  assert (consumed s4 (after s5 a) = x :: a) as Hv.
  { unfold consumed. rewrite R5, Hr, Hapos, L5. simpl.
    replace (pos s4 + 1 + length a - pos s4) with (S (length a)) by lia.
    simpl. by rewrite take_app_length. }
  assert (length (caps s5) = 2) as Hlen.
  { rewrite C5, (run_caps_length _ _ _ H4), (run_caps_length _ _ _ H3),
      (run_caps_length _ _ _ H2), (run_caps_length _ _ _ H1). done. }
  exists pre1, (consumed s1 s2), (consumed s3 s4), (x :: a), b.
  split.
  { rewrite Hg, Hacaps, list_lookup_insert_eq by lia. simpl. by rewrite Hv. }
  split.
  { f_equal. change s' with (rest st0). rewrite R1, R2, R3, R4, R5, Hr.
    by rewrite <- ?(assoc_L (++)). }
  split; [done|]. split; [done|].
  split; [by apply Forall_app|]. split; [done|].
  split; [by apply Forall_cons|].
  intros c Hc. destruct b as [|c' b']; [done|]. injection Hc as ->.
  destruct (isDot c) eqn:Hd; [|done]. exfalso.
  assert (rest s5 = (a ++ [c]) ++ b') as Hr'
    by by rewrite Hr, <- (assoc_L (++)).
  specialize (Hmax (a ++ [c]) b' Hr'). discriminate Hmax.
  - rewrite length_app. simpl. lia.
  - apply Forall_app. split; [done|]. by apply Forall_singleton.
Qed.

Lemma field_matcher key st w1 w2 v b :
  rest st = js "set" ++ w1 ++ js key ++ w2 ++ v ++ b ->
  w1 <> [] -> w2 <> [] -> v <> [] ->
  Forall (fun c => isWhiteSpace c = true) w1 ->
  Forall (fun c => isWhiteSpace c = true) w2 ->
  Forall (fun c => isDot c = true) v ->
  (forall c, head (js key ++ w2 ++ v ++ b) = Some c -> isWhiteSpace c = false) ->
  (forall c, head (v ++ b) = Some c -> isWhiteSpace c = false) ->
  (forall c, head b = Some c -> isDot c = false) ->
  exists st',
    matcher (source (setFieldExpr key)) Some st = Some st' /\
    caps st' = <[1 := Some v]> (caps st).
Proof.
  intros Hr N1 N2 Nv W1 W2 Dv Hk Hv Hb.
  set (s1 := after st (js "set")).
  set (s2 := after s1 w1). set (s3 := after s2 (js key)).
  set (s4 := after s3 w2). set (s5 := after s4 v).
  destruct (after_spec (js "set") st _ Hr) as (_ & _ & R1 & C1). fold s1 in R1, C1.
  destruct (after_spec w1 s1 _ R1) as (_ & _ & R2 & C2). fold s2 in R2, C2.
  destruct (after_spec (js key) s2 _ R2) as (_ & _ & R3 & C3). fold s3 in R3, C3.
  destruct (after_spec w2 s3 _ R3) as (_ & _ & R4 & C4). fold s4 in R4, C4.
  destruct (after_spec v s4 _ R4) as (_ & _ & R5 & C5). fold s5 in R5, C5.
  exists (MState (pos s5) (prev s5) (rest s5)
            (<[1 := Some (consumed s4 s5)]> (caps s5))).
  split.
  - change (source (setFieldExpr key)) with
      (Seq (Lit "set") (Seq (Plus ws) (Seq (Lit key) (Seq (Plus ws)
         (Seq (Grp 1 (Plus dot)) Eps))))).
    change (matcher (Seq (Lit "set") ?r) Some st)
      with (matcher (Cat (Chr <$> js "set")) (matcher r Some) st).
    apply (matcher_Lit_take _ _ _ _ _ Hr). fold s1.
    change (matcher (Seq (Plus ws) ?r) Some s1)
      with (matcher (Plus ws) (matcher r Some) s1).
    apply (matcher_Plus_take isWhiteSpace ws _ _ w1 _ _ (single_Cls _) R1);
      try done. fold s2.
    change (matcher (Seq (Lit key) ?r) Some s2)
      with (matcher (Cat (Chr <$> js key)) (matcher r Some) s2).
    apply (matcher_Lit_take _ _ _ _ _ R2). fold s3.
    change (matcher (Seq (Plus ws) ?r) Some s3)
      with (matcher (Plus ws) (matcher r Some) s3).
    apply (matcher_Plus_take isWhiteSpace ws _ _ w2 _ _ (single_Cls _) R3);
      try done. fold s4.
    change (matcher (Seq (Grp 1 (Plus dot)) Eps) Some s4)
      with (matcher (Plus dot)
              (fun st' =>
                 Some (MState (pos st') (prev st') (rest st')
                         (<[1 := Some (consumed s4 st')]> (caps st')))) s4).
    apply (matcher_Plus_take isDot dot _ _ v _ _ (single_Cls _) R4);
      try done.
  - cbn [caps]. pose proof (consumed_after s4 v b R4) as Hc. fold s5 in Hc.
    by rewrite Hc, C5, C4, C3, C2, C1.
Qed.

(** What a successful run of a field pattern needs of the text. *)
Lemma field_run key st st' :
  run (source (setFieldExpr key)) st st' ->
  exists w1 R,
    rest st = js "set" ++ w1 ++ js key ++ R /\
    Forall (fun c => isWhiteSpace c = true) w1.
Proof.
  change (source (setFieldExpr key)) with
    (Seq (Lit "set") (Seq (Plus ws) (Seq (Lit key) (Seq (Plus ws)
       (Seq (Grp 1 (Plus dot)) Eps))))).
  intros H.
  apply run_Seq_inv in H as (s1 & H1 & H).
  apply run_Seq_inv in H as (s2 & H2 & H).
  apply run_Seq_inv in H as (s3 & H3 & H).
  pose proof (run_rest _ _ _ H1) as R1. pose proof (run_rest _ _ _ H2) as R2.
  pose proof (run_rest _ _ _ H3) as R3.
  rewrite (run_Lit _ _ _ H1) in R1. rewrite (run_Lit _ _ _ H3) in R3.
  destruct (run_Plus_Cls _ _ _ H2) as [_ W].
  exists (consumed s1 s2), (rest s3). split; [|done].
  by rewrite R1, R2, R3.
Qed.

Lemma search_skip r n pre : forall p s idx,
  (forall i, i < length pre ->
     matchAt r n (prevAfter (take i pre) p) (drop i (pre ++ s)) (idx + i)
     = None) ->
  search r n p (pre ++ s) idx =
  search r n (prevAfter pre p) s (idx + length pre).
Proof.
  induction pre as [|x pre IH]; intros p s idx H.
  - simpl. by rewrite Nat.add_0_r.
  - pose proof (H 0 ltac:(simpl; lia)) as H0.
    rewrite Nat.add_0_r in H0. simpl in H0.
    cbn [app search]. rewrite H0. cbn [prevAfter length].
    rewrite IH; [f_equal; lia|].
    intros i Hi. specialize (H (S i) ltac:(simpl; lia)).
    simpl in H. by replace (S idx + i) with (idx + S i) by lia.
Qed.

Lemma search_here r n p s idx mr :
  matchAt r n p s idx = Some mr -> search r n p s idx = Some mr.
Proof. intros H. destruct s; simpl; by rewrite H. Qed.

(** Before the first occurrence of its key a field pattern finds nothing:
    the [t] of the line's own [set] would have to be white space. *)
Lemma field_not_before key pre w1 T i p idx :
  head (indicesOf (js key) (pre ++ js "set" ++ w1 ++ js key ++ T))
    = Some (length (pre ++ js "set" ++ w1)) ->
  i < length pre ->
  matchAt (source (setFieldExpr key)) 1 p
    (drop i (pre ++ js "set" ++ w1 ++ js key ++ T)) idx = None.
Proof.
  set (s := pre ++ js "set" ++ w1 ++ js key ++ T). intros Hfirst Hi.
  destruct (matchAt _ _ _ _ _) as [mr|] eqn:E; [|done]. exfalso.
  apply matchAt_Some in E as (st' & Hrun & _).
  apply field_run in Hrun as (w1' & R & Hr & Hw). cbn [rest] in Hr.
  assert (length s = length pre + length (js "set" ++ w1 ++ js key ++ T))
    as Hlen by (unfold s; by rewrite length_app).
  assert (s = (take i s ++ js "set" ++ w1') ++ js key ++ R) as Hs.
  { rewrite <- (take_drop i s) at 1. rewrite Hr.
    by rewrite <- !(assoc_L (++)). }
  assert (length (take i s ++ js "set" ++ w1') ∈ indicesOf (js key) s) as Hin.
  { rewrite Hs at 2. apply indicesOf_elem. }
  apply (indicesFrom_head_le _ _ _ _ _ Hfirst) in Hin.
  rewrite !length_app, length_take in Hin.
  change (length (js "set")) with 3 in Hin.
  assert (s !! (length pre + 2) = Some 116%N) as H1.
  { unfold s. rewrite lookup_app_r by lia.
    replace (length pre + 2 - length pre) with 2 by lia. done. }
  assert (exists c, s !! (length pre + 2) = Some c /\ isWhiteSpace c = true)
    as (c & H2 & Hc).
  { rewrite Hs, <- !(assoc_L (++)).
    rewrite lookup_app_r by (rewrite length_take; lia).
    rewrite length_take.
    rewrite lookup_app_r by (change (length (js "set")) with 3; lia).
    change (length (js "set")) with 3.
    rewrite lookup_app_l by lia.
    destruct (w1' !! (length pre + 2 - i `min` length s - 3)) as [c|] eqn:El.
    - exists c. split; [done|]. by apply (Forall_lookup_1 _ _ _ _ Hw El).
    - apply lookup_ge_None in El. lia. }
  rewrite H1 in H2. injection H2 as <-. done.
Qed.

Lemma keys_plain key t c :
  key = "sync-interface" \/ key = "psksecret" \/ key = "admin-sport" ->
  head (js key ++ t) = Some c -> isWhiteSpace c = false.
Proof. by intros [->|[->| ->]] [= <-]. Qed.

Lemma execField_null key : execField key JNull = JNull.
Proof.
  unfold execField. destruct (fst (exec _ _)) as [mr|] eqn:E; [|done].
  apply field_match in E as (a & w1 & w2 & v & b & _ & E & _).
  exfalso. change (toString JNull) with (js "null") in E.
  assert (length (js "null") = length (a ++ js "set" ++ w1 ++ js key ++ w2 ++ v ++ b))
    as Hl by by rewrite <- E.
  rewrite !length_app in Hl.
  assert (Hs : startsWith (js "set") (drop (length a) (js "null")) = true).
  { rewrite E, drop_app_length. apply startsWith_app. }
  change (length (js "null")) with 4 in Hl. change (length (js "set")) with 3 in Hl.
  destruct (length a) as [|[|n]]; try done. lia.
Qed.

Lemma execField_value key section v :
  execField key section = JString v -> valueOfLine key v (toString section).
Proof.
  unfold execField.
  destruct (fst (exec _ _)) as [mr|] eqn:E; [|done].
  apply field_match in E as (a & w1 & w2 & v' & b & Hg & E).
  simpl. rewrite Hg. intros [= <-]. by exists a, w1, w2, b.
Qed.

(** ** What [replace] leaves in [lastIndex] *)

Lemma exec_global_None rx s rx' :
  global rx = true -> exec rx s = (None, rx') -> rx' = setLastIndex 0 rx.
Proof.
  intros Hg. unfold exec. rewrite Hg.
  destruct (_ <? _); [by intros [= <-]|].
  destruct (search _ _ _ _ _); [done|]. by intros [= <-].
Qed.

Lemma collect_lastIndex s fuel : forall rx,
  global rx = true ->
  1 <= fuel -> length s + 2 - lastIndex rx <= fuel ->
  snd (collect fuel rx s) = setLastIndex 0 rx.
Proof.
  induction fuel as [|fuel IH]; intros rx Hg Hpos Hfuel; [lia|].
  rewrite collect_S.
  destruct (exec rx s) as [[mr|] rx'] eqn:E.
  - apply exec_global_Some in E as (H1 & H2 & H3 & ->); [|done].
    cbn [global setLastIndex]. rewrite Hg. cbv zeta.
    destruct (collect fuel _ s) as [ms rxf] eqn:Ec. cbn [snd].
    change rxf with (snd (ms, rxf)). rewrite <- Ec.
    rewrite IH.
    + by destruct (matched mr).
    + by destruct (matched mr).
    + lia.
    + destruct (matched mr) as [|x m] eqn:Em; simpl.
      * lia.
      * assert (endIndex mr <> index mr) by (rewrite <- H3; done). lia.
  - by apply exec_global_None in E.
Qed.

Lemma replace_lastIndex s rx repl :
  global rx = true -> snd (replace s rx repl) = setLastIndex 0 rx.
Proof.
  intros Hg. unfold replace. rewrite Hg.
  destruct (collect _ _ s) as [ms rxf] eqn:Ec. cbn [snd].
  change rxf with (snd (ms, rxf)). rewrite <- Ec.
  rewrite collect_lastIndex; [done|done|lia|simpl; lia].
Qed.

Lemma search_literal_none chars n s : forall p idx,
  includes chars s = false -> search (Cat (Chr <$> chars)) n p s idx = None.
Proof.
  induction s as [|x s IH]; intros p idx; simpl; rewrite matchAt_literal.
  - rewrite orb_false_r. by intros ->.
  - intros [-> H]%orb_false_elim. by apply IH.
Qed.

(** A pattern without the [g] flag that finds nothing leaves the text as
    it is, whatever the replacement. *)
Lemma replace_no_match s rx repl :
  global rx = false -> fst (exec rx s) = None -> fst (replace s rx repl) = s.
Proof.
  intros Hg He. unfold replace. rewrite Hg.
  replace (length s + 2) with (S (length s + 1)) by lia.
  rewrite collect_S. destruct (exec rx s) as [[mr|] rx']; [done|].
  simpl. by rewrite drop_0.
Qed.

Lemma startsWith_longer p x y :
  length p <= length x -> startsWith p (x ++ y) = startsWith p x.
Proof.
  revert x. induction p as [|c p IH]; intros [|a x] Hl; simpl in *;
    try done; try lia.
  rewrite IH by lia. done.
Qed.

Lemma substituteFirst_skip token z text pre post :
  includes (token ++ [z]) (pre ++ token) = false ->
  substituteFirst (token ++ [z]) text (pre ++ (token ++ [z]) ++ post) =
  pre ++ text ++ post.
Proof.
  induction pre as [|c pre IH]; intros H.
  - cbn [app]. destruct (token ++ [z]) as [|t l] eqn:E.
    { by destruct token. }
    cbn [app substituteFirst].
    change (t :: l ++ post) with ((t :: l) ++ post).
    by rewrite startsWith_app, drop_app_length.
  - cbn [app includes] in H. apply orb_false_elim in H as [H1 H2].
    cbn [app substituteFirst].
    replace (c :: pre ++ (token ++ [z]) ++ post)
      with ((c :: pre ++ token) ++ ([z] ++ post))
      by (simpl; by rewrite <- !(assoc_L (++))).
    rewrite startsWith_longer, H1.
    + replace ((c :: pre ++ token) ++ [z] ++ post)
        with (c :: (pre ++ (token ++ [z]) ++ post))
        by (simpl; by rewrite <- !(assoc_L (++))).
      f_equal. by apply IH.
    + simpl. rewrite !length_app. simpl. lia.
Qed.

(** ** JSON text of several properties read back *)

Lemma stringify_written props :
  omap (fun '(key, v) =>
          (fun t => quoteJSONString (js key) ++ js ":" ++ t)
            <$> serializeJSONProperty v) props
  = memberText <$> written props.
Proof.
  induction props as [|[key v] props IH]; [done|].
  destruct v as [| |s]; [exact IH| |].
  - exact (f_equal (cons (memberText (js key, JNull))) IH).
  - exact (f_equal (cons (memberText (js key, JString s))) IH).
Qed.

Lemma written_defined props m : m ∈ written props -> snd m <> JUndefined.
Proof.
  induction props as [|[key v] props IH]; simpl.
  - by intros ?%elem_of_nil.
  - destruct v; simpl; try done.
    + intros [->|?]%elem_of_cons; [done|by apply IH].
    + intros [->|?]%elem_of_cons; [done|by apply IH].
Qed.

Lemma parseJSONValue_text v r :
  v <> JUndefined ->
  parseJSONValue (default [] (serializeJSONProperty v) ++ r) = Some (v, r).
Proof.
  intros Hv. destruct v as [| |s]; [done|done|].
  change (default [] (serializeJSONProperty (JString s)))
    with (quoteJSONString s).
  unfold parseJSONValue.
  change (startsWith (js "null") (quoteJSONString s ++ r)) with false.
  cbv iota. by rewrite parseJSONString_quote.
Qed.

Lemma joinWith_cons sep x y l :
  joinWith sep (x :: y :: l) = x ++ sep ++ joinWith sep (y :: l).
Proof. done. Qed.

Lemma memberText_cons m : exists c t, memberText m = c :: t.
Proof. unfold memberText, quoteJSONString. simpl. eauto. Qed.

Lemma memberText_cons2 m : exists c d t, memberText m = c :: d :: t.
Proof.
  unfold memberText, quoteJSONString. simpl.
  destruct (quoteJSONChars m.1); simpl; eauto.
Qed.

Lemma joinWith_memberText_cons sep m ms r :
  exists c t, joinWith sep (memberText <$> m :: ms) ++ r = c :: t.
Proof.
  destruct (memberText_cons m) as (c & t & E).
  destruct ms as [|m' ms].
  - change (memberText <$> [m]) with [memberText m]. cbn [joinWith].
    rewrite E. simpl. eauto.
  - change (memberText <$> m :: m' :: ms)
      with (memberText m :: memberText m' :: (memberText <$> ms)).
    rewrite joinWith_cons, E. simpl. eauto.
Qed.

Lemma parseJSONMembers_join ms : forall fuel,
  ms <> [] -> Forall (fun m => snd m <> JUndefined) ms ->
  length ms <= fuel ->
  parseJSONMembers fuel (joinWith (js ",") (memberText <$> ms) ++ js "}")
  = Some ms.
Proof.
  induction ms as [|[key v] ms IH]; intros fuel Hne Hdef Hfuel; [done|].
  apply Forall_cons in Hdef as [Hv Hdef]. simpl in Hv.
  destruct fuel as [|fuel]; [simpl in Hfuel; lia|].
  destruct ms as [|m' ms'].
  - cbn [fmap list_fmap joinWith parseJSONMembers]. unfold memberText.
    cbn [fst snd]. rewrite <- !(assoc_L (++)).
    rewrite parseJSONString_quote.
    change (js ":") with [58%N]. change (js "}") with [125%N].
    cbn [mbind option_bind app].
    rewrite N.eqb_refl, parseJSONValue_text by done.
    cbn [mbind option_bind]. by rewrite N.eqb_refl.
  - change (memberText <$> (key, v) :: m' :: ms')
      with (memberText (key, v) :: memberText m' :: (memberText <$> ms')).
    rewrite joinWith_cons.
    change (memberText m' :: (memberText <$> ms'))
      with (memberText <$> m' :: ms').
    cbn [parseJSONMembers].
    unfold memberText at 1. cbn [fst snd]. rewrite <- !(assoc_L (++)).
    rewrite parseJSONString_quote.
    change (js ":") with [58%N]. change (js ",") with [44%N].
    cbn [mbind option_bind app].
    rewrite N.eqb_refl, parseJSONValue_text by done.
    cbn [mbind option_bind app].
    destruct (joinWith_memberText_cons [44%N] m' ms' (js "}"))
      as (c & t & Et).
    rewrite Et. rewrite N.eqb_refl. rewrite <- Et.
    rewrite IH; [done|done|done|simpl in *; lia].
Qed.

Lemma length_joinWith_memberText sep l :
  length l <= length (joinWith sep (memberText <$> l)).
Proof.
  induction l as [|x l IH]; [done|].
  destruct (memberText_cons x) as (c & t & E).
  destruct l as [|y l].
  - change (memberText <$> [x]) with [memberText x]. cbn [joinWith].
    rewrite E. simpl. lia.
  - change (memberText <$> x :: y :: l)
      with (memberText x :: (memberText <$> y :: l)) in *.
    change (memberText <$> y :: l)
      with (memberText y :: (memberText <$> l)) in *.
    rewrite joinWith_cons, E, !length_app. simpl in *. lia.
Qed.

(** Whatever [JSON_stringify] writes reads back as the properties that
    have a value, in order. *)
Lemma JSON_parse_stringify props :
  JSON_parse (JSON_stringify props) = Some (written props).
Proof.
  unfold JSON_stringify. rewrite stringify_written.
  pose proof (written_defined props) as Hdef.
  destruct (written props) as [|m ms] eqn:E; [done|].
  set (t := joinWith (js ",") (memberText <$> m :: ms) ++ js "}").
  assert (parseJSONMembers (length t) t = Some (m :: ms)) as Hm.
  { apply parseJSONMembers_join; [done| |].
    - apply Forall_forall. intros x Hx. by apply Hdef.
    - unfold t. rewrite length_app.
      pose proof (length_joinWith_memberText (js ",") (m :: ms)). lia. }
  unfold JSON_parse. change (js "{") with [123%N]. cbn [app].
  rewrite N.eqb_refl. fold t. rewrite <- Hm.
  assert (exists c d u, t = c :: d :: u) as (c & d & u & ->); [|done].
  unfold t. destruct (memberText_cons2 m) as (c & d & u & Em).
  destruct ms as [|m' ms].
  - change (memberText <$> [m]) with [memberText m]. cbn [joinWith].
    rewrite Em. simpl. eauto.
  - change (memberText <$> m :: m' :: ms)
      with (memberText m :: memberText m' :: (memberText <$> ms)).
    rewrite joinWith_cons, Em. simpl. eauto.
Qed.

(** ** getSlaveConfig: its error, its values, its traces *)

Section SlaveConfigMore.
Context {St V : Type}.
Implicit Types (this : AutoscaleHandler St V) (masterIp callbackUrl : jsval).

(** Without a section there is no secret. *)
Lemma getSlaveConfig_no_section this masterIp callbackUrl i j :
  fst (autoScaleSectionOf (moduleLoaded i j) (_baseConfig this)) = JNull ->
  fst (getSlaveConfig this masterIp callbackUrl (moduleLoaded i j)) =
  Throw
    (Error
       (js "Base config is invalid (psksecret is missing): " ++
        JSON_stringify
          [("syncInterface", JNull); ("apiEndpoint", callbackUrl);
           ("masterIp", masterIp); ("pskSecret", JNull)])).
Proof.
  rewrite getSlaveConfig_fst, (autoScaleSectionOf_lastIndex i j). cbv zeta.
  intros ->. rewrite !execField_null.
  cbn [truthy andb]. unfold invalidMessage. cbn [truthy].
  by destruct (truthy callbackUrl), (truthy masterIp).
Qed.

(** X1.  A base config in which the words [auto-scale] or the word [end]
    do not occur, the empty one among them, has no section to read:
    whatever the master ip and the callback url are, [getSlaveConfig]
    throws the error that names the psksecret, with [null] for the
    interface and for the secret in its detail. *)
Theorem getSlaveConfig_without_section this masterIp callbackUrl i j :
  includes (js "auto-scale") (_baseConfig this) = false \/
  includes (js "end") (_baseConfig this) = false ->
  fst (getSlaveConfig this masterIp callbackUrl (moduleLoaded i j)) =
  Throw
    (Error
       (js "Base config is invalid (psksecret is missing): " ++
        JSON_stringify
          [("syncInterface", JNull); ("apiEndpoint", callbackUrl);
           ("masterIp", masterIp); ("pskSecret", JNull)])).
Proof.
  intros Hno.
  assert (fst (autoScaleSectionOf (moduleLoaded 0 0) (_baseConfig this))
          = JNull) as Hsec.
  { destruct (autoScaleSection_cases 0 0 (_baseConfig this))
      as [E|(sec & mr & _ & Hm & _)]; [done|]. exfalso.
    destruct (section_match _ _ _ _ Hm)
      as (pre & w0 & g & w1 & m & w2 & w3 & sec' & post & _ & Hb & _).
    destruct Hno as [Hno|Hno]; rewrite Hb in Hno.
    - rewrite !(assoc_L (++) _ _ (js "auto-scale" ++ _)) in Hno.
      by rewrite includes_middle in Hno.
    - rewrite !(assoc_L (++) _ _ (js "end" ++ _)) in Hno.
      by rewrite includes_middle in Hno. }
  rewrite getSlaveConfig_fst. cbv zeta. rewrite Hsec, !execField_null.
  cbn [truthy andb]. unfold invalidMessage. cbn [truthy].
  by destruct (truthy callbackUrl), (truthy masterIp).
Qed.

(** X2.  A section does not reach over a CR, LS or PS.  When one of them
    ends the first line of the section, as in a base config whose lines end
    in CR LF, and no [end] stands in that line, the section pattern finds
    nothing at all: [getSlaveConfig] throws the error that names the
    psksecret, whatever the lines behind hold. *)
Theorem getSlaveConfig_line_break this masterIp callbackUrl i j pre w t c
    rest' :
  _baseConfig this = pre ++ js "auto-scale" ++ w ++ t ++ [c] ++ rest' ->
  indicesOf (js "auto-scale") (_baseConfig this) = [length pre] ->
  Forall (fun x => isWhiteSpace x = true) w ->
  (exists x, head t = Some x /\ isWhiteSpace x = false) ->
  includes (js "end") t = false ->
  c = 13%N \/ c = 8232%N \/ c = 8233%N ->
  fst (getSlaveConfig this masterIp callbackUrl (moduleLoaded i j)) =
  Throw
    (Error
       (js "Base config is invalid (psksecret is missing): " ++
        JSON_stringify
          [("syncInterface", JNull); ("apiEndpoint", callbackUrl);
           ("masterIp", masterIp); ("pskSecret", JNull)])).
Proof.
  intros Hb Hone Hw Ht Hend Hc. apply getSlaveConfig_no_section.
  rewrite Hb in Hone |- *.
  apply section_none_before_break; try done.
  by destruct Hc as [->|[->| ->]].
Qed.

(** X3.  The message of the error names one missing value: the psksecret
    when the section has none, else the master ip when that is absent or
    empty, else the callback url.  Behind the message stands JSON text that
    reads back as the interface found (or [null]), the callback url and the
    master ip as they were passed (left out when [undefined]), and in the
    place of the secret the word [string], or [null] when there is none. *)
Theorem getSlaveConfig_error_message this masterIp callbackUrl i j e :
  let section :=
    fst (autoScaleSectionOf (moduleLoaded i j) (_baseConfig this)) in
  let secretFound := test (setFieldExpr "psksecret") (toString section) in
  fst (getSlaveConfig this masterIp callbackUrl (moduleLoaded i j)) = Throw e ->
  exists detail,
    e = Error
          (js "Base config is invalid (" ++
           (if negb secretFound then js "psksecret is missing"
            else if negb (truthy masterIp) then js "Master ip is missing"
            else js "Api endpoint is missing") ++ js "): " ++ detail) /\
    JSON_parse detail =
      Some
        ([(js "syncInterface", execField "sync-interface" section)] ++
         match callbackUrl with
         | JUndefined => []
         | _ => [(js "apiEndpoint", callbackUrl)]
         end ++
         match masterIp with
         | JUndefined => []
         | _ => [(js "masterIp", masterIp)]
         end ++
         [(js "pskSecret",
           if secretFound then JString (js "string") else JNull)]).
Proof.
  intros section secretFound. subst section secretFound. cbv beta.
  rewrite getSlaveConfig_fst, (autoScaleSectionOf_lastIndex i j). cbv zeta.
  set (sec := fst (autoScaleSectionOf _ _)).
  rewrite <- (truthy_execField "psksecret" sec).
  destruct (truthy (execField "psksecret" sec) && truthy callbackUrl
            && truthy masterIp) eqn:Hvalid; [done|].
  intros [= <-].
  exists (JSON_stringify
            [("syncInterface", execField "sync-interface" sec);
             ("apiEndpoint", callbackUrl); ("masterIp", masterIp);
             ("pskSecret",
               if truthy (execField "psksecret" sec)
               then JString (js "string")
               else execField "psksecret" sec)]).
  split.
  - unfold invalidMessage.
    by destruct (truthy (execField "psksecret" sec)), (truthy masterIp),
      (truthy callbackUrl).
  - rewrite JSON_parse_stringify.
    destruct (execField_cases "sync-interface" sec) as [Es|(x & v & Es & _)],
      (execField_cases "psksecret" sec) as [Ep|(y & w & Ep & _)];
      rewrite Es, Ep; by destruct callbackUrl, masterIp.
Qed.

(** X4.  Every value that a returned config carries from the base config
    is the value of a line of the section: the psksecret always, the
    interface and the admin port unless they are the defaults [port1] and
    [8443].  Such a value stands behind [set], the key and white space, is
    not empty, has no line terminator in it and runs to the end of its
    line. *)
Theorem getSlaveConfig_values this masterIp callbackUrl i j config :
  fst (getSlaveConfig this masterIp callbackUrl (moduleLoaded i j))
    = Normal config ->
  exists section syncInterface pskSecret adminPort,
    fst (autoScaleSectionOf (moduleLoaded i j) (_baseConfig this))
      = JString section /\
    config =
      slaveConfigText syncInterface (toString masterIp)
        (toString callbackUrl) pskSecret adminPort /\
    valueOfLine "psksecret" pskSecret section /\
    (syncInterface = js "port1" \/
     valueOfLine "sync-interface" syncInterface section) /\
    (adminPort = js "8443" \/ valueOfLine "admin-sport" adminPort section).
Proof.
  rewrite getSlaveConfig_fst, (autoScaleSectionOf_lastIndex i j). cbv zeta.
  destruct (autoScaleSection_cases 0 0 (_baseConfig this))
    as [E|(sec & mr & E & _)]; rewrite E.
  { by rewrite !execField_null. }
  destruct (execField_cases "psksecret" (JString sec))
    as [Ep|(y & w & Ep & _)]; rewrite Ep; [done|].
  destruct (truthy _ && _ && _); [|done]. intros [= <-].
  exists sec. do 3 eexists. split; [done|]. split; [reflexivity|].
  split; [by apply (execField_value "psksecret" (JString sec))|].
  split.
  - destruct (execField_cases "sync-interface" (JString sec))
      as [Es|(x & v & Es & _)]; rewrite Es; [by left|right].
    by apply (execField_value "sync-interface" (JString sec)).
  - destruct (execField_cases "admin-sport" (JString sec))
      as [Es|(x & v & Es & _)]; rewrite Es; [by left|right].
    by apply (execField_value "admin-sport" (JString sec)).
Qed.

(** X5.  What [getSlaveConfig] leaves in the RegExp objects of the module:
    the section pattern has no [g] flag and keeps its [lastIndex]; the
    secret pattern has its [lastIndex] at 0 after a call that returns,
    whatever it was before, and untouched after a call that throws. *)
Theorem getSlaveConfig_lastIndex this masterIp callbackUrl i j :
  snd (getSlaveConfig this masterIp callbackUrl (moduleLoaded i j)) =
  moduleLoaded i
    match fst (getSlaveConfig this masterIp callbackUrl (moduleLoaded i j))
    with
    | Normal _ => 0
    | Throw _ => j
    end.
Proof.
  unfold getSlaveConfig, autoScaleSectionOf.
  change (exec (sectionExpr (moduleLoaded i j)) (_baseConfig this))
    with (search (source AUTOSCALE_SECTION_EXPR) 1 None (_baseConfig this) 0,
          sectionExpr (moduleLoaded i j)).
  cbv zeta. cbn [fst snd sectionExpr secretExpr].
  destruct (negb _ || negb _ || negb _); [done|].
  destruct (replace _ _ _) as [r rx2] eqn:E. cbn [fst snd].
  change rx2 with (snd (r, rx2)). rewrite <- E.
  by rewrite replace_lastIndex.
Qed.

End SlaveConfigMore.

(** The empty base config. *)
Lemma getSlaveConfig_without_section_witness :
  let this : AutoscaleHandler unit unit :=
    newAutoscaleHandler (abstractCloudPlatform _ _) [] in
  fst (getSlaveConfig this (JString (js "10.0.0.5"))
         (JString (js "https://cb")) (moduleLoaded 0 0)) =
  Throw
    (Error
       (js "Base config is invalid (psksecret is missing): " ++
        JSON_stringify
          [("syncInterface", JNull);
           ("apiEndpoint", JString (js "https://cb"));
           ("masterIp", JString (js "10.0.0.5")); ("pskSecret", JNull)])).
Proof.
  intros this.
  apply (getSlaveConfig_without_section this). left. reflexivity.
Defined.

(** The base config that sets nothing but the secret, with CR LF at the
    end of its lines. *)
Lemma getSlaveConfig_line_break_witness :
  let base :=
    js "config system auto-scale" ++ [13; 10]%N ++
    js "    set psksecret abc123" ++ [13; 10]%N ++ js "end" ++ [13; 10]%N in
  let this : AutoscaleHandler unit unit :=
    newAutoscaleHandler (abstractCloudPlatform _ _) base in
  fst (getSlaveConfig this (JString (js "10.0.0.5"))
         (JString (js "https://cb")) (moduleLoaded 0 0)) =
  Throw
    (Error
       (js "Base config is invalid (psksecret is missing): " ++
        JSON_stringify
          [("syncInterface", JNull);
           ("apiEndpoint", JString (js "https://cb"));
           ("masterIp", JString (js "10.0.0.5")); ("pskSecret", JNull)])).
Proof.
  intros base this.
  apply (getSlaveConfig_line_break this _ _ 0 0 (js "config system ")
           ([13; 10]%N ++ js "    ") (js "set psksecret abc123") 13%N
           ([10%N] ++ js "end" ++ [13; 10]%N)).
  - reflexivity.
  - by vm_compute.
  - by repeat constructor.
  - by exists 115%N.
  - by vm_compute.
  - by left.
Defined.

(** A secret in the section, no master ip and an empty callback url: the
    master ip is what the message names. *)
Lemma getSlaveConfig_error_message_witness :
  let this : AutoscaleHandler unit unit :=
    newAutoscaleHandler (abstractCloudPlatform _ _) exampleBaseConfig in
  let e :=
    Error
      (js "Base config is invalid (Master ip is missing): " ++
       JSON_stringify
         [("syncInterface", JString (js "port3"));
          ("apiEndpoint", JString []);
          ("pskSecret", JString (js "string"))]) in
  fst (getSlaveConfig this JUndefined (JString []) (moduleLoaded 0 0))
    = Throw e /\
  exists detail,
    e = Error
          (js "Base config is invalid (" ++ js "Master ip is missing" ++
           js "): " ++ detail) /\
    JSON_parse detail =
      Some [(js "syncInterface", JString (js "port3"));
            (js "apiEndpoint", JString []);
            (js "pskSecret", JString (js "string"))].
Proof.
  intros this e.
  assert (fst (getSlaveConfig this JUndefined (JString []) (moduleLoaded 0 0))
          = Throw e) as H by by vm_compute.
  split; [exact H|].
  destruct (getSlaveConfig_error_message this JUndefined (JString []) 0 0 e H)
    as (detail & He & Hd).
  exists detail. split.
  - rewrite He. by vm_compute.
  - rewrite Hd. by vm_compute.
Defined.

(** The base config that sets nothing but the secret. *)
Lemma getSlaveConfig_values_witness :
  let this : AutoscaleHandler unit unit :=
    newAutoscaleHandler (abstractCloudPlatform _ _) minimalBaseConfig in
  let masterIp := JString (js "10.0.0.5") in
  let callbackUrl := JString (js "https://cb") in
  let config :=
    slaveConfigText (js "port1") (js "10.0.0.5") (js "https://cb")
      (js "abc123") (js "8443") in
  fst (getSlaveConfig this masterIp callbackUrl (moduleLoaded 0 0))
    = Normal config /\
  exists section syncInterface pskSecret adminPort,
    fst (autoScaleSectionOf (moduleLoaded 0 0) (_baseConfig this))
      = JString section /\
    config =
      slaveConfigText syncInterface (toString masterIp)
        (toString callbackUrl) pskSecret adminPort /\
    valueOfLine "psksecret" pskSecret section /\
    (syncInterface = js "port1" \/
     valueOfLine "sync-interface" syncInterface section) /\
    (adminPort = js "8443" \/ valueOfLine "admin-sport" adminPort section).
Proof.
  intros this masterIp callbackUrl config.
  split; [by vm_compute|].
  apply (getSlaveConfig_values this masterIp callbackUrl 0 0 config).
  by vm_compute.
Defined.

(** X6.  In a section whose first occurrence of a key is in a line
    [set <key> <value>], with white space between the words, a value that
    starts with something else than white space and, behind the value, the
    end of the line or of the text, the field pattern of the key finds that
    line and the whole of its value. *)
Theorem execField_first_line key pre w1 w2 v b :
  key = "sync-interface" \/ key = "psksecret" \/ key = "admin-sport" ->
  head (indicesOf (js key) (pre ++ js "set" ++ w1 ++ js key ++ w2 ++ v ++ b))
    = Some (length (pre ++ js "set" ++ w1)) ->
  w1 <> [] -> w2 <> [] ->
  Forall (fun c => isWhiteSpace c = true) (w1 ++ w2) ->
  (exists c, head v = Some c /\ isWhiteSpace c = false) ->
  Forall (fun c => isDot c = true) v ->
  (forall c, head b = Some c -> isDot c = false) ->
  execField key (JString (pre ++ js "set" ++ w1 ++ js key ++ w2 ++ v ++ b))
  = JString v.
Proof.
  intros Hkey Hfirst N1 N2 [W1 W2]%Forall_app (c & Hc & Hcw) Dv Hb.
  unfold execField, exec. cbn [toString setFieldExpr global fst].
  change (Cat [Lit "set"; Plus ws; Lit key; Plus ws; Grp 1 (Plus dot)])
    with (source (setFieldExpr key)).
  rewrite search_skip.
  2:{ intros i Hi. by apply field_not_before. }
  set (st := MState (0 + length pre) (prevAfter pre None)
               (js "set" ++ w1 ++ js key ++ w2 ++ v ++ b)
               (replicate 2 None)).
  destruct (field_matcher key st w1 w2 v b) as (st' & Hm & Hcaps);
    try done.
  { by destruct v. }
  { intros c'. by apply keys_plain. }
  { intros c'. destruct v as [|x v]; [done|]. simpl in *. congruence. }
  rewrite (search_here _ _ _ _ _
             (MatchResult (0 + length pre) (pos st')
                (<[0 := Some (consumed st st')]> (caps st')))).
  - unfold firstGroup, group. cbn [groups].
    rewrite list_lookup_insert_ne by done. rewrite Hcaps. done.
  - unfold matchAt. cbv zeta. change (ngroups (setFieldExpr key)) with 1.
    fold st. by rewrite Hm.
Qed.

(** The secret behind two other lines. *)
Lemma execField_first_line_witness :
  let pre :=
    jsLines ["set status enable"; "    set sync-interface port3"; "    "] in
  execField "psksecret"
    (JString (pre ++ js "set" ++ js " " ++ js "psksecret" ++ js " " ++
              js "abc123" ++ [10%N]))
  = JString (js "abc123").
Proof.
  intros pre.
  apply (execField_first_line "psksecret" pre (js " ") (js " ") (js "abc123")
           [10%N]).
  - right. by left.
  - by vm_compute.
  - done.
  - done.
  - by repeat constructor.
  - by exists 97%N.
  - by repeat constructor.
  - by intros c [= <-].
Defined.

(** ** The section of the base config *)

(** X7.  Where the section that [getSlaveConfig] reads lies in the base
    config: behind a header that starts the text or a line and reads
    [confi], an optional [g], [syste], an optional [m] and [auto-scale],
    with any white space or none between and behind the words, and before a
    whole word [end].  The section has no CR, LS or PS in it. *)
Theorem autoScaleSection_position i j base sec :
  fst (autoScaleSectionOf (moduleLoaded i j) base) = JString sec ->
  exists pre w0 g w1 m w2 w3 post,
    base = pre ++ w0 ++ js "confi" ++ g ++ w1 ++ js "syste" ++ m ++ w2 ++
           js "auto-scale" ++ w3 ++ sec ++ js "end" ++ post /\
    (pre = [] \/ last pre = Some 10%N) /\
    Forall (fun c => isWhiteSpace c = true) (w0 ++ w1 ++ w2 ++ w3) /\
    (g = [] \/ g = js "g") /\ (m = [] \/ m = js "m") /\
    Forall (fun c => isDot c || N.eqb c 10 = true) sec /\
    isWordAt (last (js "auto-scale" ++ w3 ++ sec)) = false /\
    isWordAt (head post) = false.
Proof.
  intros (mr & Hm & Hg)%autoScaleSection_match.
  destruct (section_match _ _ _ _ Hm)
    as (pre & w0 & g & w1 & m & w2 & w3 & sec' & post & Hg' & Hb & H1 & H2
        & H3 & H4 & H5 & H6 & H7 & _).
  assert (sec' = sec) as -> by congruence.
  exists pre, w0, g, w1, m, w2, w3, post. done.
Qed.

(** The section of the base config that sets nothing but the secret. *)
Lemma autoScaleSection_position_witness :
  let sec := js "set psksecret abc123" ++ [10%N] in
  fst (autoScaleSectionOf (moduleLoaded 0 0) minimalBaseConfig) = JString sec /\
  exists pre w0 g w1 m w2 w3 post,
    minimalBaseConfig =
      pre ++ w0 ++ js "confi" ++ g ++ w1 ++ js "syste" ++ m ++ w2 ++
      js "auto-scale" ++ w3 ++ sec ++ js "end" ++ post /\
    (pre = [] \/ last pre = Some 10%N) /\
    Forall (fun c => isWhiteSpace c = true) (w0 ++ w1 ++ w2 ++ w3) /\
    (g = [] \/ g = js "g") /\ (m = [] \/ m = js "m") /\
    Forall (fun c => isDot c || N.eqb c 10 = true) sec /\
    isWordAt (last (js "auto-scale" ++ w3 ++ sec)) = false /\
    isWordAt (head post) = false.
Proof.
  intros sec. split; [by vm_compute|].
  apply (autoScaleSection_position 0 0 minimalBaseConfig sec).
  by vm_compute.
Defined.

(** X8.  The section reaches as far as it can: behind the [end] that closes
    it no whole word [end] stands that could be reached without a CR, LS
    or PS in between. *)
Theorem autoScaleSection_last_end i j base sec :
  fst (autoScaleSectionOf (moduleLoaded i j) base) = JString sec ->
  exists pre post,
    base = pre ++ sec ++ js "end" ++ post /\
    forall more post',
      post = more ++ js "end" ++ post' ->
      Forall (fun c => isDot c || N.eqb c 10 = true) more ->
      isWordAt (last (js "end" ++ more)) = true \/
      isWordAt (head post') = true.
Proof.
  intros (mr & Hm & Hg)%autoScaleSection_match.
  destruct (section_match _ _ _ _ Hm)
    as (pre & w0 & g & w1 & m & w2 & w3 & sec' & post & Hg' & Hb & _ & _
        & _ & _ & _ & _ & _ & Hmax).
  assert (sec' = sec) as -> by congruence.
  exists (pre ++ w0 ++ js "confi" ++ g ++ w1 ++ js "syste" ++ m ++ w2 ++
          js "auto-scale" ++ w3), post.
  split; [|done]. rewrite Hb. by rewrite <- !(assoc_L (++)).
Qed.

(** The section of the base config with a VPN section behind it. *)
Lemma autoScaleSection_last_end_witness :
  let sec :=
    jsLines
      ["set status enable";
       "    set sync-interface port3";
       "end";
       "config vpn ipsec phase1-interface";
       "    edit vpn1";
       "        set psksecret vpnsecret";
       "    next";
       ""] in
  fst (autoScaleSectionOf (moduleLoaded 0 0) vpnBaseConfig) = JString sec /\
  exists pre post,
    vpnBaseConfig = pre ++ sec ++ js "end" ++ post /\
    forall more post',
      post = more ++ js "end" ++ post' ->
      Forall (fun c => isDot c || N.eqb c 10 = true) more ->
      isWordAt (last (js "end" ++ more)) = true \/
      isWordAt (head post') = true.
Proof.
  intros sec. split; [by vm_compute|].
  apply (autoScaleSection_last_end 0 0 vpnBaseConfig sec).
  by vm_compute.
Defined.

(** X9.  A base config with the header [config system auto-scale] at the
    start of the text or of a line, in which [auto-scale] occurs nowhere
    else: the section is the text from the first code unit behind the
    header that is no white space up to the last [end] of the base config,
    provided that text has no CR, LS or PS in it and that [end] is a whole
    word. *)
Theorem autoScaleSection_found i j pre w body post :
  let header := js "config system auto-scale" in
  let base := pre ++ header ++ w ++ body ++ js "end" ++ post in
  (pre = [] \/ last pre = Some 10%N) ->
  indicesOf (js "auto-scale") base = [length pre + 14] ->
  last (indicesOf (js "end") base)
    = Some (length (pre ++ header ++ w ++ body)) ->
  Forall (fun c => isWhiteSpace c = true) w ->
  (forall c, head body = Some c -> isWhiteSpace c = false) ->
  Forall (fun c => isDot c || N.eqb c 10 = true) body ->
  isWordAt (last (header ++ w ++ body)) = false ->
  isWordAt (head post) = false ->
  fst (autoScaleSectionOf (moduleLoaded i j) base) = JString body.
Proof.
  intros header base Hpre Hone Hlast Hw Hbody Hany Hb1 Hb2.
  assert (isWordAt (last (js "e" ++ w ++ body)) = false) as Hb1'.
  { unfold header in Hb1. rewrite last_app in Hb1 |- *.
    by destruct (last (w ++ body)). }
  (* a match exists *)
  assert (is_Some (fst (exec (sectionExpr (moduleLoaded i j)) base))) as [mr Hm].
  { unfold exec. cbn [moduleLoaded sectionExpr setLastIndex global fst source
                      ngroups].
    destruct Hpre as [->|[pre' ->]%last_Some].
    - apply (search_complete _ _ [] None base 0).
      destruct (section_run (MState 0 None base (replicate 2 None)) [] w body
                  post) as [st' Hrun]; try done.
      { by left. }
      by apply (is_Some_matchAt _ _ _ _ _ st').
    - unfold base. rewrite <- (assoc_L (++)).
      apply (search_complete _ _ pre' None _ 0).
      destruct (section_run
                  (MState (0 + length pre') (prevAfter pre' None)
                     ([10%N] ++ header ++ w ++ body ++ js "end" ++ post)
                     (replicate 2 None)) [10%N] w body post)
        as [st' Hrun]; try done.
      { by right. }
      by apply (is_Some_matchAt _ _ _ _ _ st'). }
  rewrite firstGroup_section, Hm.
  destruct (section_header _ _ _ _ Hm)
    as (P & w0 & g & w1 & m & w2 & s9 & st' & Hbase & _ & _ & _ & _ & Hp9
        & Hl9 & Hmatch & Hgr).
  destruct (section_tail _ _ Hmatch)
    as (w3 & sec & post' & Hr9 & Hw3 & Hsec & Hcaps & Hw1' & Hw2' & Hmax
        & Hmaxw).
  simpl. rewrite Hgr, Hcaps, list_lookup_insert_eq by lia. simpl. f_equal.
  (* where [auto-scale] is *)
  assert (rest s9 = w ++ body ++ js "end" ++ post) as Hrest.
  { set (Q := P ++ w0 ++ js "confi" ++ g ++ w1 ++ js "syste" ++ m ++ w2).
    assert (base = Q ++ js "auto-scale" ++ rest s9) as HQ
      by (rewrite Hbase; unfold Q; by rewrite <- !(assoc_L (++))).
    assert (length Q ∈ indicesOf (js "auto-scale") base) as Hin
      by (rewrite HQ; apply indicesOf_elem).
    rewrite Hone in Hin. apply list_elem_of_singleton in Hin.
    assert (base = (pre ++ js "config system ") ++ js "auto-scale"
                     ++ w ++ body ++ js "end" ++ post) as HB
      by (unfold base, header; by rewrite <- !(assoc_L (++))).
    rewrite HB in HQ. apply app_inj_1 in HQ as [_ HQ].
    - by apply app_inv_head in HQ.
    - rewrite length_app. simpl. lia. }
  rewrite Hr9 in Hrest.
  (* where the closing [end] is *)
  assert (length (w3 ++ sec) <= length (w ++ body)) as Hle.
  { assert (base = (pre ++ header ++ w3 ++ sec) ++ js "end" ++ post') as HB.
    { unfold base. rewrite <- Hrest. by rewrite <- !(assoc_L (++)). }
    assert (length (pre ++ header ++ w3 ++ sec) ∈ indicesOf (js "end") base)
      as Hin by (rewrite HB; apply indicesOf_elem).
    apply (indicesFrom_last_ge _ _ _ _ _ Hlast) in Hin.
    repeat rewrite length_app in Hin. rewrite !length_app. lia. }
  assert ((w3 ++ sec) ++ js "end" ++ post' = (w ++ body) ++ js "end" ++ post)
    as Heq by by rewrite <- !(assoc_L (++)).
  assert (length (w ++ body) <= length (w3 ++ sec)) as Hge.
  { destruct (decide (length (w3 ++ sec) < length (w ++ body))) as [Hlt|];
      [exfalso|lia].
    pose proof Heq as Heq'.
    apply app_eq_inv in Heq' as [(k & Hk1 & Hk2)|(k & Hk1 & Hk2)].
    { rewrite Hk1, length_app in Hlt. lia. }
    destruct k as [|c k]; [rewrite Hk1, app_nil_r in Hlt; lia|].
    destruct (end_apart _ _ _ Hk2) as (more & Hk & Hpost'); [done|].
    rewrite Hk in Hk1.
    (* the text between the two lies in the body *)
    assert (exists k', body = k' ++ js "end" ++ more) as (k' & Hbody').
    { apply app_eq_inv in Hk1 as [(k' & Hw' & Hk')|(k' & Hw' & Hk')].
      - destruct k' as [|x k'].
        + exists []. by simpl in *.
        + exfalso. change (js "end") with [101; 110; 100]%N in Hk'.
          simpl in Hk'. injection Hk' as <- _.
          rewrite Hw' in Hw. apply Forall_app in Hw as [_ [Hx _]%Forall_cons].
          done.
      - exists k'. by rewrite Hk'. }
    destruct (Hmax more post Hpost') as [Hx|Hx].
    - rewrite Hbody' in Hany.
      by apply Forall_app in Hany as [_ [_ ?]%Forall_app].
    - rewrite Hbody' in Hb1'.
      rewrite !(assoc_L (++) _ _ (js "end" ++ more)) in Hb1'.
      rewrite last_app in Hb1'.
      destruct (last (js "end" ++ more)); [congruence|done].
    - congruence. }
  apply app_inj_1 in Heq as [Heq _]; [|lia].
  destruct (ws_run_prefix _ _ _ _ Heq Hw3 Hbody) as (k & Hwk & ->).
  destruct k as [|c k]; [done|]. exfalso.
  assert (rest s9 = w ++ body ++ js "end" ++ post) as Hr'
    by by rewrite Hr9.
  pose proof (Hmaxw _ _ Hr' ltac:(rewrite Hwk, length_app; simpl; lia) Hw)
    as Hn.
  destruct (sectionTail_complete (after s9 w) body post) as [res Hres];
    try done.
  - by destruct (after_spec _ s9 _ Hr') as (_ & _ & -> & _).
  - destruct (after_spec _ s9 _ Hr') as (_ & -> & _).
    rewrite Hp9, <- prevAfter_app, prevAfter_last.
    rewrite last_app in Hb1'. by destruct (last (w ++ body)).
  - congruence.
Qed.

(** The base config with a VPN section: the last [end] is the one of
    the VPN section. *)
Lemma autoScaleSection_found_witness :
  let w := [10%N] ++ js "    " in
  let body :=
    jsLines
      ["set status enable";
       "    set sync-interface port3";
       "end";
       "config vpn ipsec phase1-interface";
       "    edit vpn1";
       "        set psksecret vpnsecret";
       "    next";
       ""] in
  vpnBaseConfig =
    [] ++ js "config system auto-scale" ++ w ++ body ++ js "end" ++ [10%N] /\
  fst (autoScaleSectionOf (moduleLoaded 0 0) vpnBaseConfig) = JString body.
Proof.
  intros w body. split; [reflexivity|].
  apply (autoScaleSection_found 0 0 [] w body [10%N]).
  - by left.
  - by vm_compute.
  - by vm_compute.
  - by repeat constructor.
  - by intros c [= <-].
  - by vm_compute; repeat constructor.
  - by vm_compute.
  - done.
Defined.

(** ** The example of a section with an interface and a secret *)

Lemma indicesFrom_unfold p s i :
  indicesFrom p s i =
  (if startsWith p s then [i] else []) ++
  match s with
  | [] => []
  | _ :: s' => indicesFrom p s' (S i)
  end.
Proof. by destruct s. Qed.

(** The first occurrence of [p] in a text stays the first when the text
    goes on. *)
Lemma indicesFrom_head_app p a c t : forall i,
  head (indicesFrom p (a ++ p ++ c) i) = Some (i + length a) ->
  head (indicesFrom p ((a ++ p ++ c) ++ t) i) = Some (i + length a).
Proof.
  induction a as [|x a IH]; intros i H.
  - rewrite <- !(assoc_L (++)). cbn [app].
    rewrite indicesFrom_unfold, startsWith_app. simpl. f_equal. lia.
  - cbn [app] in H |- *. rewrite indicesFrom_unfold in H |- *.
    change (x :: (a ++ p ++ c) ++ t) with ((x :: a ++ p ++ c) ++ t).
    rewrite startsWith_longer.
    2:{ simpl. rewrite !length_app. lia. }
    destruct (startsWith p (x :: a ++ p ++ c)).
    + simpl in H. injection H as H. lia.
    + cbn [app] in H |- *. cbn [length] in H |- *.
      replace (i + S (length a)) with (S i + length a) in H |- * by lia.
      by apply IH.
Qed.

(** Where a whole word [end] stands behind the header, white space and a
    text without CR, LS or PS, the section takes in that text: it starts
    where the text starts and ends at that [end] or at a later one. *)
Lemma autoScaleSection_covers i j pre w body post :
  let header := js "config system auto-scale" in
  let base := pre ++ header ++ w ++ body ++ js "end" ++ post in
  (pre = [] \/ last pre = Some 10%N) ->
  indicesOf (js "auto-scale") base = [length pre + 14] ->
  Forall (fun c => isWhiteSpace c = true) w ->
  (exists c, head body = Some c /\ isWhiteSpace c = false) ->
  Forall (fun c => isDot c || N.eqb c 10 = true) body ->
  isWordAt (last (header ++ w ++ body)) = false ->
  isWordAt (head post) = false ->
  exists more,
    fst (autoScaleSectionOf (moduleLoaded i j) base) = JString (body ++ more).
Proof.
  intros header base Hpre Hone Hw (c0 & Hc0 & Hc0w) Hany Hb1 Hb2.
  assert (isWordAt (last (js "e" ++ w ++ body)) = false) as Hb1'.
  { unfold header in Hb1. rewrite last_app in Hb1 |- *.
    by destruct (last (w ++ body)). }
  assert (is_Some (fst (exec (sectionExpr (moduleLoaded i j)) base))) as [mr Hm].
  { unfold exec. cbn [moduleLoaded sectionExpr setLastIndex global fst source
                      ngroups].
    destruct Hpre as [->|[pre' ->]%last_Some].
    - apply (search_complete _ _ [] None base 0).
      destruct (section_run (MState 0 None base (replicate 2 None)) [] w body
                  post) as [st' Hrun]; try done.
      { by left. }
      by apply (is_Some_matchAt _ _ _ _ _ st').
    - unfold base. rewrite <- (assoc_L (++)).
      apply (search_complete _ _ pre' None _ 0).
      destruct (section_run
                  (MState (0 + length pre') (prevAfter pre' None)
                     ([10%N] ++ header ++ w ++ body ++ js "end" ++ post)
                     (replicate 2 None)) [10%N] w body post)
        as [st' Hrun]; try done.
      { by right. }
      by apply (is_Some_matchAt _ _ _ _ _ st'). }
  rewrite firstGroup_section, Hm.
  destruct (section_header _ _ _ _ Hm)
    as (P & w0 & g & w1 & m & w2 & s9 & st' & Hbase & _ & _ & _ & _ & Hp9
        & Hl9 & Hmatch & Hgr).
  destruct (section_tail _ _ Hmatch)
    as (w3 & sec & post' & Hr9 & Hw3 & Hsec & Hcaps & Hw1' & Hw2' & Hmax
        & Hmaxw).
  simpl. rewrite Hgr, Hcaps, list_lookup_insert_eq by lia. simpl.
  assert (rest s9 = w ++ body ++ js "end" ++ post) as Hrest.
  { set (Q := P ++ w0 ++ js "confi" ++ g ++ w1 ++ js "syste" ++ m ++ w2).
    assert (base = Q ++ js "auto-scale" ++ rest s9) as HQ
      by (rewrite Hbase; unfold Q; by rewrite <- !(assoc_L (++))).
    assert (length Q ∈ indicesOf (js "auto-scale") base) as Hin
      by (rewrite HQ; apply indicesOf_elem).
    rewrite Hone in Hin. apply list_elem_of_singleton in Hin.
    assert (base = (pre ++ js "config system ") ++ js "auto-scale"
                     ++ w ++ body ++ js "end" ++ post) as HB
      by (unfold base, header; by rewrite <- !(assoc_L (++))).
    rewrite HB in HQ. apply app_inj_1 in HQ as [_ HQ].
    - by apply app_inv_head in HQ.
    - rewrite length_app. simpl. lia. }
  rewrite Hr9 in Hrest.
  assert ((w3 ++ sec) ++ js "end" ++ post' = (w ++ body) ++ js "end" ++ post)
    as Heq by by rewrite <- !(assoc_L (++)).
  (* the group reaches the [end] behind the body, or a later one *)
  assert (exists more, w3 ++ sec = (w ++ body) ++ more) as [more Hmore].
  { pose proof Heq as Heq'.
    apply app_eq_inv in Heq' as [(k & Hk1 & Hk2)|(k & Hk1 & Hk2)];
      [by exists k|].
    destruct k as [|c k]; [exists []; by rewrite Hk1, !app_nil_r|]. exfalso.
    destruct (end_apart _ _ _ Hk2) as (more & Hk & Hpost'); [done|].
    rewrite Hk in Hk1.
    assert (exists k', body = k' ++ js "end" ++ more) as (k' & Hbody').
    { apply app_eq_inv in Hk1 as [(k' & Hw' & Hk')|(k' & Hw' & Hk')].
      - destruct k' as [|x k'].
        + exists []. by simpl in *.
        + exfalso. change (js "end") with [101; 110; 100]%N in Hk'.
          simpl in Hk'. injection Hk' as <- _.
          rewrite Hw' in Hw. apply Forall_app in Hw as [_ [Hx _]%Forall_cons].
          done.
      - exists k'. by rewrite Hk'. }
    destruct (Hmax more post Hpost') as [Hx|Hx].
    - rewrite Hbody' in Hany.
      by apply Forall_app in Hany as [_ [_ ?]%Forall_app].
    - rewrite Hbody' in Hb1'.
      rewrite !(assoc_L (++) _ _ (js "end" ++ more)) in Hb1'.
      rewrite last_app in Hb1'.
      destruct (last (js "end" ++ more)); [congruence|done].
    - congruence. }
  exists more. do 2 f_equal.
  rewrite <- (assoc_L (++)) in Hmore.
  destruct (ws_run_prefix _ _ _ _ Hmore Hw3) as (k & Hwk & ->).
  { destruct body; [done|]. simpl in *. congruence. }
  destruct k as [|c k]; [done|]. exfalso.
  assert (rest s9 = w ++ body ++ js "end" ++ post) as Hr'
    by by rewrite Hr9.
  pose proof (Hmaxw _ _ Hr' ltac:(rewrite Hwk, length_app; simpl; lia) Hw)
    as Hn.
  destruct (sectionTail_complete (after s9 w) body post) as [res Hres];
    try done.
  - by destruct (after_spec _ s9 _ Hr') as (_ & _ & -> & _).
  - destruct (after_spec _ s9 _ Hr') as (_ & -> & _).
    rewrite Hp9, <- prevAfter_app, prevAfter_last.
    rewrite last_app in Hb1'. by destruct (last (w ++ body)).
  - congruence.
Qed.

(** A first line for a key stays one when the section goes on. *)
Lemma firstFieldLine_app key value body more :
  firstFieldLine key value body -> firstFieldLine key value (body ++ more).
Proof.
  intros (above & below & Hb & Hfirst). exists above, (below ++ more).
  split; [rewrite Hb; by rewrite <- !(assoc_L (++))|].
  rewrite Hb in Hfirst |- *. unfold indicesOf in *.
  rewrite !(assoc_L (++) above) in Hfirst |- *.
  by apply (indicesFrom_head_app (js key) _ _ more 0).
Qed.

(** The field pattern of a key finds the first line for that key, and the
    whole of its value. *)
Lemma execField_line key value section :
  key = "sync-interface" \/ key = "psksecret" \/ key = "admin-sport" ->
  firstFieldLine key value section ->
  (exists c, head (js value) = Some c /\ isWhiteSpace c = false) ->
  Forall (fun c => isDot c = true) (js value) ->
  execField key (JString section) = JString (js value).
Proof.
  intros Hkey (above & below & -> & Hfirst) (c & Hc & Hcw) Dv.
  change (js "set ") with (js "set" ++ js " ") in Hfirst |- *.
  rewrite <- !(assoc_L (++)) in Hfirst |- *.
  set (b := [10%N] ++ below) in *.
  unfold execField, exec. cbn [toString setFieldExpr global fst].
  change (Cat [Lit "set"; Plus ws; Lit key; Plus ws; Grp 1 (Plus dot)])
    with (source (setFieldExpr key)).
  rewrite search_skip.
  2:{ intros i Hi. apply field_not_before; [|done].
      by rewrite !(assoc_L (++) above) in Hfirst |- *. }
  set (st := MState (0 + length above) (prevAfter above None)
               (js "set" ++ js " " ++ js key ++ js " " ++ js value ++ b)
               (replicate 2 None)).
  destruct (field_matcher key st (js " ") (js " ") (js value) b)
    as (st' & Hm & Hcaps); try done.
  { by destruct (js value). }
  { by repeat constructor. }
  { by repeat constructor. }
  { intros c'. by apply keys_plain. }
  { intros c'. destruct (js value) as [|x v]; [done|]. simpl in *. congruence. }
  { by intros c' [= <-]. }
  rewrite (search_here _ _ _ _ _
             (MatchResult (0 + length above) (pos st')
                (<[0 := Some (consumed st st')]> (caps st')))).
  - unfold firstGroup, group. cbn [groups].
    rewrite list_lookup_insert_ne by done. rewrite Hcaps. done.
  - unfold matchAt. cbv zeta. change (ngroups (setFieldExpr key)) with 1.
    fold st. by rewrite Hm.
Qed.

Section SlaveConfigExample.
Context {St V : Type}.
Implicit Types (this : AutoscaleHandler St V) (masterIp callbackUrl : jsval).

(** A call that returns leaves the secret pattern at [lastIndex] 0, and
    the section pattern as it was. *)
Lemma getSlaveConfig_returns this masterIp callbackUrl i j config :
  fst (getSlaveConfig this masterIp callbackUrl (moduleLoaded i j))
    = Normal config ->
  getSlaveConfig this masterIp callbackUrl (moduleLoaded i j)
    = (Normal config, moduleLoaded i 0).
Proof.
  unfold getSlaveConfig, autoScaleSectionOf.
  change (exec (sectionExpr (moduleLoaded i j)) (_baseConfig this))
    with (search (source AUTOSCALE_SECTION_EXPR) 1 None (_baseConfig this) 0,
          sectionExpr (moduleLoaded i j)).
  cbv zeta. cbn [fst snd sectionExpr secretExpr].
  destruct (negb _ || negb _ || negb _); [done|].
  destruct (replace _ _ _) as [r rx2] eqn:E. cbn [fst snd].
  intros [= <-]. f_equal.
  change rx2 with (snd (r, rx2)). rewrite <- E.
  by rewrite replace_lastIndex.
Qed.

(** C3, amended.  A base config with the header [config system auto-scale]
    at the start of the text or of a line and [auto-scale] nowhere else;
    behind the header and white space a section that has no CR, LS or PS
    in it, is closed by a whole word [end] and holds the lines
    [set sync-interface port3] and [set psksecret abc123], each ended by a
    line feed and each the first place of the section where its key
    occurs.  Then [getSlaveConfig("10.0.0.5", "https://cb")] returns a
    config with the lines [set master-ip 10.0.0.5],
    [set sync-interface port3] and [set psksecret abc123], the secret as it
    is, whatever stands before the header and behind that [end].  The call
    hands out nothing else: the text with [set psksecret  *] in the place
    of the secret, [config.replace(SET_SECRET_EXPR, '$1 *')], is computed
    and dropped, and what stays of it is [lastIndex] 0 in the secret
    pattern. *)
Theorem getSlaveConfig_example this i j pre w body post :
  let header := js "config system auto-scale" in
  _baseConfig this = pre ++ header ++ w ++ body ++ js "end" ++ post ->
  (pre = [] \/ last pre = Some 10%N) ->
  indicesOf (js "auto-scale") (_baseConfig this) = [length pre + 14] ->
  Forall (fun c => isWhiteSpace c = true) w ->
  (exists c, head body = Some c /\ isWhiteSpace c = false) ->
  Forall (fun c => isDot c || N.eqb c 10 = true) body ->
  isWordAt (last (header ++ w ++ body)) = false ->
  isWordAt (head post) = false ->
  firstFieldLine "sync-interface" "port3" body ->
  firstFieldLine "psksecret" "abc123" body ->
  exists config tail,
    getSlaveConfig this (JString (js "10.0.0.5")) (JString (js "https://cb"))
      (moduleLoaded i j) = (Normal config, moduleLoaded i 0) /\
    includes (configLine "set master-ip 10.0.0.5") config = true /\
    includes (configLine "set sync-interface port3") config = true /\
    includes (configLine "set psksecret abc123") config = true /\
    redactedView config (moduleLoaded i j) =
      T_syncInterface ++ js "port3" ++ T_masterIp ++ js "10.0.0.5" ++
      T_callbackUrl ++ js "https://cb" ++ T_pskSecret ++ js " *" ++
      [10%N] ++ tail /\
    includes (configLine "set psksecret  *")
      (redactedView config (moduleLoaded i j)) = true.
Proof.
  intros header Hbase Hpre Hone Hw Hbody Hany Hb1 Hb2 Hsync Hpsk.
  rewrite Hbase in Hone.
  destruct (autoScaleSection_covers 0 0 pre w body post Hpre Hone Hw Hbody
              Hany Hb1 Hb2) as [more Hsec].
  fold header in Hsec. rewrite <- Hbase in Hsec.
  assert (execField "sync-interface" (JString (body ++ more))
          = JString (js "port3")) as Esync.
  { apply execField_line; [by left|by apply firstFieldLine_app| |].
    - by exists 112%N.
    - by repeat constructor. }
  assert (execField "psksecret" (JString (body ++ more))
          = JString (js "abc123")) as Epsk.
  { apply execField_line; [right; by left|by apply firstFieldLine_app| |].
    - by exists 97%N.
    - by repeat constructor. }
  set (adminPort :=
         toString (if truthy (execField "admin-sport" (JString (body ++ more)))
                   then execField "admin-sport" (JString (body ++ more))
                   else JString (js "8443"))).
  set (config := slaveConfigText (js "port3") (js "10.0.0.5")
                   (js "https://cb") (js "abc123") adminPort).
  assert (fst (getSlaveConfig this (JString (js "10.0.0.5"))
                 (JString (js "https://cb")) (moduleLoaded i j))
          = Normal config) as Hres.
  { rewrite getSlaveConfig_fst. cbv zeta. rewrite Hsec, Esync, Epsk. done. }
  clearbody adminPort.
  assert (exists prefix,
    config = prefix ++ adminPort ++ T_end /\
    includes (configLine "set master-ip 10.0.0.5") prefix = true /\
    includes (configLine "set sync-interface port3") prefix = true /\
    includes (configLine "set psksecret abc123") prefix = true)
    as (prefix & Hc & Hi1 & Hi2 & Hi3).
  { exists (T_syncInterface ++ js "port3" ++ T_masterIp ++ js "10.0.0.5" ++
            T_callbackUrl ++ js "https://cb" ++ T_pskSecret ++
            js "abc123" ++ T_adminPort).
    split; [|by vm_compute].
    unfold config, slaveConfigText. by rewrite <- !(assoc_L (++)). }
  destruct (replace_first config (secretExpr (moduleLoaded i j))
              (js "$1 *")
              (MatchResult 327 347
                 [Some (js "set psksecret abc123");
                  Some (js "set psksecret ")])
              10%N (drop 348 config))
    as (tail & Ht); [done|by vm_compute|done|by vm_compute|by vm_compute|].
  assert (redactedView config (moduleLoaded i j) =
          T_syncInterface ++ js "port3" ++ T_masterIp ++ js "10.0.0.5" ++
          T_callbackUrl ++ js "https://cb" ++ T_pskSecret ++ js " *" ++
          [10%N] ++ tail) as Hview.
  { unfold redactedView. rewrite Ht. by vm_compute. }
  exists config, tail. split; [by apply getSlaveConfig_returns|].
  rewrite Hc. split; [by apply includes_app_l|].
  split; [by apply includes_app_l|]. split; [by apply includes_app_l|].
  rewrite <- Hc. split; [done|]. rewrite Hview.
  rewrite !(assoc_L (++) _ _ tail), !(assoc_L (++)).
  apply includes_app_l. by vm_compute.
Qed.

End SlaveConfigExample.

(** The auto-scale section between a VPN section with a secret of its own
    and a section of global settings. *)
Lemma getSlaveConfig_example_witness :
  let this : AutoscaleHandler unit unit :=
    newAutoscaleHandler (abstractCloudPlatform _ _) sectionsBaseConfig in
  exists config tail,
    getSlaveConfig this (JString (js "10.0.0.5")) (JString (js "https://cb"))
      (moduleLoaded 0 7) = (Normal config, moduleLoaded 0 0) /\
    includes (configLine "set master-ip 10.0.0.5") config = true /\
    includes (configLine "set sync-interface port3") config = true /\
    includes (configLine "set psksecret abc123") config = true /\
    redactedView config (moduleLoaded 0 7) =
      T_syncInterface ++ js "port3" ++ T_masterIp ++ js "10.0.0.5" ++
      T_callbackUrl ++ js "https://cb" ++ T_pskSecret ++ js " *" ++
      [10%N] ++ tail /\
    includes (configLine "set psksecret  *")
      (redactedView config (moduleLoaded 0 7)) = true.
Proof.
  intros this.
  apply (getSlaveConfig_example this 0 7 vpnSection ([10%N] ++ js "    ")
           exampleSection globalSection).
  - reflexivity.
  - by right.
  - by vm_compute.
  - by repeat constructor.
  - by exists 115%N.
  - by vm_compute; repeat constructor.
  - by vm_compute.
  - done.
  - exists (jsLines ["set status enable"; "    "]),
      (jsLines ["    set role master";
                "    set callback-url ${CALLBACK_URL}";
                "    set psksecret abc123";
                ""]).
    split; by vm_compute.
  - exists (jsLines ["set status enable";
                     "    set sync-interface port3";
                     "    set role master";
                     "    set callback-url ${CALLBACK_URL}";
                     "    "]), [].
    split; by vm_compute.
Defined.

(** C3 does not hold of every base config whose auto-scale section has the
    two lines.  With CR LF at the end of its lines the section between the
    header line and the bare [end] line has them, white space aside, and
    [getSlaveConfig] finds no section at all: it throws the error that
    names the psksecret and returns no config. *)
Lemma getSlaveConfig_example_crlf :
  let this : AutoscaleHandler unit unit :=
    newAutoscaleHandler (abstractCloudPlatform _ _) crlfBaseConfig in
  let result :=
    fst (getSlaveConfig this (JString (js "10.0.0.5"))
           (JString (js "https://cb")) (moduleLoaded 0 0)) in
  (exists lines,
     specAutoScaleSection crlfBaseConfig = Some lines /\
     js "set sync-interface port3" ∈ trim <$> lines /\
     js "set psksecret abc123" ∈ trim <$> lines) /\
  result =
    Throw
      (Error
         (js "Base config is invalid (psksecret is missing): " ++
          JSON_stringify
            [("syncInterface", JNull);
             ("apiEndpoint", JString (js "https://cb"));
             ("masterIp", JString (js "10.0.0.5")); ("pskSecret", JNull)])) /\
  (forall config, result <> Normal config).
Proof.
  split; [|split; [by vm_compute|by vm_compute]].
  eexists. split; [by vm_compute|].
  split; vm_compute; set_solver.
Qed.

(** ** getMasterConfig: no placeholder, and several *)

Section MasterConfigMore.
Context {St V : Type}.
Implicit Types (this : AutoscaleHandler St V).

(** X10.  A base config without the placeholder comes back as it is,
    whatever the callback url is. *)
Theorem getMasterConfig_no_placeholder this callbackUrl :
  includes (js "${CALLBACK_URL}") (_baseConfig this) = false ->
  getMasterConfig this callbackUrl = Normal (_baseConfig this).
Proof.
  intros H. unfold getMasterConfig. f_equal.
  apply replace_no_match; [done|].
  unfold exec. simpl. by apply (search_literal_none (js "${CALLBACK_URL}")).
Qed.

(** X11.  Only the first placeholder gives way to the callback url (a url
    without [$] in it): the text before it and all the text behind it,
    further placeholders included, stay as they are. *)
Theorem getMasterConfig_first_placeholder this callbackUrl pre post :
  _baseConfig this = pre ++ js "${CALLBACK_URL}" ++ post ->
  includes (js "${CALLBACK_URL}") (pre ++ js "${CALLBACK_URL") = false ->
  36%N ∉ toString callbackUrl ->
  getMasterConfig this callbackUrl =
  Normal (pre ++ toString callbackUrl ++ post).
Proof.
  intros Hb Hpre Hurl. unfold getMasterConfig. f_equal. rewrite Hb.
  rewrite (replace_literal (js "${CALLBACK_URL}") 0) by done.
  by apply (substituteFirst_skip (js "${CALLBACK_URL") 125%N).
Qed.

End MasterConfigMore.

(** A config without the placeholder, and a url full of dollar signs. *)
Lemma getMasterConfig_no_placeholder_witness :
  let this : AutoscaleHandler unit unit :=
    newAutoscaleHandler (abstractCloudPlatform _ _) minimalBaseConfig in
  includes (js "${CALLBACK_URL}") (_baseConfig this) = false /\
  getMasterConfig this (JString (js "https://cb/?a=$&b=$$")) =
  Normal minimalBaseConfig.
Proof.
  intros this. split; [by vm_compute|].
  apply (getMasterConfig_no_placeholder this). by vm_compute.
Defined.

(** Two placeholders: the second one stays. *)
Lemma getMasterConfig_first_placeholder_witness :
  let this : AutoscaleHandler unit unit :=
    newAutoscaleHandler (abstractCloudPlatform _ _)
      (js "set callback-url ${CALLBACK_URL} and ${CALLBACK_URL}") in
  getMasterConfig this (JString (js "https://cb")) =
  Normal (js "set callback-url " ++ js "https://cb" ++
          js " and ${CALLBACK_URL}").
Proof.
  intros this.
  apply (getMasterConfig_first_placeholder this (JString (js "https://cb"))
           (js "set callback-url ") (js " and ${CALLBACK_URL}")).
  - reflexivity.
  - by vm_compute.
  - vm_compute. intros H. by repeat (apply elem_of_cons in H as [?|H]; [done|]);
      apply elem_of_nil in H.
Defined.

(** ** The methods that a subclass fills in *)

Section PlaceholderFacts.
Context {St V : Type}.
Variable toBoolean : V -> bool.
Implicit Types (this : AutoscaleHandler St V).

(** X12.  In a subclass whose [throwNotImplementedException] returns,
    [purgeMaster] returns that value when it is truthy; otherwise it reads
    the global [asgName], which no scope of the module declares: the call
    returns what the global object holds under that name and ends with a
    ReferenceError when it holds nothing. *)
Theorem purgeMaster_reads_asgName this genv v :
  throwNotImplementedException this = Normal v ->
  purgeMaster this genv =
  if truthy v then (Normal v, [])
  else
    (match genv !! "asgName" with
     | Some a => Normal a
     | None => Throw (ReferenceError (js "asgName is not defined"))
     end, ["asgName"]).
Proof.
  intros H. unfold purgeMaster, logicalOr, resolveGlobal. rewrite H.
  by destruct (truthy v).
Qed.

(** X13.  Each of the fourteen methods that a subclass is to fill in ends
    with the error of [throwNotImplementedException], whatever its
    arguments are: on an instance of the class itself, 'Not Implemented'. *)
Theorem placeholders_reject this e
    (ip instanceId event desiredCapacity minSize maxSize instance
       nextHeartBeatTime : V) :
  throwNotImplementedException this = Throw e ->
  handle this = Throw e /\
  getConfig this ip = Throw e /\
  checkMasterElection this = Throw e /\
  completeMasterElection this ip = Throw e /\
  completeMasterInstance this instanceId = Throw e /\
  getFazIp this = Throw e /\
  handleNicAttachment this event = Throw e /\
  handleNicDetachment this event = Throw e /\
  updateCapacity toBoolean this desiredCapacity minSize maxSize = Throw e /\
  resetMasterElection this = Throw e /\
  addInstanceToMonitor toBoolean this instance nextHeartBeatTime = Throw e /\
  removeInstanceFromMonitor this instance = Throw e /\
  deregisterMasterInstance this instance = Throw e /\
  terminateInstanceInAutoScalingGroup this instance = Throw e.
Proof.
  intros H.
  unfold handle, getConfig, checkMasterElection, completeMasterElection,
    completeMasterInstance, getFazIp, handleNicAttachment,
    handleNicDetachment, updateCapacity, resetMasterElection,
    addInstanceToMonitor, removeInstanceFromMonitor,
    deregisterMasterInstance, terminateInstanceInAutoScalingGroup.
  rewrite H. by repeat split.
Qed.

(** X14.  A handler on the class CloudPlatform itself: [init],
    [loadSettings] and [saveSettings] end with the platform's
    'Not Implemented' and leave the state as it was. *)
Theorem abstract_platform_rejects (baseConfig : jsstring) (st : St)
    (desiredCapacity minSize maxSize : V) :
  let this : AutoscaleHandler St V :=
    newAutoscaleHandler (abstractCloudPlatform _ _) baseConfig in
  initHandler this st = (Throw (Error (js "Not Implemented")), st) /\
  loadSettings this st = (Throw (Error (js "Not Implemented")), st) /\
  saveSettings this desiredCapacity minSize maxSize st =
    (Throw (Error (js "Not Implemented")), st).
Proof. done. Qed.

End PlaceholderFacts.

(** An override that returns [undefined], and no global [asgName]. *)
Lemma purgeMaster_reads_asgName_witness :
  let this : AutoscaleHandler unit unit :=
    MkAutoscaleHandler (abstractCloudPlatform _ _) exampleBaseConfig
      (Normal JUndefined) in
  purgeMaster this ∅ =
  (Throw (ReferenceError (js "asgName is not defined")), ["asgName"]).
Proof.
  intros this.
  rewrite (purgeMaster_reads_asgName this ∅ JUndefined eq_refl).
  cbn [truthy]. by rewrite lookup_empty.
Defined.

(** The class itself, with numbers for the values. *)
Lemma placeholders_reject_witness :
  let this : AutoscaleHandler unit nat :=
    newAutoscaleHandler (abstractCloudPlatform _ _) exampleBaseConfig in
  let toBoolean (n : nat) := negb (n =? 0) in
  let e := Error (js "Not Implemented") in
  handle this = Throw e /\
  getConfig this 1 = Throw e /\
  checkMasterElection this = Throw e /\
  completeMasterElection this 1 = Throw e /\
  completeMasterInstance this 2 = Throw e /\
  getFazIp this = Throw e /\
  handleNicAttachment this 3 = Throw e /\
  handleNicDetachment this 3 = Throw e /\
  updateCapacity toBoolean this 2 1 4 = Throw e /\
  resetMasterElection this = Throw e /\
  addInstanceToMonitor toBoolean this 5 6 = Throw e /\
  removeInstanceFromMonitor this 5 = Throw e /\
  deregisterMasterInstance this 5 = Throw e /\
  terminateInstanceInAutoScalingGroup this 5 = Throw e.
Proof.
  intros this toBoolean e.
  apply (placeholders_reject toBoolean this e 1 2 3 2 1 4 5 6). reflexivity.
Defined.

Section CloudPlatformFacts.
Import CloudPlatformClass.
Context {A : Type}.

(** X15.  Every method of the class CloudPlatform ends with the error of
    [throwNotImplementedException], whatever its arguments are: on an
    instance of the class itself, 'Not Implemented'. *)
Theorem CloudPlatform_methods_reject (this : instance) e (a b c d : A) :
  throwNotImplementedException this = Throw e ->
  init this = Throw e /\
  putMasterElectionVote this a b = Throw e /\
  getElectedMaster this = Throw e /\
  getLifecycleItems this a = Throw e /\
  updateLifecycleItem this a = Throw e /\
  cleanUpDbLifeCycleActions this a = Throw e /\
  getCallbackEndpointUrl this a = Throw e /\
  findInstanceIdByIp this a = Throw e /\
  extractRequestInfo this a = Throw e /\
  protectInstanceFromScaleIn this a b = Throw e /\
  listAllInstances this a = Throw e /\
  describeInstance this a = Throw e /\
  getInstanceHealthCheck this a b = Throw e /\
  updateInstanceHealthCheck this a b c = Throw e /\
  deleteInstanceHealthCheck this a = Throw e /\
  deleteInstances this a = Throw e /\
  createNetworkInterface this a = Throw e /\
  deleteNetworkInterface this a = Throw e /\
  describeNetworkInterface this a = Throw e /\
  attachNetworkInterface this a b = Throw e /\
  detachNetworkInterface this a b = Throw e /\
  getNicAttachmentRecord this a = Throw e /\
  updateNicAttachmentRecord this a b c d = Throw e /\
  deleteNicAttachmentRecord this a b = Throw e /\
  getSettingItem this a = Throw e /\
  setSettingItem this a b = Throw e /\
  getPlatformLogger this = Throw e.
Proof.
  intros H.
  unfold init, putMasterElectionVote, getElectedMaster, getLifecycleItems,
    updateLifecycleItem, cleanUpDbLifeCycleActions, getCallbackEndpointUrl,
    findInstanceIdByIp, extractRequestInfo, protectInstanceFromScaleIn,
    listAllInstances, describeInstance, getInstanceHealthCheck,
    updateInstanceHealthCheck, deleteInstanceHealthCheck, deleteInstances,
    createNetworkInterface, deleteNetworkInterface, describeNetworkInterface,
    attachNetworkInterface, detachNetworkInterface, getNicAttachmentRecord,
    updateNicAttachmentRecord, deleteNicAttachmentRecord, getSettingItem,
    setSettingItem, getPlatformLogger, awaitThrow.
  rewrite H. by repeat split.
Qed.

End CloudPlatformFacts.

(** The class itself, with numbers for the arguments. *)
Lemma CloudPlatform_methods_reject_witness :
  let this := CloudPlatformClass.newCloudPlatform in
  let e := Error (js "Not Implemented") in
  CloudPlatformClass.init this = Throw e /\
  CloudPlatformClass.putMasterElectionVote this 1 0 = Throw e /\
  CloudPlatformClass.getElectedMaster this = Throw e /\
  CloudPlatformClass.getLifecycleItems this 1 = Throw e /\
  CloudPlatformClass.updateLifecycleItem this 1 = Throw e /\
  CloudPlatformClass.cleanUpDbLifeCycleActions this 1 = Throw e /\
  CloudPlatformClass.getCallbackEndpointUrl this 1 = Throw e /\
  CloudPlatformClass.findInstanceIdByIp this 1 = Throw e /\
  CloudPlatformClass.extractRequestInfo this 1 = Throw e /\
  CloudPlatformClass.protectInstanceFromScaleIn this 1 0 = Throw e /\
  CloudPlatformClass.listAllInstances this 1 = Throw e /\
  CloudPlatformClass.describeInstance this 1 = Throw e /\
  CloudPlatformClass.getInstanceHealthCheck this 1 0 = Throw e /\
  CloudPlatformClass.updateInstanceHealthCheck this 1 0 2 = Throw e /\
  CloudPlatformClass.deleteInstanceHealthCheck this 1 = Throw e /\
  CloudPlatformClass.deleteInstances this 1 = Throw e /\
  CloudPlatformClass.createNetworkInterface this 1 = Throw e /\
  CloudPlatformClass.deleteNetworkInterface this 1 = Throw e /\
  CloudPlatformClass.describeNetworkInterface this 1 = Throw e /\
  CloudPlatformClass.attachNetworkInterface this 1 0 = Throw e /\
  CloudPlatformClass.detachNetworkInterface this 1 0 = Throw e /\
  CloudPlatformClass.getNicAttachmentRecord this 1 = Throw e /\
  CloudPlatformClass.updateNicAttachmentRecord this 1 0 2 3 = Throw e /\
  CloudPlatformClass.deleteNicAttachmentRecord this 1 0 = Throw e /\
  CloudPlatformClass.getSettingItem this 1 = Throw e /\
  CloudPlatformClass.setSettingItem this 1 0 = Throw e /\
  CloudPlatformClass.getPlatformLogger this = Throw e.
Proof.
  intros this e.
  apply (CloudPlatform_methods_reject this e 1 0 2 3). reflexivity.
Defined.
